(** * A shallow embedding of the shell's lexer, parser and pipeline driver

    The development follows [shell.cpp]: the token type with its equality
    operator, the lexer [buildToken], the tokenizer loop [tokenList], the
    recursive parser [buildCommands], and the two [executeCommand] overloads
    that launch a pipeline.

    Conventions of the embedding.
    - A [std::string] is a [string]; a nullable pointer ([std::string *],
      [const char *], [Command *]) is an [option].  A [const char *] that
      is not null is the C string it points to: the characters up to the
      first NUL ([c_str]).
    - A mutable reference parameter is passed in and handed back.
    - [front()] of an empty [std::string] or [std::vector] is outside the
      contract of [front()].  The embedding does not stop there: it keeps
      computing with the character or token the read would yield and raises
      a flag in the result, so that both "what is returned" and "was every
      read inside the container" can be stated. *)

From Stdlib Require Import String Ascii List Bool Arith Lia.
From stdpp Require Import base option strings gmap.
Import ListNotations.

Open Scope list_scope.

(** ** Tokens *)

Inductive TokenId : Type :=
  | IDENT
  | PIPE
  | REDIR_IN
  | REDIR_OUT
  | APPEND_OUT
  | BG
  | END.

#[global] Instance TokenId_eq_dec : EqDecision TokenId.
Proof. solve_decision. Defined.

(** [struct Token]: the kind and the nullable pointer to the text. *)
Record Token : Type := mkToken {
  token_id : TokenId;
  str : option string
}.

#[global] Instance Token_eq_dec : EqDecision Token.
Proof. solve_decision. Defined.

(** [Token::make] and [Token::makeIdent], the two public factories. *)
Definition make (id : TokenId) : Token := mkToken id None.
Definition makeIdent (s : string) : Token := mkToken IDENT (Some s).

Definition get_id (t : Token) : TokenId := token_id t.
Definition get_str (t : Token) : option string := str t.

(** [Token::operator==], branch by branch. *)
Definition Token_eq (lhs rhs : Token) : bool :=
  match str lhs with
  | None =>
      bool_decide (token_id lhs = token_id rhs) && bool_decide (str rhs = None)
  | Some l =>
      match str rhs with
      | None => bool_decide (token_id lhs = token_id rhs)
      | Some r => bool_decide (token_id lhs = token_id rhs) && bool_decide (l = r)
      end
  end.

(** [Token::operator!=]: note the swapped operands, [!(rhs == *this)]. *)
Definition Token_neq (lhs rhs : Token) : bool := negb (Token_eq rhs lhs).

(** The tokens the lexer can produce and the documented use of the
    factories ([make] is "for creating a non-identifier"): an identifier has
    its text, every other kind has none. *)
Definition lexical (t : Token) : bool :=
  match token_id t, str t with
  | IDENT, Some _ => true
  | IDENT, None => false
  | _, None => true
  | _, Some _ => false
  end.

(** ** The lexer *)

(** [std::string::front()].  On an empty string the read lands on the
    terminating NUL of the buffer; the second component records that the
    string was empty. *)
Definition front (input : string) : ascii * bool :=
  match input with
  | EmptyString => ("000"%char, true)
  | String c _ => (c, false)
  end.

(** [input.erase(input.begin())] *)
Definition erase_begin (input : string) : string :=
  match input with
  | EmptyString => EmptyString
  | String _ rest => rest
  end.

Fixpoint string_mem (c : ascii) (set : string) : bool :=
  match set with
  | EmptyString => false
  | String d set' => Ascii.eqb c d || string_mem c set'
  end.

(** [s.find_first_of(set)]; [None] is [std::string::npos]. *)
Fixpoint find_first_of (set s : string) : option nat :=
  match s with
  | EmptyString => None
  | String c s' =>
      if string_mem c set then Some 0
      else match find_first_of set s' with
           | Some i => Some (S i)
           | None => None
           end
  end.

(** [s.substr(0, n)] and [s.erase(0, n)]. *)
Fixpoint substr0 (s : string) (n : nat) : string :=
  match n, s with
  | S n', String c s' => String c (substr0 s' n')
  | _, _ => EmptyString
  end.

Fixpoint erase0 (s : string) (n : nat) : string :=
  match n, s with
  | S n', String _ s' => erase0 s' n'
  | _, _ => s
  end.

Definition delimiters : string := " ><|&".

(** What one call of [buildToken] hands back: the token, the input as the
    call leaves it, and whether the call read [front()] of an empty string. *)
Record Lexed : Type := mkLexed {
  lexed_token : Token;
  lexed_input : string;
  lexed_past_end : bool
}.

(** [buildToken].  The [for (;;)] loop only comes round again through the
    [continue] of the space case, after one character has been erased, so it
    is a structural recursion on the input. *)
Fixpoint buildToken (input : string) : Lexed :=
  match input with
  | EmptyString => mkLexed (make END) EmptyString false
  | String current_char input =>
      if Ascii.eqb current_char " " then buildToken input
      else if Ascii.eqb current_char ">" then
        let (next, past_end) := front input in
        if Ascii.eqb next ">"
        then mkLexed (make APPEND_OUT) (erase_begin input) past_end
        else mkLexed (make REDIR_OUT) input past_end
      else if Ascii.eqb current_char "<" then mkLexed (make REDIR_IN) input false
      else if Ascii.eqb current_char "|" then mkLexed (make PIPE) input false
      else if Ascii.eqb current_char "&" then mkLexed (make BG) input false
      else
        let str := String current_char EmptyString in
        match find_first_of delimiters input with
        | None => mkLexed (makeIdent (str ++ input)) EmptyString false
        | Some found =>
            mkLexed (makeIdent (str ++ substr0 input found)) (erase0 input found) false
        end
  end.

(** The result of [tokenList]: the vector, the command line as the loop
    leaves it (it is passed by reference), and the flag of the lexer calls. *)
Record Tokenized : Type := mkTokenized {
  token_list : list Token;
  rest_of_line : string;
  past_end : bool
}.

(** The [while] loop of [tokenList]; [fuel] bounds the number of tests of the
    loop condition and [None] means the bound was reached. *)
Fixpoint tokenList_loop (fuel : nat) (cur_token : Lexed) (token_list : list Token)
    (flag : bool) : option Tokenized :=
  match fuel with
  | O => None
  | S fuel' =>
      if bool_decide (get_id (lexed_token cur_token) = END)
      then Some (mkTokenized token_list (lexed_input cur_token)
                   (flag || lexed_past_end cur_token))
      else tokenList_loop fuel' (buildToken (lexed_input cur_token))
             (token_list ++ [lexed_token cur_token])
             (flag || lexed_past_end cur_token)
  end.

Definition tokenList_fuel (fuel : nat) (commandLine : string) : option Tokenized :=
  tokenList_loop fuel (buildToken commandLine) [] false.

(** One test of the loop condition per character, and the last one. *)
Definition tokenList (commandLine : string) : option Tokenized :=
  tokenList_fuel (S (String.length commandLine)) commandLine.

(** ** Commands *)

(** [std::string::c_str()], read as a C string: a [std::string] may hold
    NUL characters, and what [strcmp], [strdup], [open], [chdir] and [execvp]
    see of it ends before the first one. *)
Fixpoint c_str (s : string) : string :=
  match s with
  | EmptyString => EmptyString
  | String c s' => if Ascii.eqb c Ascii.zero then EmptyString else String c (c_str s')
  end.

(** [struct Command].  [command], [redir_in], [redir_out] are [const char *]
    and hold C strings, [args] is a pointer to a vector of [std::string *],
    [pipe_to] owns the next stage. *)
#[warnings="-register-all"]
Inductive Command : Type := mkCommand {
  command : option string;
  args : option (list (option string));
  bg : bool;
  append : bool;
  redir_in : option string;
  redir_out : option string;
  pipe_to : option Command
}.

(** The constructor [Command()] initialises every member but [append]; the
    value [append] then has is whatever the fresh storage of this node
    holds, here the argument. *)
Definition new_Command (uninitialised : bool) : Command :=
  mkCommand None None false uninitialised None None None.

Definition set_command (v : option string) (c : Command) : Command :=
  mkCommand v (args c) (bg c) (append c) (redir_in c) (redir_out c) (pipe_to c).
Definition set_args (v : option (list (option string))) (c : Command) : Command :=
  mkCommand (command c) v (bg c) (append c) (redir_in c) (redir_out c) (pipe_to c).
Definition set_bg (v : bool) (c : Command) : Command :=
  mkCommand (command c) (args c) v (append c) (redir_in c) (redir_out c) (pipe_to c).
Definition set_append (v : bool) (c : Command) : Command :=
  mkCommand (command c) (args c) (bg c) v (redir_in c) (redir_out c) (pipe_to c).
Definition set_redir_in (v : option string) (c : Command) : Command :=
  mkCommand (command c) (args c) (bg c) (append c) v (redir_out c) (pipe_to c).
Definition set_redir_out (v : option string) (c : Command) : Command :=
  mkCommand (command c) (args c) (bg c) (append c) (redir_in c) v (pipe_to c).
Definition set_pipe_to (v : option Command) (c : Command) : Command :=
  mkCommand (command c) (args c) (bg c) (append c) (redir_in c) (redir_out c) v.

(** [lastCommand]: follow [pipe_to] to the end of the chain. *)
Fixpoint lastCommand (pCommand : Command) : Command :=
  match pipe_to pCommand with
  | Some next => lastCommand next
  | None => pCommand
  end.

(** Number of nodes of a chain. *)
Fixpoint chain_length (c : Command) : nat :=
  match pipe_to c with
  | Some next => S (chain_length next)
  | None => 1
  end.

(** The stages of a chain, first to last. *)
Fixpoint stages (c : Command) : list Command :=
  c :: match pipe_to c with
       | Some next => stages next
       | None => []
       end.

(** ** The parser *)

(** What a call of [buildCommands] ends in: a chain, the null pointer, or a
    call of [c_str()] through a null [std::string *] (the text of an
    identifier token that was built without one). *)
Inductive Returned : Type :=
  | Chain (c : Command)
  | Nullptr
  | NullDeref.

(** The outcome together with the flag: did the call read [front()] of its
    token vector while the vector was empty. *)
Record Parse : Type := mkParse {
  ret : Returned;
  front_of_empty : bool
}.

Section Parser.

(** The token a [front()] of the emptied vector yields, and the values of
    the member [append] that [Command()] leaves unset: every [new Command]
    has its own, [uninitialised k] for the node of the call at depth [k] of
    the recursion, which is the node [k] of the chain. *)
Variable stale : Token.
Variable uninitialised : nat → bool.

(** [tokens.front()] *)
Definition tokens_front (tokens : list Token) : Token * bool :=
  match tokens with
  | [] => (stale, true)
  | t :: _ => (t, false)
  end.

(** The [while (peek->get_id() == IDENT)] loop of the identifier case.
    It hands back the arguments, the vector and the flag. *)
Fixpoint collect_args (tokens : list Token) (peek : Token)
    (args : list (option string)) (oob : bool)
    : list (option string) * list Token * bool :=
  match get_id peek with
  | IDENT =>
      match tokens with
      | [] => (args, [], oob)
      | _ :: tokens' =>
          let (peek', o) := tokens_front tokens' in
          collect_args tokens' peek' (args ++ [get_str peek]) (oob || o)
      end
  | _ => (args, tokens, oob)
  end.

(** The tail of the loop body, after the [switch]: the two tests of
    [tokens.empty()], then the next token becomes [cur_token].  [loop] is
    the next round of the loop. *)
Definition next_round (loop : Command → Token → list Token → bool → option Parse)
    (cmd : Command) (tokens : list Token) (oob : bool) : option Parse :=
  match tokens with
  | [] =>
      match command cmd with
      | None => Some (mkParse Nullptr oob)
      | Some _ => Some (mkParse (Chain cmd) oob)
      end
  | cur_token :: tokens => loop cmd cur_token tokens oob
  end.

(** The body shared by the three redirections: the next token must be an
    identifier and names the file; [store] is the assignment of its
    [c_str()] to [redir_in] or [redir_out]. *)
Definition redirect_case (loop : Command → Token → list Token → bool → option Parse)
    (store : option string → Command → Command)
    (cmd : Command) (tokens : list Token) (oob : bool) : option Parse :=
  match tokens with
  | [] => Some (mkParse Nullptr oob)
  | peek :: tokens' =>
      match get_id peek with
      | IDENT =>
          match get_str peek with
          | None => Some (mkParse NullDeref oob)
          | Some file => next_round loop (store (Some (c_str file)) cmd) tokens' oob
          end
      | _ => Some (mkParse Nullptr oob)
      end
  end.

(** What the [PIPE] case makes of the result of the recursive call. *)
Definition pipe_case (cmd : Command) (oob : bool) (sub : option Parse) : option Parse :=
  match sub with
  | None => None
  | Some p =>
      match ret p with
      | Chain next =>
          Some (mkParse (Chain (set_pipe_to (Some next) cmd)) (oob || front_of_empty p))
      | Nullptr => Some (mkParse Nullptr (oob || front_of_empty p))
      | NullDeref => Some (mkParse NullDeref (oob || front_of_empty p))
      end
  end.

(** [buildCommands] and the [for (;;)] loop of its body.  [fuel] bounds the
    number of calls and loop rounds; [None] means the bound was reached.
    [depth] counts the calls the call is nested in: the call the program
    makes is at depth 0, the one of its [PIPE] case at depth 1, and so on. *)
Fixpoint buildCommands_fuel (fuel : nat) (depth : nat) (tokens : list Token)
    {struct fuel} : option Parse :=
  match fuel with
  | O => None
  | S fuel' =>
      match tokens with
      | [] => Some (mkParse Nullptr false)
      | cur_token :: tokens =>
          match get_id cur_token with
          | IDENT =>
              parse_loop fuel' depth (new_Command (uninitialised depth))
                cur_token tokens false
          | _ => Some (mkParse Nullptr false)
          end
      end
  end
with parse_loop (fuel : nat) (depth : nat) (cmd : Command) (cur_token : Token)
    (tokens : list Token) (oob : bool) {struct fuel} : option Parse :=
  match fuel with
  | O => None
  | S fuel' =>
      match get_id cur_token with
      | BG => next_round (parse_loop fuel' depth) (set_bg true cmd) tokens oob
      | REDIR_IN => redirect_case (parse_loop fuel' depth) set_redir_in cmd tokens oob
      | APPEND_OUT =>
          redirect_case (parse_loop fuel' depth) set_redir_out (set_append true cmd)
            tokens oob
      | REDIR_OUT => redirect_case (parse_loop fuel' depth) set_redir_out cmd tokens oob
      | PIPE => pipe_case cmd oob (buildCommands_fuel fuel' (S depth) tokens)
      | END => Some (mkParse (Chain cmd) oob)
      | IDENT =>
          let (peek, o) := tokens_front tokens in
          match get_str cur_token with
          | None => Some (mkParse NullDeref (oob || o))
          | Some name =>
              let cmd := set_command (Some (c_str name)) cmd in
              let '(args, tokens, oob) :=
                collect_args tokens peek [get_str cur_token] (oob || o) in
              next_round (parse_loop fuel' depth) (set_args (Some args) cmd) tokens oob
          end
      end
  end.

(** Two units of fuel per token and one for the call itself are enough. *)
Definition buildCommands (tokens : list Token) : option Parse :=
  buildCommands_fuel (2 * length tokens + 1) 0 tokens.

End Parser.

(** ** The operating system, as far as the executor uses it *)

(** File descriptors by what they name. *)
Inductive Fd : Type :=
  | STDIN_FILENO
  | STDOUT_FILENO
  | FileFd (path : string)
  | PipeRead (n : nat)
  | PipeWrite (n : nat).

(** The [open(2)] flags and mode bits the program uses.  Their numeric values
    come from the system headers; a set of flags joined with [|] is the list
    of its members. *)
Inductive OpenFlag : Type := O_RDONLY | O_WRONLY | O_CREAT | O_TRUNC | O_APPEND.
Inductive ModeBit : Type := S_IRUSR | S_IWUSR.

#[global] Instance OpenFlag_eq_dec : EqDecision OpenFlag.
Proof. solve_decision. Defined.
#[global] Instance ModeBit_eq_dec : EqDecision ModeBit.
Proof. solve_decision. Defined.

(** A regular file of the user the shell runs as: its permission bits and
    its bytes. *)
Record File : Type := mkFile {
  file_mode : list ModeBit;
  file_bytes : list Byte.byte
}.

(** The state a drain process acts on: the files by path, and what has been
    written to the standard output and the standard error; and what decides
    an [open] besides the file itself.  [os_privileged]: the process runs
    as root, whom the permission bits do not refuse.  [os_umask]: the bits
    the file mode creation mask clears.  [os_unreachable]: the paths at
    which nothing can be opened or created, whatever the flags (a directory
    of the path is missing or cannot be searched, the directory takes no new
    entry, the path names a directory, the file system is read-only, and so
    on). *)
Record Os : Type := mkOs {
  os_files : gmap string File;
  os_stdout : list Byte.byte;
  os_stderr : list string;
  os_privileged : bool;
  os_umask : list ModeBit;
  os_unreachable : string → bool
}.

Definition set_files (files : gmap string File) (os : Os) : Os :=
  mkOs files (os_stdout os) (os_stderr os) (os_privileged os) (os_umask os)
    (os_unreachable os).
Definition set_stdout (out : list Byte.byte) (os : Os) : Os :=
  mkOs (os_files os) out (os_stderr os) (os_privileged os) (os_umask os)
    (os_unreachable os).
Definition set_stderr (err : list string) (os : Os) : Os :=
  mkOs (os_files os) (os_stdout os) err (os_privileged os) (os_umask os)
    (os_unreachable os).

(** The mode a file is created with: the mode of the call without the bits
    of the umask. *)
Definition created_mode (os : Os) (mode : list ModeBit) : list ModeBit :=
  List.filter (λ bit, negb (bool_decide (bit ∈ os_umask os))) mode.

(** An open file description for writing: the path, the offset, and whether
    every write goes to the end of the file. *)
Record OpenFile : Type := mkOpenFile {
  of_path : string;
  of_offset : nat;
  of_append : bool
}.

(** [open(path, flags, mode)] for writing.  The call fails at a path that
    is unreachable.  Otherwise a missing file is created, with [mode] less
    the umask, when [O_CREAT] is given, and the call fails without
    [O_CREAT]; an existing file needs the owner's write bit unless the
    process is privileged; [O_TRUNC] empties the file; the offset starts
    at 0. *)
Definition sys_open (os : Os) (path : string) (flags : list OpenFlag)
    (mode : list ModeBit) : option (OpenFile * Os) :=
  let opened := mkOpenFile path 0 (bool_decide (O_APPEND ∈ flags)) in
  if os_unreachable os path then None
  else
    match os_files os !! path with
    | None =>
        if bool_decide (O_CREAT ∈ flags)
        then Some (opened,
                   set_files (<[path := mkFile (created_mode os mode) []]> (os_files os))
                     os)
        else None
    | Some f =>
        if os_privileged os || bool_decide (S_IWUSR ∈ file_mode f)
        then
          if bool_decide (O_TRUNC ∈ flags)
          then Some (opened,
                     set_files (<[path := mkFile (file_mode f) []]> (os_files os)) os)
          else Some (opened, os)
        else None
    end.

(** [write(fd, &buf, 1)]: at the end of the file in append mode, at the
    offset otherwise; the offset ends up after the byte written. *)
Definition sys_write1 (fd : OpenFile) (buf : Byte.byte) (os : Os) : OpenFile * Os :=
  match os_files os !! of_path fd with
  | None => (fd, os)
  | Some f =>
      let pos := if of_append fd then length (file_bytes f) else of_offset fd in
      let bytes := take pos (file_bytes f) ++ buf :: drop (S pos) (file_bytes f) in
      (mkOpenFile (of_path fd) (S pos) (of_append fd),
       set_files (<[of_path fd := mkFile (file_mode f) bytes]> (os_files os)) os)
  end.

(** ** The pipeline executor *)

(** What a forked child goes on to do. *)
Inductive Child : Type :=
  (* dup2(input, 0); dup2(pipefd[1], 1); close(pipefd[0]); execvp(command, c_args) *)
  | StageChild (input : Fd) (pipe_no : nat) (command : string) (c_args : list string)
  (* the copy loop from the last stage's pipe to the file or the standard output *)
  | DrainChild (output : Fd) (last_command : Command).

(** The system calls of the shell process itself. *)
Inductive Action : Type :=
  | Open (path : string) (flags : list OpenFlag)
  | Perror (what : string)
  | Pipe (n : nat)
  | Fork (child : Child)
  | Close (fd : Fd)
  | Waitpid
  | Printf (text : string).

(** How a piece of the shell process ends: it returns, it calls [exit], or it
    goes through a null pointer. *)
Inductive Ending (A : Type) : Type :=
  | Returns (a : A)
  | Exits (status : nat)
  | Crashes.
Arguments Returns {A} a.
Arguments Exits {A} status.
Arguments Crashes {A}.

(** The actions so far and the ending. *)
Definition Proc (A : Type) : Type := list Action * Ending A.

#[global] Instance Proc_ret : MRet Proc := λ A a, ([], Returns a).
#[global] Instance Proc_bind : MBind Proc := λ A B k m,
  match m with
  | (tr, Returns a) => let (tr', e) := k a in (tr ++ tr', e)
  | (tr, Exits st) => (tr, Exits st)
  | (tr, Crashes) => (tr, Crashes)
  end.

Definition act (a : Action) : Proc unit := ([a], Returns tt).
Definition exit {A : Type} (status : nat) : Proc A := ([], Exits status).
Definition crash {A : Type} : Proc A := ([], Crashes).

(** A dereference: a null pointer ends the process. *)
Definition deref {A : Type} (p : option A) : Proc A :=
  match p with
  | Some a => mret a
  | None => crash
  end.

Definition EXIT_FAILURE : nat := 1.

(** The argument vector of [execvp]: [c_args[0]] is a copy of the program
    name, [c_args[i]] a copy of [args[i]->c_str()] for
    [1 <= i < args.size()], and [c_args[args.size()]] the terminating
    null. *)
Definition build_c_args (cmd : Command) : Proc (list string) :=
  args ← deref (args cmd);
  rest ← deref (mapM (λ a : option string, a) (tail args));
  name ← deref (command cmd);
  mret (take (length args) (name :: map c_str rest)).

Section Executor.

(** What the shell process cannot decide itself: whether a call of
    [pipe()] succeeds, by the number of the call, and whether [open()] of
    an input file succeeds. *)
Variable pipe_ok : nat → bool.
Variable open_ok : string → bool.

(** [executeCommand(Command *, int)], the stage launcher, in the shell
    process (where [fork()] does not return 0).  [n] numbers the pipes. *)
Fixpoint executeCommand_fd (n : nat) (cmd : Command) (input : Fd) : Proc Fd :=
  act (Pipe n);;
  (if pipe_ok n then mret tt else act (Perror "pipe");; exit EXIT_FAILURE);;
  c_args ← build_c_args cmd;
  name ← deref (command cmd);
  act (Fork (StageChild input n name c_args));;
  act (Close (PipeWrite n));;
  match pipe_to cmd with
  | None => mret (PipeRead n)
  | Some next => executeCommand_fd (S n) next (PipeRead n)
  end.

(** The one-argument [executeCommand], the pipeline driver, in the shell
    process. *)
Definition executeCommand (cmd : Command) : Proc unit :=
  launched ←
    match redir_in cmd with
    | Some path =>
        act (Open path [O_RDONLY]);;
        if open_ok path
        then output ← executeCommand_fd 0 cmd (FileFd path); mret (Some output)
        else act (Perror "open");; mret None
    | None =>
        output ← executeCommand_fd 0 cmd STDIN_FILENO; mret (Some output)
    end;
  match launched with
  | None => mret tt
  | Some output =>
      let last_command := lastCommand cmd in
      act (Fork (DrainChild output last_command));;
      if negb (bg cmd)
      then act Waitpid
      else act (Printf "No need to wait")
  end.

End Executor.

(** The flags and the mode of the [open] call in the drain process. *)
Definition drain_open_flags (last_command : Command) : list OpenFlag :=
  let append := if append last_command then O_APPEND else O_TRUNC in
  [O_WRONLY; O_CREAT; append].

Definition drain_open_mode : list ModeBit := [S_IRUSR; S_IWUSR].

(** [while (read(output, &buf, 1) > 0) write(outputfile, &buf, 1);] over the
    bytes the pipe delivers before its end. *)
Fixpoint copy_to_file (incoming : list Byte.byte) (fd : OpenFile) (os : Os) : Os :=
  match incoming with
  | [] => os
  | buf :: incoming' =>
      let (fd', os') := sys_write1 fd buf os in
      copy_to_file incoming' fd' os'
  end.

(** The drain process: the child of the [fork()] in the pipeline driver,
    up to its [exit(0)]. *)
Definition drain (last_command : Command) (incoming : list Byte.byte) (os : Os) : Os :=
  match redir_out last_command with
  | Some path =>
      match sys_open os path (drain_open_flags last_command) drain_open_mode with
      | None => set_stderr (os_stderr os ++ ["open"]) os
      | Some (outputfile, os') => copy_to_file incoming outputfile os'
      end
  | None => set_stdout (os_stdout os ++ incoming) os
  end.

(** ** Vocabulary of the properties *)

(** The token vector of a command line; [tokenList] never reaches its bound
    (see [tokenList_total]), so the second branch is not taken. *)
Definition tokens_of (commandLine : string) : list Token :=
  match tokenList commandLine with
  | Some r => token_list r
  | None => []
  end.

(** The literal form of a token: how it is written on a command line. *)
Definition literal (t : Token) : string :=
  match token_id t with
  | IDENT => match str t with Some s => s | None => "" end
  | PIPE => "|"
  | REDIR_IN => "<"
  | REDIR_OUT => ">"
  | APPEND_OUT => ">>"
  | BG => "&"
  | END => ""
  end.

(** Joining words with single spaces. *)
Fixpoint join_spaces (words : list string) : string :=
  match words with
  | [] => ""
  | [w] => w
  | w :: words' => w ++ " " ++ join_spaces words'
  end.

(** A run of [n] spaces. *)
Fixpoint spaces (n : nat) : string :=
  match n with
  | O => ""
  | S n' => String " " (spaces n')
  end.

(** No character of [s] is one of the five delimiters of the lexer. *)
Fixpoint delimiter_free (s : string) : bool :=
  match s with
  | EmptyString => true
  | String c s' => negb (string_mem c delimiters) && delimiter_free s'
  end.

(** The shape of the tokens the lexer puts in the vector: an operator
    without text, or an identifier whose text is not empty and has no
    delimiter in it; never [END]. *)
Definition lexer_token (t : Token) : bool :=
  match token_id t, str t with
  | IDENT, Some (String c s) => delimiter_free (String c s)
  | IDENT, _ => false
  | END, _ => false
  | _, None => true
  | _, Some _ => false
  end.

(** The number of loop tests still to come in [tokenList] for a given
    [cur_token]. *)
Definition rounds_left (cur_token : Lexed) : nat :=
  if bool_decide (get_id (lexed_token cur_token) = END) then 0
  else S (String.length (lexed_input cur_token)).

(** The accumulator and the flag of the loop of [tokenList] only collect. *)
Definition prepend (acc : list Token) (flag : bool) (r : Tokenized) : Tokenized :=
  mkTokenized (acc ++ token_list r) (rest_of_line r) (flag || past_end r).

(** What follows the literal form of a token in a line joined with single
    spaces: nothing, or a space. *)
Definition follows (rest : string) : Prop :=
  rest = ""%string ∨ ∃ more, rest = String " " more.


(** A token as [tokenList] hands it to the parser: never [END], and an
    identifier carries its text. *)
Definition parser_token (t : Token) : bool :=
  match token_id t, str t with
  | END, _ => false
  | IDENT, None => false
  | _, _ => true
  end.

Definition is_ident (t : Token) : bool := bool_decide (get_id t = IDENT).
Definition is_pipe (t : Token) : bool := bool_decide (get_id t = PIPE).
Definition is_redirect (t : Token) : bool :=
  match get_id t with
  | REDIR_IN | REDIR_OUT | APPEND_OUT => true
  | _ => false
  end.

(** The vector ends in a pipe. *)
Definition trailing_pipe (tokens : list Token) : Prop :=
  ∃ before p, tokens = before ++ [p] ∧ get_id p = PIPE.

(** Somewhere in the vector a redirection is followed by a token that is not
    an identifier, or by nothing. *)
Definition redirect_without_file (tokens : list Token) : Prop :=
  ∃ before r after,
    tokens = before ++ r :: after ∧ is_redirect r = true
    ∧ match after with
      | [] => True
      | u :: _ => get_id u ≠ IDENT
      end.

(** Both of them, as a test on the vector. *)
Fixpoint dangling (tokens : list Token) : bool :=
  match tokens with
  | [] => false
  | t :: tokens' =>
      match tokens' with
      | [] => is_pipe t || is_redirect t
      | u :: _ => (is_redirect t && negb (is_ident u)) || dangling tokens'
      end
  end.

(** The placement invariant of a chain: an input redirection only on the
    first stage, an output redirection and the background flag only on the
    last. *)
Definition placement (c : Command) : Prop :=
  ∀ i s, stages c !! i = Some s →
    (i ≠ 0 → redir_in s = None)
    ∧ (S i ≠ length (stages c) → redir_out s = None ∧ bg s = false).

(** The same, stage by stage; [first] tells whether [c] is the first stage. *)
Fixpoint placed_from (first : bool) (c : Command) : Prop :=
  (first = false → redir_in c = None)
  ∧ match pipe_to c with
    | None => True
    | Some next => redir_out c = None ∧ bg c = false ∧ placed_from false next
    end.

Definition has_pipe (tokens : list Token) : bool := existsb is_pipe tokens.

(** The placement on the command line: no [<] after a [|], and no [>], [>>]
    or [&] before a [|].  [first] tells whether no [|] has been passed. *)
Fixpoint well_placed (first : bool) (tokens : list Token) : bool :=
  match tokens with
  | [] => true
  | t :: tokens' =>
      match get_id t with
      | PIPE => well_placed false tokens'
      | REDIR_IN => first && well_placed first tokens'
      | REDIR_OUT | APPEND_OUT | BG => negb (has_pipe tokens') && well_placed first tokens'
      | _ => well_placed first tokens'
      end
  end.

(** What the loop of the parser keeps true of the node it fills, given the
    tokens still to come. *)
Definition node_placed (first : bool) (tokens : list Token) (cmd : Command) : Prop :=
  pipe_to cmd = None
  ∧ (first = false → redir_in cmd = None)
  ∧ (has_pipe tokens = true → redir_out cmd = None ∧ bg cmd = false).

(** ** The grammar of well-formed command lines

    [ident+ (redir ident)* (&)? (| ident+ (redir ident)* )* (&)?] as syntax
    trees: a stage is a program name, further words and redirections with
    their files; a line is a first stage, an optional [&], the piped stages
    and an optional [&]. *)

Inductive Redir : Type := RedirIn | RedirOut | RedirAppend.

Definition redir_token (op : Redir) : Token :=
  match op with
  | RedirIn => make REDIR_IN
  | RedirOut => make REDIR_OUT
  | RedirAppend => make APPEND_OUT
  end.

Record Stage : Type := mkStage {
  stage_program : string;
  stage_words : list string;
  stage_redirs : list (Redir * string)
}.

Record Line : Type := mkLine {
  first_stage : Stage;
  first_background : bool;
  piped_stages : list Stage;
  final_background : bool
}.

Definition redirs_tokens (rs : list (Redir * string)) : list Token :=
  flat_map (λ r, [redir_token r.1; makeIdent r.2]) rs.

Definition stage_tokens (s : Stage) : list Token :=
  makeIdent (stage_program s)
  :: map makeIdent (stage_words s) ++ redirs_tokens (stage_redirs s).

Definition background_tokens (b : bool) : list Token :=
  if b then [make BG] else [].

Definition piped_tokens (more : list Stage) (final : bool) : list Token :=
  flat_map (λ s, make PIPE :: stage_tokens s) more ++ background_tokens final.

Definition line_tokens (l : Line) : list Token :=
  stage_tokens (first_stage l) ++ background_tokens (first_background l)
  ++ piped_tokens (piped_stages l) (final_background l).

Definition count_pipes (tokens : list Token) : nat := length (filter (λ t, is_pipe t = true) tokens).

(** A node the loop can return: it owns no next stage yet and has its
    program name. *)
Definition ready (cmd : Command) : Prop :=
  pipe_to cmd = None ∧ command cmd ≠ None.

(** What can follow the words of a stage: nothing, or a token that is not an
    identifier. *)
Definition stops_words (rest : list Token) : Prop :=
  match rest with
  | [] => True
  | t :: _ => get_id t ≠ IDENT
  end.


(** The file at [path] as the drain process finds it; a missing file is
    the empty file its [open] call creates. *)
Definition file_before (os : Os) (path : string) : File :=
  match os_files os !! path with
  | Some f => f
  | None => mkFile (created_mode os drain_open_mode) []
  end.

(** A target the process can write to: the path is reachable, and the
    process may write the file there, also when it is the file the [open]
    call of a drain process has just created. *)
Definition writable (os : Os) (path : string) : bool :=
  negb (os_unreachable os path)
  && (os_privileged os || bool_decide (S_IWUSR ∈ file_mode (file_before os path))).

(** The actions of the stage launcher: pipes, forks of stage children,
    closes, and the report of a failed [pipe()]. *)
Definition launcher_action (a : Action) : Prop :=
  match a with
  | Pipe _ | Close _ | Fork (StageChild _ _ _ _) | Perror _ => True
  | _ => False
  end.

(** * The rest of the program *)

(** ** More of the lexer's vocabulary *)

(** A command line without its spaces. *)
Fixpoint remove_spaces (s : string) : string :=
  match s with
  | EmptyString => EmptyString
  | String c s' =>
      if Ascii.eqb c " " then remove_spaces s' else String c (remove_spaces s')
  end.

(** The literal forms of the tokens, written one after the other. *)
Fixpoint concat_literals (tokens : list Token) : string :=
  match tokens with
  | [] => EmptyString
  | t :: tokens' => (literal t ++ concat_literals tokens')%string
  end.

(** ** What a line of the grammar denotes *)

(** The assignments of one redirection, as the three cases of the parser
    make them: the file is stored as a C string. *)
Definition apply_redir (cmd : Command) (r : Redir * string) : Command :=
  match r.1 with
  | RedirIn => set_redir_in (Some (c_str r.2)) cmd
  | RedirOut => set_redir_out (Some (c_str r.2)) cmd
  | RedirAppend => set_redir_out (Some (c_str r.2)) (set_append true cmd)
  end.

(** The node of a stage: the program as a C string, the argument vector in
    the order of the line, and the redirections applied from left to right;
    [unset] is the value [append] starts with in this node. *)
Definition stage_node (unset : bool) (s : Stage) : Command :=
  foldl apply_redir
    (mkCommand (Some (c_str (stage_program s)))
       (Some (map Some (stage_program s :: stage_words s)))
       false unset None None None)
    (stage_redirs s).

Definition flag_background (b : bool) (cmd : Command) : Command :=
  if b then set_bg true cmd else cmd.

(** The chain from a node on: the piped stages hang off it, the first of
    them as node [depth] of the whole chain, and the final [&] flags the last
    node.  Node [k] starts with [uninitialised k] in [append]. *)
Fixpoint piped_chain (uninitialised : nat → bool) (depth : nat) (node : Command)
    (more : list Stage) (final : bool) : Command :=
  match more with
  | [] => flag_background final node
  | s :: more' =>
      set_pipe_to
        (Some (piped_chain uninitialised (S depth)
                 (stage_node (uninitialised depth) s) more' final))
        node
  end.

Definition line_chain (uninitialised : nat → bool) (l : Line) : Command :=
  piped_chain uninitialised 1
    (flag_background (first_background l)
       (stage_node (uninitialised 0) (first_stage l)))
    (piped_stages l) (final_background l).

Definition is_nil {A : Type} (l : list A) : bool :=
  match l with
  | [] => true
  | _ :: _ => false
  end.

Fixpoint last_stage (s : Stage) (more : list Stage) : Stage :=
  match more with
  | [] => s
  | s' :: more' => last_stage s' more'
  end.

(** The line ends in a word of its last stage: that stage has no
    redirection and no [&] follows it. *)
Definition line_ends_in_word (l : Line) : bool :=
  is_nil (stage_redirs (last_stage (first_stage l) (piped_stages l)))
  && negb (final_background l)
  && negb (first_background l && is_nil (piped_stages l)).

(** Whether the parse of the piped stages reads the emptied vector. *)
Fixpoint piped_reads (more : list Stage) (final : bool) : bool :=
  match more with
  | [] => false
  | s :: more' =>
      (is_nil (stage_redirs s) && is_nil (piped_tokens more' final))
      || piped_reads more' final
  end.

(** A node the executor can launch: its argument vector holds no null
    pointer, and its program name is the C string of the first entry. *)
Definition launchable (cmd : Command) : Prop :=
  ∃ name words,
    command cmd = Some (c_str name) ∧ args cmd = Some (map Some (name :: words)).

(** The parse of a token vector; [buildCommands] never reaches its bound
    (see [buildCommands_total]), so the default is not taken. *)
Definition parse_of (stale : Token) (uninitialised : nat → bool) (tokens : list Token)
    : Parse :=
  match buildCommands stale uninitialised tokens with
  | Some p => p
  | None => mkParse Nullptr false
  end.

(** ** The launcher, stage by stage *)

Definition stage_name (cmd : Command) : string :=
  match command cmd with
  | Some name => name
  | None => EmptyString
  end.

(** The entries of the argument vector as C strings. *)
Definition stage_argv (cmd : Command) : list string :=
  match args cmd with
  | Some a => map c_str (omap (λ x : option string, x) a)
  | None => []
  end.

(** What the launcher does for a list of stages when every [pipe()]
    succeeds: a pipe, a child reading from the previous pipe, and the close
    of the write end, stage after stage. *)
Fixpoint launch_trace (n : nat) (input : Fd) (stages : list Command) : list Action :=
  match stages with
  | [] => []
  | cmd :: stages' =>
      [Pipe n; Fork (StageChild input n (stage_name cmd) (stage_argv cmd));
       Close (PipeWrite n)]
      ++ launch_trace (S n) (PipeRead n) stages'
  end.

(** An action that is not the close of anything but the write end of a
    pipe. *)
Definition closes_only_write_ends (a : Action) : Prop :=
  match a with
  | Close (PipeWrite _) => True
  | Close _ => False
  | _ => True
  end.

(** ** The builtins and the command loop *)

(** What the shell process does, beyond the system calls of the executor:
    it changes directory, writes a message to [std::cerr], calls
    [displayPrompt] ([Prompt]: the call, taken to return; [displayPrompt]
    below says what the call does and when it does not return), writes to
    [std::cout].  The last three record the accesses that have no defined
    effect: the lexer's [front()] of the emptied line, the parser's
    [front()] of the emptied vector, and the write of [getDirName] before
    its buffer. *)
Inductive Event : Type :=
  | Sys (a : Action)
  | Chdir (path : string)
  | Cerr (text : string)
  | Prompt
  | Cout (text : string)
  | PeekPastEnd
  | FrontOfEmpty
  | WriteBeforeBuffer.

Definition Run (A : Type) : Type := list Event * Ending A.

#[global] Instance Run_ret : MRet Run := λ A a, ([], Returns a).
#[global] Instance Run_bind : MBind Run := λ A B k m,
  match m with
  | (tr, Returns a) => let (tr', e) := k a in (tr ++ tr', e)
  | (tr, Exits st) => (tr, Exits st)
  | (tr, Crashes) => (tr, Crashes)
  end.

Definition event (e : Event) : Run unit := ([e], Returns tt).
Definition run_exit {A : Type} (status : nat) : Run A := ([], Exits status).
Definition run_crash {A : Type} : Run A := ([], Crashes).
Definition run_deref {A : Type} (p : option A) : Run A :=
  match p with
  | Some a => mret a
  | None => run_crash
  end.

(** A piece of the executor inside the command loop. *)
Definition lift {A : Type} (m : Proc A) : Run A := (map Sys m.1, m.2).

(** [executeBuiltin]: not for a pipeline; [exit] before anything else; [cd]
    when the argument vector has exactly two entries.  [command cmd] is a
    C string, so the two equalities are the two [strcmp(...) == 0], and
    [chdir] gets [args[1]->c_str()].  [chdir_ok] tells whether [chdir()]
    succeeds. *)
Definition executeBuiltin (chdir_ok : string → bool) (cmd : Command) : Run bool :=
  match pipe_to cmd with
  | Some _ => mret false
  | None =>
      name ← run_deref (command cmd);
      if bool_decide (name = "exit") then run_exit 0
      else
        args ← run_deref (args cmd);
        match args with
        | [_; dir] =>
            if bool_decide (name = "cd") then
              dir ← run_deref dir;
              event (Chdir (c_str dir));;
              (if chdir_ok (c_str dir) then mret tt else event (Sys (Perror "cd")));;
              mret true
            else mret false
        | _ => mret false
        end
  end.

(** The flag of the lexer calls for a command line. *)
Definition past_end_of (commandLine : string) : bool :=
  match tokenList commandLine with
  | Some r => past_end r
  | None => false
  end.

Section Shell.

(** What one round of the loop cannot decide itself. *)
Variable stale : Token.
Variable uninitialised : nat → bool.
Variable pipe_ok : nat → bool.
Variable open_ok : string → bool.
Variable chdir_ok : string → bool.

(** The processes of a pipeline share the standard input with the shell:
    what they leave of it for the shell to read. *)
Variable stdin_left : Command → list string → list string.

(** [requestCommandLine]: the call of [displayPrompt] if asked for, then
    [getline]; the standard input is the list of its lines, and at its end
    [getline] leaves the string empty. *)
Definition requestCommandLine (showPrompt : bool) (stdin : list string)
    : Run (string * list string) :=
  (if showPrompt then event Prompt else mret tt);;
  match stdin with
  | [] => mret (EmptyString, [])
  | line :: stdin' => mret (line, stdin')
  end.

(** The body of the [do ... while] loop of [shell], in the shell process;
    it hands back the rest of the standard input. *)
Definition shell_body (showPrompt : bool) (stdin : list string) : Run (list string) :=
  request ← requestCommandLine showPrompt stdin;
  let commandLine := request.1 in
  let stdin := request.2 in
  if bool_decide (commandLine = EmptyString) then mret stdin
  else
    let tokens := tokens_of commandLine in
    (if past_end_of commandLine then event PeekPastEnd else mret tt);;
    let parse := parse_of stale uninitialised tokens in
    (if front_of_empty parse then event FrontOfEmpty else mret tt);;
    match ret parse with
    | NullDeref => run_crash
    | Nullptr => event (Cerr "Error in command syntax");; mret stdin
    | Chain command =>
        builtin ← executeBuiltin chdir_ok command;
        if builtin : bool then mret stdin
        else lift (executeCommand pipe_ok open_ok command);;
             mret (stdin_left command stdin)
    end.

End Shell.

(** [shell]: [fuel] bounds the number of rounds of the loop, and the second
    component is [None] when the bound is reached.  Every round has its own
    answers: the first argument of [uninitialised], [pipe_ok], [open_ok],
    [chdir_ok] and [stdin_left] is the number of the round. *)
Fixpoint shell (stale : Token) (uninitialised : nat → nat → bool)
    (pipe_ok : nat → nat → bool) (open_ok chdir_ok : nat → string → bool)
    (stdin_left : nat → Command → list string → list string)
    (fuel : nat) (showPrompt : bool) (stdin : list string) {struct fuel}
    : list Event * option (Ending nat) :=
  match fuel with
  | O => ([], None)
  | S fuel' =>
      match shell_body stale (uninitialised 0) (pipe_ok 0) (open_ok 0) (chdir_ok 0)
              (stdin_left 0) showPrompt stdin with
      | (tr, Returns stdin') =>
          if showPrompt
          then let (tr', e) :=
                 shell stale (λ round, uninitialised (S round))
                   (λ round, pipe_ok (S round)) (λ round, open_ok (S round))
                   (λ round, chdir_ok (S round)) (λ round, stdin_left (S round))
                   fuel' showPrompt stdin' in
               (tr ++ tr', e)
          else (tr, Some (Returns 0))
      | (tr, Exits status) => (tr, Some (Exits status))
      | (tr, Crashes) => (tr, Some Crashes)
      end
  end.

(** ** Command lines of the grammar, as text *)

(** A line written out: the literal forms of its tokens, single spaces
    between them. *)
Definition line_text (l : Line) : string := join_spaces (map literal (line_tokens l)).

(** The words of the line are words of the lexer: not empty and without a
    delimiter. *)
Definition lexical_line (l : Line) : bool := forallb lexer_token (line_tokens l).

(** What a round of the loop shows before it acts on a line of the
    grammar: the prompt, and the read of the emptied vector when the line
    ends in a word. *)
Definition heading (showPrompt : bool) (l : Line) : list Event :=
  (if showPrompt then [Prompt] else [])
  ++ (if line_ends_in_word l then [FrontOfEmpty] else []).

(** The outcome of a piece of the loop that hands back the rest of the
    standard input. *)
Definition handing_back {A : Type} (stdin : list string) (e : Ending A)
    : Ending (list string) :=
  match e with
  | Returns _ => Returns stdin
  | Exits status => Exits status
  | Crashes => Crashes
  end.

(** The last character of a string is [>]. *)
Fixpoint ends_with_gt (s : string) : bool :=
  match s with
  | EmptyString => false
  | String c EmptyString => Ascii.eqb c ">"
  | String _ s' => ends_with_gt s'
  end.

(** A token that can end a line of the grammar. *)
Definition closes (t : Token) : bool :=
  match get_id t with
  | IDENT | BG => true
  | _ => false
  end.

(** The last token of the list, when there is one, can end a line. *)
Definition tail_closed (ts : list Token) : Prop :=
  match last ts with
  | Some t => closes t = true
  | None => True
  end.

(** ** The prompt's directory name *)

Fixpoint is_prefix (p s : string) : bool :=
  match p, s with
  | EmptyString, _ => true
  | String a p', String b s' => Ascii.eqb a b && is_prefix p' s'
  | String _ _, EmptyString => false
  end.

(** [strstr(haystack, needle)]: the offset of the first occurrence, [None]
    for the null pointer. *)
Fixpoint strstr (haystack needle : string) : option nat :=
  if is_prefix needle haystack then Some 0
  else match haystack with
       | EmptyString => None
       | String _ haystack' =>
           match strstr haystack' needle with
           | Some i => Some (S i)
           | None => None
           end
       end.

(** What [getDirName] hands back: the string at the pointer it returns, and
    the caller's buffer as the call leaves it. *)
Record DirName : Type := mkDirName {
  dir_name : string;
  dir_buffer : string
}.

(** [getDirName], with [home] the value of [HOME].  The write of ['~'] goes
    to [found + strlen(home) - 1]; [None] stands for the one case in which
    that is the byte before the buffer. *)
Definition getDirName (home dir : string) : option DirName :=
  match strstr dir home with
  | None => Some (mkDirName dir dir)
  | Some found =>
      match found + String.length home with
      | O => None
      | S at_ =>
          let buffer := (substr0 dir at_ ++ String "~" (erase0 dir (S at_)))%string in
          Some (mkDirName (erase0 buffer at_) buffer)
      end
  end.

(** [displayPrompt], with what the process cannot decide itself: the
    result of [getcwd] (null when it fails), the value of [HOME] (null when
    it is not set), and whether [getuid()] is 0.  [getDirName] hands
    [getenv("HOME")] to [strstr] and [strlen] as it is, so a null value ends
    the process there; with an empty value it writes before the buffer and
    the text shown is what starts at that byte. *)
Definition displayPrompt (cwd home : option string) (root : bool) : Run unit :=
  match cwd with
  | Some dir =>
      home ← run_deref home;
      text ← match getDirName home dir with
             | Some name => mret (dir_name name)
             | None => event WriteBeforeBuffer;; mret (String "~" dir)
             end;
      event (Cout (String (ascii_of_nat 27) "[32m" ++ text
                   ++ String (ascii_of_nat 27) "[39m")%string)
  | None => mret tt
  end;;
  event (Cout (if root then "# " else "$ ")).

(** ** [arrlen] *)

(** The array is the list of its entries; [None] is the result when no entry
    is null, where the loop runs past the array. *)
Fixpoint arrlen {A : Type} (array : list (option A)) : option nat :=
  match array with
  | [] => None
  | None :: _ => Some 0
  | Some _ :: array' =>
      match arrlen array' with
      | Some count => Some (S count)
      | None => None
      end
  end.
(** * Properties *)

(** ** Token equality *)

Lemma Token_eq_lexical (a b : Token) :
  lexical a = true → lexical b = true → Token_eq a b = true ↔ a = b.
Proof.
  destruct a as [ia [sa|]], b as [ib [sb|]]; unfold lexical, Token_eq; simpl;
    intros Ha Hb; rewrite ?andb_true_iff, ?bool_decide_eq_true.
  - split; [intros [-> ->]; reflexivity | inversion 1; auto].
  - destruct ia; try discriminate. destruct ib; try discriminate; split; discriminate.
  - destruct ib; try discriminate.
    destruct ia; try discriminate; (split; [intros [_ ?]|]; discriminate).
  - split; [intros [-> _]; reflexivity | inversion 1; auto].
Qed.

Lemma Token_eq_sym_lexical (a b : Token) :
  lexical a = true → lexical b = true → Token_eq a b = Token_eq b a.
Proof.
  intros Ha Hb. apply eq_true_iff_eq.
  rewrite !Token_eq_lexical by assumption. split; congruence.
Qed.

(** C10.  [operator==] is not structural on the tokens the factories can
    build: an identifier with its text compares equal to the identifier
    [Token::make(IDENT)] that has none, although the payloads differ, and
    only in that order of the operands; for this pair [a == b] and [a != b]
    both hold. *)
Theorem Token_eq_text_against_null :
  let a := makeIdent "x" in
  let b := make IDENT in
  Token_eq a b = true ∧ token_id a = token_id b ∧ str a ≠ str b
  ∧ Token_eq b a = false ∧ Token_neq a b = true.
Proof. repeat split; try reflexivity. discriminate. Qed.

(** ** The lexer makes progress *)

Lemma erase0_length (s : string) (n : nat) :
  String.length (erase0 s n) ≤ String.length s.
Proof.
  revert s. induction n as [|n IH]; intros [|c s]; simpl; try lia.
  specialize (IH s). lia.
Qed.

Lemma buildToken_progress (input : string) :
  String.length (lexed_input (buildToken input)) < String.length input
  ∨ (input = "" ∧ buildToken input = mkLexed (make END) "" false).
Proof.
  induction input as [|c s IH]; [right; auto|left].
  simpl. destruct (Ascii.eqb c " ").
  { destruct IH as [IH|[-> ->]]; simpl; lia. }
  destruct (Ascii.eqb c ">").
  { destruct s as [|d s]; simpl; [lia|]. destruct (Ascii.eqb d ">"); simpl; lia. }
  repeat (match goal with |- context [if ?b then _ else _] => destruct b end;
          simpl; try lia).
  destruct (find_first_of delimiters s); simpl; [|lia].
  pose proof (erase0_length s n). lia.
Qed.

(** A token other than [END] was cut from the front of a non-empty input. *)
Lemma buildToken_not_END_shrinks (input : string) :
  get_id (lexed_token (buildToken input)) ≠ END →
  String.length (lexed_input (buildToken input)) < String.length input.
Proof.
  intros H. destruct (buildToken_progress input) as [?|[_ E]]; [assumption|].
  rewrite E in H. contradiction.
Qed.

Lemma rounds_left_buildToken (input : string) :
  rounds_left (buildToken input) ≤ String.length input.
Proof.
  unfold rounds_left. case_bool_decide as H; [lia|].
  pose proof (buildToken_not_END_shrinks input H). lia.
Qed.

Lemma tokenList_loop_total (fuel : nat) :
  ∀ cur acc flag, rounds_left cur < fuel →
    ∃ r, tokenList_loop fuel cur acc flag = Some r.
Proof.
  induction fuel as [|fuel IH]; intros cur acc flag H; [lia|].
  simpl. unfold rounds_left in H. case_bool_decide; [eauto|].
  apply IH. pose proof (rounds_left_buildToken (lexed_input cur)). lia.
Qed.

Lemma tokenList_total (commandLine : string) :
  ∃ r, tokenList commandLine = Some r.
Proof.
  apply tokenList_loop_total.
  pose proof (rounds_left_buildToken commandLine). lia.
Qed.

Lemma tokenList_loop_more_fuel (fuel : nat) :
  ∀ cur acc flag r, tokenList_loop fuel cur acc flag = Some r →
    ∀ fuel', fuel ≤ fuel' → tokenList_loop fuel' cur acc flag = Some r.
Proof.
  induction fuel as [|fuel IH]; intros cur acc flag r H fuel' Hle; [discriminate|].
  destruct fuel' as [|fuel']; [lia|]. simpl in *.
  case_bool_decide; [assumption|]. apply (IH _ _ _ _ H). lia.
Qed.

Lemma tokenList_loop_acc (fuel : nat) :
  ∀ cur acc flag,
    tokenList_loop fuel cur acc flag
    = prepend acc flag <$> tokenList_loop fuel cur [] false.
Proof.
  induction fuel as [|fuel IH]; intros cur acc flag; [reflexivity|].
  simpl. case_bool_decide.
  - simpl. unfold prepend. simpl. by rewrite app_nil_r.
  - rewrite IH. rewrite (IH _ [lexed_token cur]).
    destruct (tokenList_loop fuel _ [] false) as [r|]; [|reflexivity].
    simpl. unfold prepend. simpl. by rewrite <- app_assoc, orb_assoc.
Qed.

(** C9.  [tokenList] terminates on every command line: the loop has given
    its result after at most one test per character and a last one, and a
    larger bound gives the same result; a call of the lexer leaves strictly
    less input than it found, or it found none and returns [END]; and on
    [END] the loop stops with the vector as it is, so no [END] is in it. *)
Theorem tokenList_terminates (commandLine : string) :
  (∃ r, tokenList commandLine = Some r
        ∧ (∀ extra,
             tokenList_fuel (S (String.length commandLine) + extra) commandLine
             = Some r)
        ∧ Forall (λ t, get_id t ≠ END) (token_list r))
  ∧ (String.length (lexed_input (buildToken commandLine))
      < String.length commandLine
     ∨ (commandLine = ""
        ∧ buildToken commandLine = mkLexed (make END) "" false))
  ∧ (∀ fuel text input peeked acc flag,
       tokenList_loop (S fuel) (mkLexed (mkToken END text) input peeked) acc flag
       = Some (mkTokenized acc input (flag || peeked))).
Proof.
  split; [|split].
  - destruct (tokenList_total commandLine) as [r Hr]. exists r.
    split; [exact Hr|]. unfold tokenList, tokenList_fuel in Hr. split.
    + intros extra. apply (tokenList_loop_more_fuel _ _ _ _ _ Hr). lia.
    + assert (G : ∀ fuel cur acc flag r,
                 tokenList_loop fuel cur acc flag = Some r →
                 Forall (λ t, get_id t ≠ END) acc →
                 Forall (λ t, get_id t ≠ END) (token_list r)).
      { clear. induction fuel as [|fuel IH]; intros cur acc flag r H Hacc;
          [discriminate|].
        simpl in H. case_bool_decide as E.
        - injection H as <-. exact Hacc.
        - apply (IH _ _ _ _ H). apply Forall_app. split; [exact Hacc|].
          constructor; [exact E|constructor]. }
      apply (G _ _ _ _ _ Hr). constructor.
  - destruct (buildToken_progress commandLine) as [H|[-> H]]; [left; exact H|].
    right. split; [reflexivity|exact H].
  - intros fuel text input peeked acc flag. reflexivity.
Qed.

(** ** The peek after [>] *)

Lemma buildToken_spaces (n : nat) (input : string) :
  buildToken (spaces n ++ input) = buildToken input.
Proof. induction n as [|n IH]; [reflexivity|exact IH]. Qed.

(** [>>] is one token, and both characters are gone. *)
Lemma buildToken_append_out (n : nat) (input : string) :
  buildToken (spaces n ++ String ">" (String ">" input))
  = mkLexed (make APPEND_OUT) input false.
Proof. rewrite buildToken_spaces. reflexivity. Qed.

(** [>] before any other character is [REDIR_OUT], and that character stays. *)
Lemma buildToken_redir_out (n : nat) (c : ascii) (input : string) :
  c ≠ ">"%char →
  buildToken (spaces n ++ String ">" (String c input))
  = mkLexed (make REDIR_OUT) (String c input) false.
Proof.
  intros H. rewrite buildToken_spaces. simpl.
  destruct (Ascii.eqb_spec c ">"); [contradiction|reflexivity].
Qed.

(** The lexer reads past the end of its input on one shape of input only:
    spaces, then a [>] that is the last character. *)
Lemma buildToken_past_end_iff (input : string) :
  lexed_past_end (buildToken input) = true ↔ ∃ n, input = (spaces n ++ ">")%string.
Proof.
  induction input as [|c s IH].
  - split; [discriminate|]. intros [[|n] H]; discriminate.
  - simpl. destruct (Ascii.eqb_spec c " ") as [->|Hsp].
    { rewrite IH. split.
      - intros [n ->]. by exists (S n).
      - intros [[|n] H]; [discriminate|].
        change (String " " s = String " " (spaces n ++ ">")%string) in H.
        injection H as ->. by exists n. }
    assert (Hn : ∀ n, String c s = (spaces n ++ ">")%string → c = ">"%char ∧ s = "").
    { intros [|n] H.
      - change (String c s = String ">" "") in H. by injection H as -> ->.
      - change (String c s = String " " (spaces n ++ ">")%string) in H.
        injection H as -> _. by destruct Hsp. }
    destruct (Ascii.eqb_spec c ">") as [->|Hgt].
    { destruct s as [|d s]; simpl.
      - split; [by exists 0|reflexivity].
      - destruct (Ascii.eqb d ">"); simpl;
          (split; [discriminate|intros [n H]; by destruct (Hn n H)]). }
    repeat (match goal with |- context [if ?b then _ else _] => destruct b end;
            simpl; try (split; [discriminate|intros [n H]; by destruct (Hn n H)])).
    destruct (find_first_of delimiters s); simpl;
      (split; [discriminate|intros [k H]; by destruct (Hn k H)]).
Qed.

(** C6.  When [>] is the last character of the input, [buildToken] reads
    [input.front()] of the string it has just emptied: there is no test for
    the end of the input before the peek.  The token it then returns is
    [REDIR_OUT]. *)
Theorem buildToken_lone_redirect_peeks_past_end (n : nat) :
  buildToken (spaces n ++ ">") = mkLexed (make REDIR_OUT) "" true
  ∧ lexed_past_end (buildToken (spaces n ++ ">")) = true.
Proof. rewrite buildToken_spaces. split; reflexivity. Qed.

(** ** The token vector of a command line *)

Lemma tokens_of_END (input : string) :
  get_id (lexed_token (buildToken input)) = END → tokens_of input = [].
Proof.
  intros H. unfold tokens_of, tokenList, tokenList_fuel. simpl.
  rewrite bool_decide_eq_true_2 by exact H. reflexivity.
Qed.

Lemma tokens_of_step (input : string) :
  get_id (lexed_token (buildToken input)) ≠ END →
  tokens_of input
  = lexed_token (buildToken input) :: tokens_of (lexed_input (buildToken input)).
Proof.
  intros H. pose proof (buildToken_not_END_shrinks input H) as Hlt.
  unfold tokens_of at 1. unfold tokenList, tokenList_fuel. simpl.
  rewrite bool_decide_eq_false_2 by exact H.
  rewrite tokenList_loop_acc.
  destruct (tokenList_total (lexed_input (buildToken input))) as [r Hr].
  unfold tokens_of. rewrite Hr.
  unfold tokenList, tokenList_fuel in Hr.
  rewrite (tokenList_loop_more_fuel _ _ _ _ _ Hr) by lia.
  reflexivity.
Qed.

Lemma tokens_of_space (input : string) :
  tokens_of (String " " input) = tokens_of input.
Proof.
  destruct (decide (get_id (lexed_token (buildToken input)) = END)) as [E|E].
  - rewrite !tokens_of_END; auto.
  - rewrite (tokens_of_step (String " " input)) by exact E.
    rewrite (tokens_of_step input) by exact E. reflexivity.
Qed.

Lemma tokens_of_empty : tokens_of "" = [].
Proof. reflexivity. Qed.

(** ** Re-joining the literal forms *)

Lemma string_app_cons (c : ascii) (s t : string) :
  (String c s ++ t)%string = String c (s ++ t)%string.
Proof. reflexivity. Qed.

Lemma string_app_nil_l (t : string) : ("" ++ t)%string = t.
Proof. reflexivity. Qed.

Lemma string_app_nil_r (s : string) : (s ++ "")%string = s.
Proof.
  induction s as [|c s IH]; [reflexivity|]. by rewrite string_app_cons, IH.
Qed.

Lemma delimiter_free_no_delimiter (s : string) :
  find_first_of delimiters s = None → delimiter_free s = true.
Proof.
  induction s as [|d s IH]; intros H; [reflexivity|].
  cbn [find_first_of delimiter_free] in *.
  destruct (string_mem d delimiters); [discriminate|].
  destruct (find_first_of delimiters s); [discriminate|]. simpl. auto.
Qed.

Lemma delimiter_free_substr0 (s : string) :
  ∀ found, find_first_of delimiters s = Some found →
    delimiter_free (substr0 s found) = true.
Proof.
  induction s as [|d s IH]; intros found H; [discriminate|].
  cbn [find_first_of] in H. destruct (string_mem d delimiters) eqn:Hd.
  - injection H as <-. reflexivity.
  - destruct (find_first_of delimiters s) as [i|]; [|discriminate].
    injection H as <-. cbn [substr0 delimiter_free]. rewrite Hd. simpl. auto.
Qed.

(** Every token [buildToken] returns, short of [END], has the shape
    [lexer_token]. *)
Lemma buildToken_lexer_token (input : string) :
  get_id (lexed_token (buildToken input)) ≠ END →
  lexer_token (lexed_token (buildToken input)) = true.
Proof.
  induction input as [|c s IH]; intros H; [contradiction|].
  simpl in *. destruct (Ascii.eqb c " ") eqn:E1; [auto|].
  destruct (Ascii.eqb c ">") eqn:E2.
  { destruct (front s) as [next p]. destruct (Ascii.eqb next ">"); reflexivity. }
  destruct (Ascii.eqb c "<") eqn:E3; [reflexivity|].
  destruct (Ascii.eqb c "|") eqn:E4; [reflexivity|].
  destruct (Ascii.eqb c "&") eqn:E5; [reflexivity|].
  assert (Hc : string_mem c delimiters = false).
  { simpl. by rewrite E1, E2, E3, E4, E5. }
  destruct (find_first_of delimiters s) as [found|] eqn:F;
    unfold lexer_token; cbn [lexed_token makeIdent token_id str];
    rewrite string_app_cons, string_app_nil_l; cbn [delimiter_free];
    rewrite Hc; simpl.
  - by apply delimiter_free_substr0.
  - by apply delimiter_free_no_delimiter.
Qed.

Lemma tokens_of_lexer_token (input : string) :
  Forall (λ t, lexer_token t = true) (tokens_of input).
Proof.
  remember (String.length input) as n eqn:Hn. revert input Hn.
  induction n as [n IH] using lt_wf_ind. intros input ->.
  destruct (decide (get_id (lexed_token (buildToken input)) = END)) as [E|E].
  - rewrite tokens_of_END by exact E. constructor.
  - rewrite tokens_of_step by exact E. constructor.
    + by apply buildToken_lexer_token.
    + eapply IH; [|reflexivity]. by apply buildToken_not_END_shrinks.
Qed.

Lemma find_first_of_word (w rest : string) :
  delimiter_free w = true →
  find_first_of delimiters (w ++ String " " rest) = Some (String.length w).
Proof.
  induction w as [|c w IH]; intros H; [reflexivity|].
  rewrite string_app_cons. cbn [find_first_of delimiter_free] in *.
  apply andb_true_iff in H as [Hc Hw]. apply negb_true_iff in Hc.
  rewrite Hc. by rewrite (IH Hw).
Qed.

Lemma find_first_of_word_end (w : string) :
  delimiter_free w = true → find_first_of delimiters w = None.
Proof.
  induction w as [|c w IH]; intros H; [reflexivity|].
  cbn [find_first_of delimiter_free] in *.
  apply andb_true_iff in H as [Hc Hw]. apply negb_true_iff in Hc.
  rewrite Hc. by rewrite (IH Hw).
Qed.

Lemma substr0_app (w rest : string) : substr0 (w ++ rest) (String.length w) = w.
Proof.
  induction w as [|c w IH]; [by destruct rest|].
  rewrite string_app_cons. simpl. by rewrite IH.
Qed.

Lemma erase0_app (w rest : string) : erase0 (w ++ rest) (String.length w) = rest.
Proof.
  induction w as [|c w IH]; [by destruct rest|].
  rewrite string_app_cons. exact IH.
Qed.

(** The lexer reads the literal form of a token back as that token and
    leaves what follows it. *)
Lemma buildToken_literal (t : Token) (rest : string) :
  lexer_token t = true → follows rest →
  lexed_token (buildToken (literal t ++ rest)) = t
  ∧ lexed_input (buildToken (literal t ++ rest)) = rest.
Proof.
  destruct t as [id [s|]]; unfold lexer_token, literal; simpl; intros Ht Hrest.
  - destruct id; try discriminate. destruct s as [|c w]; [discriminate|].
    simpl in Ht. apply andb_true_iff in Ht as [Hc Hw]. apply negb_true_iff in Hc.
    simpl in Hc. repeat (apply orb_false_iff in Hc as [? Hc]).
    simpl. repeat match goal with H : Ascii.eqb c _ = false |- _ => rewrite H; clear H end.
    destruct Hrest as [->|[more ->]].
    + rewrite string_app_nil_r, (find_first_of_word_end _ Hw). simpl. auto.
    + rewrite (find_first_of_word _ _ Hw). simpl.
      by rewrite substr0_app, erase0_app.
  - destruct id; try discriminate; simpl; auto.
    destruct Hrest as [->|[more ->]]; simpl; auto.
Qed.

Lemma tokens_of_literal (t : Token) (rest : string) :
  lexer_token t = true → follows rest →
  tokens_of (literal t ++ rest) = t :: tokens_of rest.
Proof.
  intros Ht Hrest. destruct (buildToken_literal t rest Ht Hrest) as [E1 E2].
  rewrite tokens_of_step.
  - by rewrite E1, E2.
  - rewrite E1. destruct t as [[] [?|]]; try discriminate.
Qed.

Lemma tokens_of_join (ts : list Token) :
  Forall (λ t, lexer_token t = true) ts →
  tokens_of (join_spaces (map literal ts)) = ts.
Proof.
  induction 1 as [|t ts Ht Hts IH]; [reflexivity|].
  destruct ts as [|u ts].
  - simpl. rewrite <- (string_app_nil_r (literal t)).
    rewrite tokens_of_literal; [reflexivity|exact Ht|by left].
  - change (join_spaces (map literal (t :: u :: ts)))
      with (literal t ++ String " " (join_spaces (map literal (u :: ts))))%string.
    rewrite tokens_of_literal; [|exact Ht|right; eauto].
    by rewrite tokens_of_space, IH.
Qed.

(** C8.  Round trip of the tokenizer: for every command line, writing the
    tokens of [tokenList] in their literal forms, joined with single spaces,
    gives a line whose token vector is the same. *)
Theorem tokenList_round_trip (commandLine : string) :
  ∃ r r',
    tokenList commandLine = Some r
    ∧ tokenList (join_spaces (map literal (token_list r))) = Some r'
    ∧ token_list r' = token_list r.
Proof.
  pose proof (tokens_of_lexer_token commandLine) as Hlex.
  pose proof (tokens_of_join _ Hlex) as Hjoin.
  unfold tokens_of in Hjoin.
  destruct (tokenList_total commandLine) as [r Hr]. rewrite Hr in Hjoin.
  destruct (tokenList_total (join_spaces (map literal (token_list r)))) as [r' Hr'].
  rewrite Hr' in Hjoin. eauto.
Qed.

(** ** The parser *)

Section ParserProperties.

(** Everything in this section holds for whatever token the read of the
    emptied vector yields and whatever value [append] starts with in each
    node.  A parse makes at most one such read: the round that makes it
    returns, and so does every call waiting on it. *)
Variable stale : Token.
Variable uninitialised : nat → bool.

Abbreviation calls := (buildCommands_fuel stale uninitialised).
Abbreviation rounds := (parse_loop stale uninitialised).

(** *** Its equations and its bound *)

Lemma buildCommands_fuel_S (fuel depth : nat) (tokens : list Token) :
  calls (S fuel) depth tokens
  = match tokens with
    | [] => Some (mkParse Nullptr false)
    | cur_token :: tokens =>
        match get_id cur_token with
        | IDENT =>
            rounds fuel depth (new_Command (uninitialised depth)) cur_token tokens false
        | _ => Some (mkParse Nullptr false)
        end
    end.
Proof. reflexivity. Qed.

Lemma parse_loop_S (fuel depth : nat) (cmd : Command) (cur_token : Token)
    (tokens : list Token) (oob : bool) :
  rounds (S fuel) depth cmd cur_token tokens oob
  = match get_id cur_token with
    | BG => next_round (rounds fuel depth) (set_bg true cmd) tokens oob
    | REDIR_IN => redirect_case (rounds fuel depth) set_redir_in cmd tokens oob
    | APPEND_OUT =>
        redirect_case (rounds fuel depth) set_redir_out (set_append true cmd) tokens oob
    | REDIR_OUT => redirect_case (rounds fuel depth) set_redir_out cmd tokens oob
    | PIPE => pipe_case cmd oob (calls fuel (S depth) tokens)
    | END => Some (mkParse (Chain cmd) oob)
    | IDENT =>
        let (peek, o) := tokens_front stale tokens in
        match get_str cur_token with
        | None => Some (mkParse NullDeref (oob || o))
        | Some name =>
            let cmd := set_command (Some (c_str name)) cmd in
            let '(args, tokens, oob) :=
              collect_args stale tokens peek [get_str cur_token] (oob || o) in
            next_round (rounds fuel depth) (set_args (Some args) cmd) tokens oob
        end
    end.
Proof. reflexivity. Qed.

(** The identifier loop only takes tokens off the front of the vector, and
    only identifiers. *)
Lemma collect_args_suffix (tokens : list Token) :
  ∀ args oob args' tokens' oob',
    collect_args stale tokens (tokens_front stale tokens).1 args oob
    = (args', tokens', oob') →
    ∃ taken, tokens = taken ++ tokens'
             ∧ Forall (λ t, get_id t = IDENT) taken
             ∧ match tokens' with
               | t :: _ => get_id t ≠ IDENT
               | [] => True
               end.
Proof.
  induction tokens as [|t tokens IH]; intros args oob args' tokens' oob' H.
  - exists []. simpl in H.
    destruct (get_id stale); injection H as <- <- <-; auto.
  - cbn [tokens_front fst collect_args] in H.
    destruct (get_id t) eqn:E.
    1: { destruct (tokens_front stale tokens) as [peek o] eqn:F.
         simpl in IH. destruct (IH _ _ _ _ _ H) as (taken & -> & Htaken & Hhd).
         exists (t :: taken). auto. }
    all: injection H as <- <- <-; exists []; rewrite E; auto.
Qed.

Lemma collect_args_length (tokens : list Token) (args : list (option string))
    (oob : bool) args' tokens' oob' :
  collect_args stale tokens (tokens_front stale tokens).1 args oob
  = (args', tokens', oob') →
  length tokens' ≤ length tokens.
Proof.
  intros H. destruct (collect_args_suffix _ _ _ _ _ _ H) as (taken & -> & _).
  rewrite length_app. lia.
Qed.

(** More fuel does not change a result. *)
Lemma next_round_more_fuel
    (loop loop' : Command → Token → list Token → bool → option Parse) :
  (∀ cmd cur tokens oob r,
     loop cmd cur tokens oob = Some r → loop' cmd cur tokens oob = Some r) →
  ∀ cmd tokens oob r,
    next_round loop cmd tokens oob = Some r →
    next_round loop' cmd tokens oob = Some r.
Proof. intros H cmd [|t tokens] oob r; simpl; auto. Qed.

Lemma redirect_case_more_fuel
    (loop loop' : Command → Token → list Token → bool → option Parse) store :
  (∀ cmd cur tokens oob r,
     loop cmd cur tokens oob = Some r → loop' cmd cur tokens oob = Some r) →
  ∀ cmd tokens oob r,
    redirect_case loop store cmd tokens oob = Some r →
    redirect_case loop' store cmd tokens oob = Some r.
Proof.
  intros H cmd [|t tokens] oob r; simpl; auto.
  destruct (get_id t); auto. destruct (get_str t); auto.
  by apply next_round_more_fuel.
Qed.

Lemma parse_more_fuel (fuel : nat) :
  (∀ depth tokens r, calls fuel depth tokens = Some r →
     ∀ fuel', fuel ≤ fuel' → calls fuel' depth tokens = Some r)
  ∧ (∀ depth cmd cur tokens oob r, rounds fuel depth cmd cur tokens oob = Some r →
     ∀ fuel', fuel ≤ fuel' → rounds fuel' depth cmd cur tokens oob = Some r).
Proof.
  induction fuel as [|fuel [IHc IHr]]; [split; discriminate|].
  split.
  - intros depth tokens r H [|fuel'] Hle; [lia|].
    rewrite buildCommands_fuel_S in *. destruct tokens as [|t tokens]; auto.
    destruct (get_id t); auto. apply (IHr _ _ _ _ _ _ H). lia.
  - intros depth cmd cur tokens oob r H [|fuel'] Hle; [lia|].
    assert (Hloop : ∀ cmd cur tokens oob r,
               rounds fuel depth cmd cur tokens oob = Some r →
               rounds fuel' depth cmd cur tokens oob = Some r).
    { intros. eapply IHr; [eassumption|lia]. }
    rewrite parse_loop_S in *. destruct (get_id cur).
    + destruct (tokens_front stale tokens) as [peek o].
      destruct (get_str cur); auto.
      destruct (collect_args _ _ _ _ _) as [[args tokens'] oob'].
      revert H. by apply next_round_more_fuel.
    + destruct (calls fuel (S depth) tokens) as [p|] eqn:E; [|discriminate].
      rewrite (IHc _ _ _ E fuel') by lia. exact H.
    + revert H. by apply redirect_case_more_fuel.
    + revert H. by apply redirect_case_more_fuel.
    + revert H. by apply redirect_case_more_fuel.
    + revert H. by apply next_round_more_fuel.
    + exact H.
Qed.

(** Two units of fuel per token are enough. *)
Lemma parse_total (fuel : nat) :
  (∀ depth tokens, 2 * length tokens + 1 ≤ fuel →
     ∃ r, calls fuel depth tokens = Some r)
  ∧ (∀ depth cmd cur tokens oob, 2 * length tokens + 2 ≤ fuel →
       ∃ r, rounds fuel depth cmd cur tokens oob = Some r).
Proof.
  induction fuel as [|fuel [IHc IHr]]; [split; intros; lia|].
  assert (Hnext : ∀ depth cmd tokens oob, 2 * length tokens + 1 ≤ S fuel →
            ∃ r, next_round (rounds fuel depth) cmd tokens oob = Some r).
  { intros depth cmd [|t tokens] oob Hle; simpl in *.
    - destruct (command cmd); eauto.
    - apply IHr. lia. }
  assert (Hredir : ∀ depth store cmd tokens oob, 2 * length tokens + 2 ≤ S fuel →
            ∃ r, redirect_case (rounds fuel depth) store cmd tokens oob = Some r).
  { intros depth store cmd [|t tokens] oob Hle; simpl in *; eauto.
    destruct (get_id t); eauto. destruct (get_str t); eauto.
    apply Hnext. lia. }
  split.
  - intros depth tokens Hle. rewrite buildCommands_fuel_S.
    destruct tokens as [|t tokens]; eauto.
    destruct (get_id t); eauto. apply IHr. simpl in Hle. lia.
  - intros depth cmd cur tokens oob Hle. rewrite parse_loop_S.
    destruct (get_id cur); eauto.
    + destruct (tokens_front stale tokens) as [peek o] eqn:F.
      destruct (get_str cur); eauto.
      destruct (collect_args _ _ _ _ _) as [[args tokens'] oob'] eqn:C.
      replace peek with (tokens_front stale tokens).1 in C by (by rewrite F).
      apply collect_args_length in C. apply Hnext. lia.
    + destruct (IHc (S depth) tokens) as [r ->]; [lia|].
      unfold pipe_case. destruct (ret r); eauto.
    + apply Hnext. lia.
Qed.

Lemma buildCommands_total (tokens : list Token) :
  ∃ r, buildCommands stale uninitialised tokens = Some r.
Proof. apply parse_total. lia. Qed.

(** A result reached with any amount of fuel is the result of
    [buildCommands]. *)
Lemma buildCommands_of_fuel (fuel : nat) (tokens : list Token) (r : Parse) :
  calls fuel 0 tokens = Some r → buildCommands stale uninitialised tokens = Some r.
Proof.
  intros H. destruct (buildCommands_total tokens) as [r' H'].
  unfold buildCommands in *.
  pose proof (proj1 (parse_more_fuel _) _ _ _ H
                (fuel + (2 * length tokens + 1)) ltac:(lia)) as H1.
  pose proof (proj1 (parse_more_fuel _) _ _ _ H'
                (fuel + (2 * length tokens + 1)) ltac:(lia)) as H2.
  congruence.
Qed.


(** *** What the parser rejects *)

Lemma dangling_ident (t : Token) (tokens : list Token) :
  get_id t = IDENT → dangling (t :: tokens) = dangling tokens.
Proof.
  intros H. destruct tokens as [|u tokens]; simpl;
    unfold is_pipe, is_redirect; rewrite H; reflexivity.
Qed.

Lemma dangling_idents (taken tokens : list Token) :
  Forall (λ t, get_id t = IDENT) taken →
  dangling (taken ++ tokens) = dangling tokens.
Proof.
  induction 1 as [|t taken Ht _ IH]; [reflexivity|].
  rewrite <- IH. by apply dangling_ident.
Qed.

Lemma dangling_cons (t : Token) (tokens : list Token) :
  dangling tokens = true → dangling (t :: tokens) = true.
Proof.
  destruct tokens as [|u tokens]; [discriminate|]. intros H.
  cbn [dangling] in *. rewrite H. apply orb_true_r.
Qed.

Lemma trailing_pipe_dangling (tokens : list Token) :
  trailing_pipe tokens → dangling tokens = true.
Proof.
  intros (before & p & -> & Hp). induction before as [|b before IH].
  - simpl. unfold is_pipe. by rewrite bool_decide_eq_true_2.
  - by apply dangling_cons.
Qed.

Lemma redirect_without_file_dangling (tokens : list Token) :
  redirect_without_file tokens → dangling tokens = true.
Proof.
  intros (before & r & after & -> & Hr & Hafter).
  induction before as [|b before IH]; [|by apply dangling_cons].
  destruct after as [|u after]; simpl; rewrite Hr.
  - apply orb_true_r.
  - unfold is_ident. by rewrite bool_decide_eq_false_2.
Qed.

Lemma parser_token_ident (t : Token) :
  parser_token t = true → get_id t = IDENT → ∃ s, get_str t = Some s.
Proof.
  destruct t as [id [s|]]; unfold parser_token, get_id, get_str; simpl;
    intros H ->; [eauto|discriminate].
Qed.

Lemma dangling_rejected (fuel : nat) :
  (∀ depth tokens r,
     forallb parser_token tokens = true → calls fuel depth tokens = Some r →
     dangling tokens = true → ret r = Nullptr)
  ∧ (∀ depth cmd cur tokens oob r,
     forallb parser_token (cur :: tokens) = true →
     rounds fuel depth cmd cur tokens oob = Some r →
     dangling (cur :: tokens) = true → ret r = Nullptr).
Proof.
  induction fuel as [|fuel [IHc IHr]]; [split; discriminate|].
  assert (Hnext : ∀ depth cmd tokens oob r,
            forallb parser_token tokens = true →
            next_round (rounds fuel depth) cmd tokens oob = Some r →
            dangling tokens = true → ret r = Nullptr).
  { intros depth cmd [|t tokens] oob r Hp H Hd; [discriminate|]. simpl in H. eauto. }
  assert (Hredir : ∀ depth store cmd cur tokens oob r,
            is_redirect cur = true →
            forallb parser_token tokens = true →
            redirect_case (rounds fuel depth) store cmd tokens oob = Some r →
            dangling (cur :: tokens) = true → ret r = Nullptr).
  { intros depth store cmd cur [|peek tokens] oob r Hc Hp H Hd; simpl in H.
    { by injection H as <-. }
    cbn [forallb] in Hp. apply andb_true_iff in Hp as [Hpeek Hp].
    destruct (get_id peek) eqn:E; try by injection H as <-.
    destruct (parser_token_ident _ Hpeek E) as [file Hfile]. rewrite Hfile in H.
    apply (Hnext _ _ _ _ _ Hp H).
    cbn [dangling] in Hd. unfold is_ident in Hd.
    rewrite bool_decide_eq_true_2, andb_false_r in Hd by exact E.
    simpl in Hd. by rewrite <- (dangling_ident peek). }
  split.
  - intros depth tokens r Hp H Hd. rewrite buildCommands_fuel_S in H.
    destruct tokens as [|t tokens]; [discriminate|].
    destruct (get_id t); try by injection H as <-. eauto.
  - intros depth cmd cur tokens oob r Hp H Hd. rewrite parse_loop_S in H.
    pose proof Hp as Hp'. cbn [forallb] in Hp'.
    apply andb_true_iff in Hp' as [Hcur Htokens].
    destruct (get_id cur) eqn:E.
    + (* IDENT *)
      destruct (tokens_front stale tokens) as [peek o] eqn:F.
      destruct (parser_token_ident _ Hcur E) as [name Hname]. rewrite Hname in H.
      destruct (collect_args _ _ _ _ _) as [[args tokens'] oob'] eqn:C.
      replace peek with (tokens_front stale tokens).1 in C by (by rewrite F).
      destruct (collect_args_suffix _ _ _ _ _ _ C) as (taken & -> & Htaken & _).
      rewrite forallb_app in Htokens. apply andb_true_iff in Htokens as [_ Hp2].
      apply (Hnext _ _ _ _ _ Hp2 H).
      by rewrite dangling_ident, dangling_idents in Hd.
    + (* PIPE *)
      destruct (calls fuel (S depth) tokens) as [p|] eqn:Ec; [|discriminate].
      assert (ret p = Nullptr) as Hret.
      { destruct tokens as [|u tokens].
        - destruct fuel; [discriminate|]. by injection Ec as <-.
        - apply (IHc _ _ _ Htokens Ec). cbn [dangling] in Hd.
          unfold is_redirect in Hd. by rewrite E in Hd. }
      unfold pipe_case in H. rewrite Hret in H. by injection H as <-.
    + apply (Hredir _ _ _ cur _ _ _ ltac:(unfold is_redirect; by rewrite E) Htokens H Hd).
    + apply (Hredir _ _ _ cur _ _ _ ltac:(unfold is_redirect; by rewrite E) Htokens H Hd).
    + apply (Hredir _ _ _ cur _ _ _ ltac:(unfold is_redirect; by rewrite E) Htokens H Hd).
    + (* BG *)
      apply (Hnext _ _ _ _ _ Htokens H).
      destruct tokens as [|u tokens]; cbn [dangling] in Hd;
        unfold is_pipe, is_redirect in Hd; rewrite E in Hd; [discriminate|].
      exact Hd.
    + (* END *)
      destruct cur as [id s]. unfold parser_token, get_id in *. simpl in *.
      subst id. discriminate.
Qed.

(** C2, as the code has it.  [buildCommands] returns the null pointer for
    the empty vector and for a vector whose first token is not an
    identifier; and, when the vector has no [END] token and its
    identifiers carry their text (as in every vector of [tokenList]), for
    a vector that ends in a pipe and for a vector in which a redirection
    is followed by a token that is not an identifier or by nothing. *)
Theorem buildCommands_rejects :
  buildCommands stale uninitialised [] = Some (mkParse Nullptr false)
  ∧ (∀ t tokens, get_id t ≠ IDENT →
       buildCommands stale uninitialised (t :: tokens) = Some (mkParse Nullptr false))
  ∧ (∀ tokens,
       forallb parser_token tokens = true →
       trailing_pipe tokens ∨ redirect_without_file tokens →
       ∃ oob, buildCommands stale uninitialised tokens = Some (mkParse Nullptr oob)).
Proof.
  split; [reflexivity|split].
  - intros t tokens H. unfold buildCommands.
    replace (2 * length (t :: tokens) + 1) with (S (2 * length (t :: tokens))) by lia.
    rewrite buildCommands_fuel_S. by destruct (get_id t).
  - intros tokens Hp Hshape.
    destruct (buildCommands_total tokens) as [[r oob] Hr].
    exists oob. rewrite Hr. do 2 f_equal.
    apply (proj1 (dangling_rejected _) _ _ _ Hp Hr).
    destruct Hshape;
      [by apply trailing_pipe_dangling|by apply redirect_without_file_dangling].
Qed.


(** The vectors of [tokenList] are made of such tokens. *)
Lemma lexer_token_parser_token (t : Token) :
  lexer_token t = true → parser_token t = true.
Proof.
  destruct t as [[] [[|c s]|]]; unfold lexer_token, parser_token; simpl; congruence.
Qed.

Lemma tokens_of_parser_token (commandLine : string) :
  forallb parser_token (tokens_of commandLine) = true.
Proof.
  apply forallb_forall. intros t Ht. apply lexer_token_parser_token.
  pose proof (tokens_of_lexer_token commandLine) as H.
  rewrite Forall_forall in H. apply H. by apply list_elem_of_In.
Qed.

(** *** Where the parser puts redirections and the background flag *)

Lemma stages_length (c : Command) : length (stages c) = chain_length c.
Proof.
  revert c. fix IH 1. intros [p a b ap ri ro [next|]]; simpl; [|reflexivity].
  f_equal. apply IH.
Qed.

(** The stage-by-stage form gives the invariant as it is stated. *)
Lemma placed_from_stages (c : Command) :
  ∀ first, placed_from first c →
    ∀ i s, stages c !! i = Some s →
      ((first = false ∨ i ≠ 0) → redir_in s = None)
      ∧ (S i ≠ length (stages c) → redir_out s = None ∧ bg s = false).
Proof.
  revert c. fix IH 1. intros c first H i s Hs.
  destruct c as [p a b ap ri ro [next|]]; simpl in *.
  - destruct H as (Hin & Hout & Hbg & Hnext).
    destruct i as [|i]; simpl in Hs.
    + injection Hs as <-. simpl. split; [intros [?|?]; [auto|congruence]|auto].
    + destruct (IH next false Hnext i s Hs) as [H1 H2]. split; [auto|].
      intros Hi. apply H2. lia.
  - destruct H as [Hin _]. destruct i as [|i]; simpl in Hs; [|discriminate].
    injection Hs as <-. simpl. split; [intros [?|?]; [auto|congruence]|].
    intros Hi. lia.
Qed.

Lemma placed_from_placement (c : Command) : placed_from true c → placement c.
Proof.
  intros H i s Hs. destruct (placed_from_stages c true H i s Hs) as [H1 H2].
  split; [intros Hi; apply H1; by right|exact H2].
Qed.

Lemma has_pipe_ident (t : Token) (tokens : list Token) :
  get_id t = IDENT → has_pipe (t :: tokens) = has_pipe tokens.
Proof. intros H. unfold has_pipe. simpl. unfold is_pipe at 1. by rewrite H. Qed.

Lemma has_pipe_idents (taken tokens : list Token) :
  Forall (λ t, get_id t = IDENT) taken →
  has_pipe (taken ++ tokens) = has_pipe tokens.
Proof.
  induction 1 as [|t taken Ht _ IH]; [reflexivity|].
  rewrite <- IH. by apply has_pipe_ident.
Qed.

Lemma well_placed_idents (first : bool) (taken tokens : list Token) :
  Forall (λ t, get_id t = IDENT) taken →
  well_placed first (taken ++ tokens) = well_placed first tokens.
Proof.
  induction 1 as [|t taken Ht _ IH]; [reflexivity|].
  simpl. by rewrite Ht.
Qed.

Lemma parse_placed (fuel : nat) :
  (∀ depth first tokens c oob,
     calls fuel depth tokens = Some (mkParse (Chain c) oob) →
     well_placed first tokens = true → placed_from first c)
  ∧ (∀ depth first cmd cur tokens oob c oob',
     rounds fuel depth cmd cur tokens oob = Some (mkParse (Chain c) oob') →
     well_placed first (cur :: tokens) = true →
     node_placed first (cur :: tokens) cmd → placed_from first c).
Proof.
  induction fuel as [|fuel [IHc IHr]]; [split; discriminate|].
  assert (Hnext : ∀ depth first cmd tokens oob c oob',
            next_round (rounds fuel depth) cmd tokens oob = Some (mkParse (Chain c) oob') →
            well_placed first tokens = true →
            node_placed first tokens cmd → placed_from first c).
  { intros depth first cmd [|t tokens] oob c oob' H Hw Hn; simpl in H; [|eauto].
    destruct (command cmd); [|discriminate]. injection H as <- _.
    destruct Hn as (Hpipe & Hin & _). destruct cmd; simpl in *. subst. auto. }
  assert (Hredir : ∀ depth first store cmd tokens oob c oob',
            redirect_case (rounds fuel depth) store cmd tokens oob
            = Some (mkParse (Chain c) oob') →
            well_placed first tokens = true →
            (∀ file, node_placed first (tail tokens) (store (Some file) cmd)) →
            placed_from first c).
  { intros depth first store cmd [|peek tokens] oob c oob' H Hw Hn; simpl in H;
      [discriminate|].
    destruct (get_id peek) eqn:E; try discriminate.
    destruct (get_str peek); [|discriminate].
    apply (Hnext _ _ _ _ _ _ _ H); [|apply Hn].
    simpl in Hw. by rewrite E in Hw. }
  assert (Htail : ∀ tokens, has_pipe (tail tokens) = true → has_pipe tokens = true).
  { intros [|t tokens]; [auto|]. simpl. intros ->. apply orb_true_r. }
  split.
  - intros depth first tokens c oob H Hw. rewrite buildCommands_fuel_S in H.
    destruct tokens as [|t tokens]; [discriminate|].
    destruct (get_id t) eqn:E; try discriminate.
    apply (IHr depth first _ _ _ _ _ _ H Hw).
    split; [reflexivity|split; [reflexivity|]]. auto.
  - intros depth first cmd cur tokens oob c oob' H Hw Hn. rewrite parse_loop_S in H.
    destruct Hn as (Hpipe & Hin & Hout).
    cbn [well_placed] in Hw. cbn [has_pipe existsb] in Hout.
    unfold is_pipe in Hout at 1.
    destruct (get_id cur) eqn:E.
    + (* IDENT *)
      destruct (tokens_front stale tokens) as [peek o] eqn:F.
      destruct (get_str cur); [|discriminate].
      destruct (collect_args _ _ _ _ _) as [[args tokens'] oob''] eqn:C.
      replace peek with (tokens_front stale tokens).1 in C by (by rewrite F).
      destruct (collect_args_suffix _ _ _ _ _ _ C) as (taken & -> & Htaken & _).
      rewrite well_placed_idents in Hw by exact Htaken.
      apply (Hnext _ _ _ _ _ _ _ H Hw).
      rewrite bool_decide_eq_false_2 in Hout by discriminate. simpl in Hout.
      rewrite has_pipe_idents in Hout by exact Htaken.
      split; [exact Hpipe|split; [exact Hin|exact Hout]].
    + (* PIPE *)
      destruct (calls fuel (S depth) tokens) as [[[next| |] oobn]|] eqn:Ec; try discriminate.
      unfold pipe_case in H. simpl in H. injection H as <- _.
      rewrite bool_decide_eq_true_2 in Hout by reflexivity.
      destruct (Hout eq_refl) as [Hro Hbg].
      pose proof (IHc _ false _ _ _ Ec Hw) as Hnextp.
      destruct cmd; simpl in *. auto.
    + (* REDIR_IN *)
      apply andb_true_iff in Hw as [-> Hw].
      rewrite bool_decide_eq_false_2 in Hout by discriminate. simpl in Hout.
      apply (Hredir _ _ _ _ _ _ _ _ H Hw).
      intros file. destruct cmd; simpl in *.
      split; [exact Hpipe|split; [discriminate|]]. auto.
    + (* REDIR_OUT *)
      apply andb_true_iff in Hw as [Hnp Hw]. apply negb_true_iff in Hnp.
      apply (Hredir _ _ _ _ _ _ _ _ H Hw).
      intros file. destruct cmd; simpl in *.
      split; [exact Hpipe|split; [exact Hin|]].
      intros Hp. apply Htail in Hp. congruence.
    + (* APPEND_OUT *)
      apply andb_true_iff in Hw as [Hnp Hw]. apply negb_true_iff in Hnp.
      apply (Hredir _ _ _ _ _ _ _ _ H Hw).
      intros file. destruct cmd; simpl in *.
      split; [exact Hpipe|split; [exact Hin|]].
      intros Hp. apply Htail in Hp. congruence.
    + (* BG *)
      apply andb_true_iff in Hw as [Hnp Hw]. apply negb_true_iff in Hnp.
      apply (Hnext _ _ _ _ _ _ _ H Hw).
      destruct cmd; simpl in *.
      split; [exact Hpipe|split; [exact Hin|]]. congruence.
    + (* END *)
      injection H as <- _. destruct cmd; simpl in *. subst. auto.
Qed.

(** C4, as the code has it.  The parser stores a redirection or the
    background flag on the stage in whose part of the line it stands and
    checks no placement.  When no [<] stands after a [|] and no [>], [>>]
    or [&] stands before a [|], the chain of a successful parse satisfies
    the placement invariant. *)
Theorem buildCommands_placement (tokens : list Token) (c : Command) (oob : bool) :
  buildCommands stale uninitialised tokens = Some (mkParse (Chain c) oob) →
  well_placed true tokens = true →
  placement c.
Proof.
  intros H Hw. apply placed_from_placement.
  exact (proj1 (parse_placed _) _ true _ _ _ H Hw).
Qed.

(** *** The parser on well-formed command lines *)

Lemma count_pipes_app (l k : list Token) :
  count_pipes (l ++ k) = count_pipes l + count_pipes k.
Proof. unfold count_pipes. by rewrite filter_app, length_app. Qed.

Lemma count_pipes_words (ws : list string) : count_pipes (map makeIdent ws) = 0.
Proof. induction ws as [|w ws IH]; [reflexivity|exact IH]. Qed.

Lemma count_pipes_redirs (rs : list (Redir * string)) :
  count_pipes (redirs_tokens rs) = 0.
Proof.
  induction rs as [|[op f] rs IH]; [reflexivity|].
  destruct op; exact IH.
Qed.

Lemma count_pipes_stage (s : Stage) : count_pipes (stage_tokens s) = 0.
Proof.
  unfold stage_tokens.
  change (makeIdent (stage_program s) :: ?l) with ([makeIdent (stage_program s)] ++ l).
  by rewrite !count_pipes_app, count_pipes_words, count_pipes_redirs.
Qed.

Lemma count_pipes_background (b : bool) : count_pipes (background_tokens b) = 0.
Proof. by destruct b. Qed.

Lemma count_pipes_piped (more : list Stage) (final : bool) :
  count_pipes (piped_tokens more final) = length more.
Proof.
  unfold piped_tokens. rewrite count_pipes_app, count_pipes_background.
  induction more as [|s more IH]; [reflexivity|].
  cbn [flat_map].
  change (make PIPE :: stage_tokens s) with ([make PIPE] ++ stage_tokens s).
  rewrite !count_pipes_app, count_pipes_stage in *. simpl in *. lia.
Qed.

Lemma count_pipes_line (l : Line) :
  count_pipes (line_tokens l) = length (piped_stages l).
Proof.
  unfold line_tokens.
  by rewrite !count_pipes_app, count_pipes_stage, count_pipes_background,
    count_pipes_piped.
Qed.

Lemma stops_words_redirs (rs : list (Redir * string)) (rest : list Token) :
  stops_words rest → stops_words (redirs_tokens rs ++ rest).
Proof. destruct rs as [|[[] f] rs]; simpl; auto; discriminate. Qed.

Lemma stops_words_background (b : bool) (rest : list Token) :
  stops_words rest → stops_words (background_tokens b ++ rest).
Proof. destruct b; simpl; auto; discriminate. Qed.

Lemma stops_words_piped (more : list Stage) (final : bool) :
  stops_words (piped_tokens more final).
Proof. destruct more, final; simpl; auto; discriminate. Qed.

(** The identifier loop takes the words of the stage and stops. *)
Lemma collect_args_words (ws : list string) (rest : list Token) :
  stops_words rest →
  ∀ args oob, ∃ oob',
    collect_args stale (map makeIdent ws ++ rest)
      (tokens_front stale (map makeIdent ws ++ rest)).1 args oob
    = (args ++ map Some ws, rest, oob').
Proof.
  intros Hrest. induction ws as [|w ws IH]; intros args oob.
  - exists oob. rewrite app_nil_r. simpl.
    destruct rest as [|t rest]; simpl.
    + by destruct (get_id stale).
    + simpl in Hrest. by destruct (get_id t).
  - cbn [map app tokens_front fst collect_args makeIdent get_id token_id].
    destruct (tokens_front stale (map makeIdent ws ++ rest)) as [peek o] eqn:F.
    destruct (IH (args ++ [get_str (makeIdent w)]) (oob || o)) as [oob' E].
    simpl in E. exists oob'.
    change (get_str (makeIdent w)) with (Some w). rewrite E.
    by rewrite <- app_assoc.
Qed.

(** The rounds over the redirections of a stage. *)
Lemma rounds_redirs (depth : nat) (rs : list (Redir * string)) (rest : list Token)
    (oob : bool) :
  ∀ cmd, ready cmd →
    ∃ cmd', ready cmd'
      ∧ ∀ fuel r,
          next_round (rounds fuel depth) cmd' rest oob = Some r →
          next_round (rounds (fuel + length rs) depth) cmd (redirs_tokens rs ++ rest) oob
          = Some r.
Proof.
  induction rs as [|[op file] rs IH]; intros cmd Hcmd.
  - exists cmd. split; [exact Hcmd|]. intros fuel r H.
    by rewrite Nat.add_0_r.
  - assert (Hstep : ∀ store : option string → Command → Command,
              ∀ cmd0, ready (store (Some (c_str file)) cmd0) →
                ∃ cmd', ready cmd'
                  ∧ ∀ fuel r,
                      next_round (rounds fuel depth) cmd' rest oob = Some r →
                      redirect_case (rounds (fuel + length rs) depth) store cmd0
                        (makeIdent file :: redirs_tokens rs ++ rest) oob
                      = Some r).
    { intros store cmd0 Hready. destruct (IH _ Hready) as (cmd' & Hcmd' & H).
      exists cmd'. split; [exact Hcmd'|]. intros fuel r Hr.
      simpl. by apply H. }
    destruct Hcmd as [Hpipe Hname].
    destruct op; cbn [redirs_tokens flat_map fst snd redir_token app length].
    + destruct (Hstep set_redir_in cmd) as (cmd' & Hcmd' & H).
      { by destruct cmd. }
      exists cmd'. split; [exact Hcmd'|]. intros fuel r Hr.
      rewrite Nat.add_succ_r. cbn [next_round]. rewrite parse_loop_S. simpl.
      by apply H.
    + destruct (Hstep set_redir_out cmd) as (cmd' & Hcmd' & H).
      { by destruct cmd. }
      exists cmd'. split; [exact Hcmd'|]. intros fuel r Hr.
      rewrite Nat.add_succ_r. cbn [next_round]. rewrite parse_loop_S. simpl.
      by apply H.
    + destruct (Hstep set_redir_out (set_append true cmd)) as (cmd' & Hcmd' & H).
      { by destruct cmd. }
      exists cmd'. split; [exact Hcmd'|]. intros fuel r Hr.
      rewrite Nat.add_succ_r. cbn [next_round]. rewrite parse_loop_S. simpl.
      by apply H.
Qed.

(** The rounds over one stage, from its program name on. *)
Lemma rounds_stage (depth : nat) (s : Stage) (rest : list Token) (cmd : Command)
    (oob : bool) :
  stops_words rest → pipe_to cmd = None →
  ∃ cmd' oob', ready cmd'
    ∧ ∀ fuel r,
        next_round (rounds fuel depth) cmd' rest oob' = Some r →
        rounds (S (fuel + length (stage_redirs s))) depth cmd
          (makeIdent (stage_program s))
          (map makeIdent (stage_words s) ++ redirs_tokens (stage_redirs s) ++ rest)
          oob
        = Some r.
Proof.
  intros Hrest Hpipe.
  pose proof (stops_words_redirs (stage_redirs s) rest Hrest) as Hstop.
  set (tokens := map makeIdent (stage_words s) ++ redirs_tokens (stage_redirs s) ++ rest).
  destruct (tokens_front stale tokens) as [peek o] eqn:F.
  destruct (collect_args_words (stage_words s) _ Hstop
              [get_str (makeIdent (stage_program s))] (oob || o)) as [oob' C].
  fold tokens in C. rewrite F in C. simpl in C.
  set (cmd1 := set_args
                 (Some ([Some (stage_program s)] ++ map Some (stage_words s)))
                 (set_command (Some (c_str (stage_program s))) cmd)).
  destruct (rounds_redirs depth (stage_redirs s) rest oob' cmd1) as (cmd' & Hcmd' & H).
  { destruct cmd; split; simpl in *; [exact Hpipe|discriminate]. }
  exists cmd', oob'. split; [exact Hcmd'|]. intros fuel r Hr.
  rewrite parse_loop_S.
  cbn [makeIdent get_id get_str token_id str]. rewrite F.
  cbn [makeIdent get_id get_str token_id str] in C. rewrite C.
  by apply H.
Qed.

(** From the end of a stage to the end of the line. *)
Lemma rounds_piped (more : list Stage) (final : bool) :
  ∀ depth cmd oob, ready cmd →
    ∃ fuel c oob',
      next_round (rounds fuel depth) cmd (piped_tokens more final) oob
      = Some (mkParse (Chain c) oob')
      ∧ chain_length c = S (length more).
Proof.
  induction more as [|s more IH]; intros depth cmd oob [Hpipe Hname].
  - destruct final; cbn [piped_tokens flat_map app background_tokens].
    + exists 1, (set_bg true cmd), oob. simpl.
      destruct cmd as [[name|] ? ? ? ? ? ?]; simpl in *; [|done].
      subst. auto.
    + exists 0, cmd, oob. simpl.
      destruct cmd as [[name|] ? ? ? ? ? ?]; simpl in *; [|done].
      subst. auto.
  - destruct (rounds_stage (S depth) s (piped_tokens more final)
                (new_Command (uninitialised (S depth)))
                false (stops_words_piped _ _) eq_refl) as (cmd' & oob1 & Hcmd' & H).
    destruct (IH (S depth) cmd' oob1 Hcmd') as (fuel & c & oob' & Hc & Hlen).
    specialize (H _ _ Hc).
    exists (S (S (S (fuel + length (stage_redirs s))))),
      (set_pipe_to (Some c) cmd), (oob || oob').
    split.
    + unfold piped_tokens. cbn [flat_map]. rewrite <- !app_assoc.
      cbn [app next_round]. rewrite parse_loop_S.
      cbn [make get_id token_id]. rewrite buildCommands_fuel_S.
      change (stage_tokens s)
        with (makeIdent (stage_program s)
              :: map makeIdent (stage_words s) ++ redirs_tokens (stage_redirs s)).
      cbn [app]. change (get_id (makeIdent (stage_program s))) with IDENT.
      cbv iota. rewrite <- app_assoc.
      unfold piped_tokens in H. rewrite H. reflexivity.
    + destruct cmd; simpl in *. by rewrite Hlen.
Qed.

Lemma calls_line (depth : nat) (l : Line) :
  ∃ fuel c oob,
    calls fuel depth (line_tokens l) = Some (mkParse (Chain c) oob)
    ∧ chain_length c = S (length (piped_stages l)).
Proof.
  destruct l as [s fb more final]. cbn [piped_stages].
  set (rest := background_tokens fb ++ piped_tokens more final).
  destruct (rounds_stage depth s rest (new_Command (uninitialised depth)) false
              (stops_words_background _ _ (stops_words_piped _ _)) eq_refl)
    as (cmd' & oob1 & Hcmd' & H).
  assert (∃ fuel c oob',
            next_round (rounds fuel depth) cmd' rest oob1 = Some (mkParse (Chain c) oob')
            ∧ chain_length c = S (length more)) as (fuel & c & oob' & Hc & Hlen).
  { subst rest. destruct fb; cbn [background_tokens app].
    - destruct (rounds_piped more final depth (set_bg true cmd') oob1)
        as (fuel & c & oob' & Hc & Hlen).
      { destruct Hcmd'. by destruct cmd'. }
      exists (S fuel), c, oob'. split; [|exact Hlen].
      cbn [next_round]. rewrite parse_loop_S. exact Hc.
    - by apply rounds_piped. }
  specialize (H _ _ Hc).
  exists (S (S (fuel + length (stage_redirs s)))), c, oob'.
  split; [|exact Hlen].
  unfold line_tokens. cbn [first_stage first_background
    piped_stages final_background].
  change (stage_tokens s)
    with (makeIdent (stage_program s)
          :: map makeIdent (stage_words s) ++ redirs_tokens (stage_redirs s)).
  rewrite buildCommands_fuel_S.
  cbn [app]. change (get_id (makeIdent (stage_program s))) with IDENT.
  cbv iota. rewrite <- app_assoc. exact H.
Qed.

(** C1.  On every token vector of the grammar
    [ident+ (redir ident)* (&)? (| ident+ (redir ident)* )* (&)?] the parser
    returns a chain, and the chain has one node per [ident+] group, which
    is one more than the number of pipes. *)
Theorem buildCommands_well_formed (l : Line) :
  ∃ c oob,
    buildCommands stale uninitialised (line_tokens l) = Some (mkParse (Chain c) oob)
    ∧ chain_length c = S (length (piped_stages l))
    ∧ chain_length c = S (count_pipes (line_tokens l)).
Proof.
  destruct (calls_line 0 l) as (fuel & c & oob & H & Hlen).
  exists c, oob. split; [by apply (buildCommands_of_fuel fuel)|].
  split; [exact Hlen|]. by rewrite count_pipes_line.
Qed.

(** A line of identifiers alone: the identifier loop takes them all and
    ends on a read of the empty vector. *)
Lemma collect_args_all_words (ws : list string) :
  ∀ args oob,
    collect_args stale (map makeIdent ws)
      (tokens_front stale (map makeIdent ws)).1 args
      (oob || (tokens_front stale (map makeIdent ws)).2)
    = (args ++ map Some ws, [], true).
Proof.
  induction ws as [|w ws IH]; intros args oob.
  - simpl. rewrite app_nil_r, orb_true_r. by destruct (get_id stale).
  - cbn [map tokens_front fst snd collect_args makeIdent get_id token_id].
    destruct (tokens_front stale (map makeIdent ws)) as [peek o] eqn:F.
    rewrite orb_false_r. specialize (IH (args ++ [Some w]) oob).
    simpl in IH. change (get_str (makeIdent w)) with (Some w).
    rewrite IH. by rewrite <- app_assoc.
Qed.

Lemma buildCommands_words_front_of_empty (w : string) (ws : list string) :
  buildCommands stale uninitialised (makeIdent w :: map makeIdent ws)
  = Some (mkParse
            (Chain (mkCommand (Some (c_str w)) (Some (Some w :: map Some ws)) false
                      (uninitialised 0) None None None))
            true).
Proof.
  apply (buildCommands_of_fuel 2). rewrite buildCommands_fuel_S.
  cbn [makeIdent get_id token_id]. rewrite parse_loop_S.
  cbn [get_id get_str token_id str].
  pose proof (collect_args_all_words ws [Some w] false) as H.
  destruct (tokens_front stale (map makeIdent ws)) as [peek o].
  cbn [fst snd orb] in H. cbn [makeIdent get_str str orb]. rewrite H. reflexivity.
Qed.

(** C7.  On the two tokens of [echo hi] the identifier loop erases [hi],
    the last token, and then reads [tokens.front()] of the empty vector:
    the test [tokens.empty()] comes after the peek.  The chain returned
    does not depend on the token read. *)
Theorem buildCommands_front_of_empty :
  tokens_of "echo hi" = [makeIdent "echo"; makeIdent "hi"]
  ∧ buildCommands stale uninitialised [makeIdent "echo"; makeIdent "hi"]
    = Some (mkParse
              (Chain (mkCommand (Some "echo") (Some [Some "echo"; Some "hi"])
                        false (uninitialised 0) None None None))
              true).
Proof.
  split; [reflexivity|].
  unfold buildCommands. simpl. destruct (get_id stale); reflexivity.
Qed.

End ParserProperties.

(** *** Instances *)

Lemma buildCommands_rejects_witness :
  buildCommands (make END) (λ _, false) [make PIPE] = Some (mkParse Nullptr false)
  ∧ ∃ oob, buildCommands (make END) (λ _, false)
             [makeIdent "test"; makeIdent "hoi"; make PIPE; makeIdent "ja";
              make REDIR_OUT]
           = Some (mkParse Nullptr oob).
Proof.
  destruct (buildCommands_rejects (make END) (λ _, false)) as (_ & Hfirst & Hshape).
  split.
  - apply Hfirst. discriminate.
  - apply Hshape; [reflexivity|]. right.
    exists [makeIdent "test"; makeIdent "hoi"; make PIPE; makeIdent "ja"],
      (make REDIR_OUT), []. split; [reflexivity|split; [reflexivity|exact I]].
Defined.

(** C2, as stated, fails where an [END] token sits in the vector: the loop
    returns the node at [END] and never meets the redirection that has no
    file after it. *)
Lemma buildCommands_accepts_after_END :
  let tokens := [makeIdent "a"; make END; make REDIR_OUT] in
  redirect_without_file tokens
  ∧ buildCommands (make END) (λ _, false) tokens
    = Some (mkParse (Chain (mkCommand (Some "a") (Some [Some "a"]) false false
                              None None None)) false).
Proof.
  split; [|reflexivity].
  exists [makeIdent "a"; make END], (make REDIR_OUT), [].
  split; [reflexivity|split; [reflexivity|exact I]].
Qed.

Lemma buildCommands_placement_witness :
  placement
    (mkCommand (Some "cat") (Some [Some "cat"]) false false (Some "in") None
       (Some (mkCommand (Some "head") (Some [Some "head"; Some "-n"; Some "2"])
                true false None (Some "out") None))).
Proof.
  apply (buildCommands_placement (make END) (λ _, false)
           [makeIdent "cat"; make REDIR_IN; makeIdent "in"; make PIPE;
            makeIdent "head"; makeIdent "-n"; makeIdent "2";
            make REDIR_OUT; makeIdent "out"; make BG] _ false).
  - reflexivity.
  - reflexivity.
Defined.

(** C4, as stated, fails: [a > f | b < g] parses, and the chain has an
    output redirection on its first stage and an input redirection on its
    second and last. *)
Lemma buildCommands_misplaced_redirections :
  ∃ c,
    buildCommands (make END) (λ _, false)
      [makeIdent "a"; make REDIR_OUT; makeIdent "f"; make PIPE;
       makeIdent "b"; make REDIR_IN; makeIdent "g"]
    = Some (mkParse (Chain c) false)
    ∧ ¬ placement c.
Proof.
  eexists. split; [reflexivity|].
  intros H. destruct (H 0 _ eq_refl) as [_ H0].
  destruct H0 as [H0 _]; [simpl; lia|discriminate].
Qed.

(** ** The pipeline driver *)

Lemma Command_chain_ind (P : Command → Prop) :
  (∀ c, pipe_to c = None → P c) →
  (∀ c next, pipe_to c = Some next → P next → P c) →
  ∀ c, P c.
Proof.
  intros Hlast Hnext. fix IH 1. intros c.
  destruct (pipe_to c) as [next|] eqn:E.
  - apply (Hnext c next E). destruct c as [? ? ? ? ? ? [n|]]; simpl in E;
      [|discriminate]. injection E as <-. apply IH.
  - by apply Hlast.
Qed.

(** The actions of a sequence are those of its parts. *)
Lemma bind_actions {A B : Type} (P : Action → Prop) (m : Proc A) (k : A → Proc B) :
  Forall P m.1 → (∀ a, Forall P (k a).1) → Forall P (m ≫= k).1.
Proof.
  intros Hm Hk. destruct m as [tr [a| |]]; simpl in *; auto.
  specialize (Hk a). destruct (k a) as [tr' e]. simpl in *.
  apply Forall_app. auto.
Qed.

Lemma deref_actions {A : Type} (P : Action → Prop) (p : option A) :
  Forall P (deref p).1.
Proof. destruct p; constructor. Qed.

Lemma build_c_args_actions (P : Action → Prop) (cmd : Command) :
  Forall P (build_c_args cmd).1.
Proof.
  unfold build_c_args.
  repeat (apply bind_actions; [apply deref_actions|intros ?]). constructor.
Qed.

Section Driver.

Variable pipe_ok : nat → bool.
Variable open_ok : string → bool.

Lemma executeCommand_fd_unfold (n : nat) (cmd : Command) (input : Fd) :
  executeCommand_fd pipe_ok n cmd input
  = (act (Pipe n);;
     (if pipe_ok n then mret tt else act (Perror "pipe");; exit EXIT_FAILURE);;
     c_args ← build_c_args cmd;
     name ← deref (command cmd);
     act (Fork (StageChild input n name c_args));;
     act (Close (PipeWrite n));;
     match pipe_to cmd with
     | None => mret (PipeRead n)
     | Some next => executeCommand_fd pipe_ok (S n) next (PipeRead n)
     end).
Proof. by destruct cmd. Qed.

(** The launcher neither waits nor forks a drain process. *)
Lemma executeCommand_fd_actions (cmd : Command) :
  ∀ n input, Forall launcher_action (executeCommand_fd pipe_ok n cmd input).1.
Proof.
  induction cmd as [cmd Hlast|cmd next Hnext IH] using Command_chain_ind;
    intros n input; rewrite executeCommand_fd_unfold.
  all: apply bind_actions; [by repeat constructor|intros _].
  all: apply bind_actions; [destruct (pipe_ok n); by repeat constructor|intros _].
  all: apply bind_actions; [apply build_c_args_actions|intros c_args].
  all: apply bind_actions; [apply deref_actions|intros name].
  all: apply bind_actions; [by repeat constructor|intros _].
  all: apply bind_actions; [by repeat constructor|intros _].
  - rewrite Hlast. constructor.
  - rewrite Hnext. apply IH.
Qed.

(** When the driver waits, the first stage is not flagged; when it prints
    its note instead, the first stage is flagged. *)
Lemma executeCommand_waits (cmd : Command) :
  In Waitpid (executeCommand pipe_ok open_ok cmd).1 → bg cmd = false.
Proof.
  intros H. destruct (bg cmd) eqn:Hbg; [exfalso|reflexivity].
  assert (HF : Forall (λ a, a ≠ Waitpid) (executeCommand pipe_ok open_ok cmd).1);
    [|rewrite Forall_forall in HF;
      apply (HF Waitpid); [by apply list_elem_of_In|reflexivity]].
  unfold executeCommand. rewrite Hbg.
  assert (Hl : ∀ n input,
            Forall (λ a, a ≠ Waitpid) (executeCommand_fd pipe_ok n cmd input).1).
  { intros n input. eapply Forall_impl; [apply executeCommand_fd_actions|].
    intros a Ha ->. exact Ha. }
  apply bind_actions.
  - destruct (redir_in cmd) as [path|].
    + apply bind_actions; [by repeat constructor|intros _].
      destruct (open_ok path).
      * apply bind_actions; [apply Hl|intros ?; constructor].
      * apply bind_actions; [by repeat constructor|intros ?; constructor].
    + apply bind_actions; [apply Hl|intros ?; constructor].
  - intros [output|]; [|constructor].
    apply bind_actions; [by repeat constructor|intros _].
    simpl. by repeat constructor.
Qed.

End Driver.

(** C3.  The driver tests the flag of the first stage, not of the stage
    that carries the [&]: for [a | b &] the parser sets [bg] on the last
    stage, and the driver waits for the drain process. *)
Theorem executeCommand_waits_for_background_pipeline :
  let c := mkCommand (Some "a") (Some [Some "a"]) false false None None
             (Some (mkCommand (Some "b") (Some [Some "b"]) true false None None None)) in
  buildCommands (make END) (λ _, false) (tokens_of "a | b &") = Some (mkParse (Chain c) false)
  ∧ bg (lastCommand c) = true
  ∧ executeCommand (λ _, true) (λ _, true) c
    = ([Pipe 0; Fork (StageChild STDIN_FILENO 0 "a" ["a"]); Close (PipeWrite 0);
        Pipe 1; Fork (StageChild (PipeRead 0) 1 "b" ["b"]); Close (PipeWrite 1);
        Fork (DrainChild (PipeRead 1) (lastCommand c));
        Waitpid],
       Returns tt).
Proof. repeat split. Qed.

(** The driver, when the launcher returns: it forks the drain process for
    the last stage and then waits, or not, by the flag of the first stage. *)
Lemma executeCommand_returns (pipe_ok : nat → bool) (open_ok : string → bool)
    (cmd : Command) (tr : list Action) (output : Fd) :
  (∀ path, redir_in cmd = Some path → open_ok path = true) →
  executeCommand_fd pipe_ok 0 cmd
    (match redir_in cmd with Some path => FileFd path | None => STDIN_FILENO end)
  = (tr, Returns output) →
  executeCommand pipe_ok open_ok cmd
  = (match redir_in cmd with Some path => [Open path [O_RDONLY]] | None => [] end
     ++ tr
     ++ [Fork (DrainChild output (lastCommand cmd));
         if bg cmd then Printf "No need to wait" else Waitpid],
     Returns tt).
Proof.
  intros Hopen H. unfold executeCommand.
  destruct (redir_in cmd) as [path|].
  - rewrite (Hopen path eq_refl). simpl. rewrite H. simpl.
    destruct (bg cmd); simpl; by rewrite app_nil_r.
  - rewrite H. simpl. destruct (bg cmd); simpl; by rewrite app_nil_r.
Qed.

(** ** The drain process and the target of an output redirection *)

(** A write lands at the end of the file when the descriptor is in append
    mode or its offset is the length of the file. *)
Lemma copy_to_file_at_end (incoming : list Byte.byte) :
  ∀ fd os f,
    os_files os !! of_path fd = Some f →
    of_append fd = true ∨ of_offset fd = length (file_bytes f) →
    os_files (copy_to_file incoming fd os) !! of_path fd
    = Some (mkFile (file_mode f) (file_bytes f ++ incoming))
    ∧ (∀ other, other ≠ of_path fd →
         os_files (copy_to_file incoming fd os) !! other = os_files os !! other)
    ∧ os_stdout (copy_to_file incoming fd os) = os_stdout os.
Proof.
  induction incoming as [|buf incoming IH]; intros fd os f Hf Hend.
  - simpl. rewrite app_nil_r. by destruct f.
  - cbn [copy_to_file]. unfold sys_write1. rewrite Hf.
    set (pos := if of_append fd then length (file_bytes f) else of_offset fd).
    assert (Hpos : pos = length (file_bytes f)).
    { subst pos. destruct Hend as [->| ->]; [reflexivity|by destruct (of_append fd)]. }
    rewrite Hpos, firstn_all, skipn_all2 by lia.
    set (f' := mkFile (file_mode f) (file_bytes f ++ [buf])).
    set (fd' := mkOpenFile (of_path fd) (S (length (file_bytes f))) (of_append fd)).
    set (os' := set_files (<[of_path fd := f']> (os_files os)) os).
    destruct (IH fd' os' f') as (H1 & H2 & H3).
    { simpl. apply lookup_insert_eq. }
    { right. simpl. rewrite length_app. simpl. lia. }
    simpl in *. rewrite H1, <- app_assoc. split; [reflexivity|]. split; [|exact H3].
    intros other Hother. rewrite (H2 other Hother). by apply lookup_insert_ne.
Qed.

(** Writing changes neither who the process is, nor its umask, nor which
    paths can be reached. *)
Lemma copy_to_file_access (incoming : list Byte.byte) :
  ∀ fd os,
    os_privileged (copy_to_file incoming fd os) = os_privileged os
    ∧ os_umask (copy_to_file incoming fd os) = os_umask os
    ∧ os_unreachable (copy_to_file incoming fd os) = os_unreachable os.
Proof.
  induction incoming as [|buf incoming IH]; intros fd os; [by repeat split|].
  cbn [copy_to_file]. unfold sys_write1.
  destruct (os_files os !! of_path fd) as [f|]; [|apply IH].
  destruct (IH (mkOpenFile (of_path fd)
                  (S (if of_append fd then length (file_bytes f) else of_offset fd))
                  (of_append fd))
              (set_files
                 (<[of_path fd :=
                      mkFile (file_mode f)
                        (take (if of_append fd then length (file_bytes f)
                               else of_offset fd) (file_bytes f)
                         ++ buf :: drop (S (if of_append fd then length (file_bytes f)
                                             else of_offset fd)) (file_bytes f))]>
                    (os_files os)) os)) as (H1 & H2 & H3).
  split; [exact H1|split; [exact H2|exact H3]].
Qed.

(** Writing touches the file of the descriptor only. *)
Lemma copy_to_file_frame (incoming : list Byte.byte) :
  ∀ fd os,
    (∀ other, other ≠ of_path fd →
       os_files (copy_to_file incoming fd os) !! other = os_files os !! other)
    ∧ os_stdout (copy_to_file incoming fd os) = os_stdout os.
Proof.
  induction incoming as [|buf incoming IH]; intros fd os; [by split|].
  cbn [copy_to_file]. unfold sys_write1.
  destruct (os_files os !! of_path fd) as [f|]; [|apply IH].
  destruct (IH (mkOpenFile (of_path fd)
                  (S (if of_append fd then length (file_bytes f) else of_offset fd))
                  (of_append fd))
              (set_files
                 (<[of_path fd :=
                      mkFile (file_mode f)
                        (take (if of_append fd then length (file_bytes f)
                               else of_offset fd) (file_bytes f)
                         ++ buf :: drop (S (if of_append fd then length (file_bytes f)
                                             else of_offset fd)) (file_bytes f))]>
                    (os_files os)) os)) as [H1 H2].
  split; [|exact H2].
  intros other Hne. rewrite (H1 other Hne). by apply lookup_insert_ne.
Qed.

(** The [open] call of the drain process on a target it may write: the
    descriptor it gives and the file system it leaves. *)
Lemma sys_open_drain (last_command : Command) (path : string) (os : Os) :
  writable os path = true →
  sys_open os path (drain_open_flags last_command) drain_open_mode
  = Some (mkOpenFile path 0 (append last_command),
          if bool_decide (is_Some (os_files os !! path)) && append last_command
          then os
          else set_files
                 (<[path := mkFile (file_mode (file_before os path)) []]> (os_files os))
                 os).
Proof.
  intros Hw. unfold sys_open, writable, file_before in *.
  apply andb_true_iff in Hw as [Hreach Hw]. apply negb_true_iff in Hreach.
  rewrite Hreach.
  assert (Hcreat : bool_decide (O_CREAT ∈ drain_open_flags last_command) = true).
  { unfold drain_open_flags. by destruct (append last_command). }
  assert (Happend : bool_decide (O_APPEND ∈ drain_open_flags last_command)
                    = append last_command).
  { unfold drain_open_flags. by destruct (append last_command). }
  assert (Htrunc : bool_decide (O_TRUNC ∈ drain_open_flags last_command)
                   = negb (append last_command)).
  { unfold drain_open_flags. by destruct (append last_command). }
  rewrite Hcreat, Happend, Htrunc.
  destruct (os_files os !! path) as [f|] eqn:Hf.
  - rewrite Hw. rewrite bool_decide_eq_true_2 by eauto.
    by destruct (append last_command).
  - rewrite bool_decide_eq_false_2 by (intros [? ?]; discriminate). reflexivity.
Qed.

(** What the drain process leaves when its [open] succeeds: the target with
    the mode it had, or the mode of the call if it was missing, holding its
    former bytes, if [append] is set, and then the bytes drained. *)
Lemma drain_to_file (last_command : Command) (path : string)
    (incoming : list Byte.byte) (os : Os) :
  redir_out last_command = Some path →
  writable os path = true →
  os_files (drain last_command incoming os) !! path
  = Some (mkFile (file_mode (file_before os path))
            ((if append last_command then file_bytes (file_before os path) else [])
             ++ incoming))
  ∧ (∀ other, other ≠ path →
       os_files (drain last_command incoming os) !! other = os_files os !! other)
  ∧ os_stdout (drain last_command incoming os) = os_stdout os.
Proof.
  intros Hout Hw. unfold drain. rewrite Hout, (sys_open_drain _ _ _ Hw).
  destruct (os_files os !! path) as [f|] eqn:Hf.
  - rewrite bool_decide_eq_true_2 by eauto. cbn [andb].
    destruct (append last_command) eqn:Happ.
    + destruct (copy_to_file_at_end incoming (mkOpenFile path 0 true) os f)
        as (H1 & H2 & H3); [exact Hf|by left|].
      unfold file_before. rewrite Hf. auto.
    + destruct (copy_to_file_at_end incoming (mkOpenFile path 0 false)
                  (set_files
                     (<[path := mkFile (file_mode (file_before os path)) []]>
                        (os_files os)) os)
                  (mkFile (file_mode (file_before os path)) []))
        as (H1 & H2 & H3); [apply lookup_insert_eq|by right|].
      split; [exact H1|split; [|exact H3]].
      intros other Hne. rewrite (H2 other Hne). by apply lookup_insert_ne.
  - rewrite bool_decide_eq_false_2 by (intros [? ?]; discriminate). cbn [andb].
    destruct (copy_to_file_at_end incoming (mkOpenFile path 0 (append last_command))
                (set_files
                   (<[path := mkFile (file_mode (file_before os path)) []]>
                      (os_files os)) os)
                (mkFile (file_mode (file_before os path)) []))
      as (H1 & H2 & H3); [apply lookup_insert_eq|by right|].
    cbn [of_path] in H1, H2. split; [|split; [|exact H3]].
    + rewrite H1. unfold file_before. rewrite Hf. simpl.
      by destruct (append last_command).
    + intros other Hne. rewrite (H2 other Hne). by apply lookup_insert_ne.
Qed.

(** C5.  [>] does not always truncate.  The parser sets [append] at [>>]
    and nothing clears it, so on [a | b >> f > g] the node of the last stage
    has [redir_out] = [g] with [append] set; the driver forks the drain
    process for that node, the drain process opens [g] with [O_APPEND], and
    a [g] that exists keeps its bytes in front of the new ones.  A lone [>]
    does the same in a node whose storage happened to hold a set
    [append]. *)
Theorem executeCommand_redirect_out_appends (stale : Token)
    (uninitialised : nat → bool) (os : Os) (mode : list ModeBit)
    (old incoming : list Byte.byte) :
  os_files os !! "g" = Some (mkFile mode old) →
  writable os "g" = true →
  let last := mkCommand (Some "b") (Some [Some "b"]) false true None (Some "g") None in
  let c := mkCommand (Some "a") (Some [Some "a"]) false (uninitialised 0) None None
             (Some last) in
  buildCommands stale uninitialised (tokens_of "a | b >> f > g")
  = Some (mkParse (Chain c) false)
  ∧ executeCommand (λ _, true) (λ _, true) c
    = ([Pipe 0; Fork (StageChild STDIN_FILENO 0 "a" ["a"]); Close (PipeWrite 0);
        Pipe 1; Fork (StageChild (PipeRead 0) 1 "b" ["b"]); Close (PipeWrite 1);
        Fork (DrainChild (PipeRead 1) last);
        Waitpid],
       Returns tt)
  ∧ drain_open_flags last = [O_WRONLY; O_CREAT; O_APPEND]
  ∧ os_files (drain last incoming os) !! "g" = Some (mkFile mode (old ++ incoming))
  ∧ ∃ lone,
      buildCommands stale (λ _, true) (tokens_of "a > g")
      = Some (mkParse (Chain lone) false)
      ∧ drain_open_flags (lastCommand lone) = [O_WRONLY; O_CREAT; O_APPEND]
      ∧ os_files (drain (lastCommand lone) incoming os) !! "g"
        = Some (mkFile mode (old ++ incoming)).
Proof.
  intros Hg Hw last c.
  assert (Hdrain : ∀ node, redir_out node = Some "g" → append node = true →
            os_files (drain node incoming os) !! "g"
            = Some (mkFile mode (old ++ incoming))).
  { intros node Hout Happ.
    destruct (drain_to_file node "g" incoming os Hout Hw) as [H _].
    rewrite H, Happ. unfold file_before. by rewrite Hg. }
  split; [reflexivity|]. split; [destruct (uninitialised 0); reflexivity|].
  split; [reflexivity|]. split; [by apply Hdrain|].
  eexists. split; [reflexivity|]. split; [reflexivity|]. by apply Hdrain.
Qed.

Lemma executeCommand_redirect_out_appends_witness :
  let os := mkOs {[ "g" := mkFile [S_IRUSR; S_IWUSR] [Byte.x68; Byte.x6f; Byte.x69] ]}
              [] [] false [] (λ _, false) in
  let last := mkCommand (Some "b") (Some [Some "b"]) false true None (Some "g") None in
  let c := mkCommand (Some "a") (Some [Some "a"]) false false None None (Some last) in
  buildCommands (make END) (λ _, false) (tokens_of "a | b >> f > g")
  = Some (mkParse (Chain c) false)
  ∧ executeCommand (λ _, true) (λ _, true) c
    = ([Pipe 0; Fork (StageChild STDIN_FILENO 0 "a" ["a"]); Close (PipeWrite 0);
        Pipe 1; Fork (StageChild (PipeRead 0) 1 "b" ["b"]); Close (PipeWrite 1);
        Fork (DrainChild (PipeRead 1) last);
        Waitpid],
       Returns tt)
  ∧ drain_open_flags last = [O_WRONLY; O_CREAT; O_APPEND]
  ∧ os_files (drain last [Byte.x68; Byte.x61; Byte.x69] os) !! "g"
    = Some (mkFile [S_IRUSR; S_IWUSR]
              ([Byte.x68; Byte.x6f; Byte.x69] ++ [Byte.x68; Byte.x61; Byte.x69]))
  ∧ ∃ lone,
      buildCommands (make END) (λ _, true) (tokens_of "a > g")
      = Some (mkParse (Chain lone) false)
      ∧ drain_open_flags (lastCommand lone) = [O_WRONLY; O_CREAT; O_APPEND]
      ∧ os_files (drain (lastCommand lone) [Byte.x68; Byte.x61; Byte.x69] os) !! "g"
        = Some (mkFile [S_IRUSR; S_IWUSR]
                  ([Byte.x68; Byte.x6f; Byte.x69] ++ [Byte.x68; Byte.x61; Byte.x69])).
Proof.
  apply (executeCommand_redirect_out_appends (make END) (λ _, false)
           (mkOs {[ "g" := mkFile [S_IRUSR; S_IWUSR] [Byte.x68; Byte.x6f; Byte.x69] ]}
              [] [] false [] (λ _, false))
           [S_IRUSR; S_IWUSR] [Byte.x68; Byte.x6f; Byte.x69]
           [Byte.x68; Byte.x61; Byte.x69]);
    reflexivity.
Defined.

(** ** The unit tests of the repository, on the embedding *)

(** [TEST(Shell, BuildToken)] *)
Example test_BuildToken_operators :
  lexed_token (buildToken "&") = make BG
  ∧ lexed_token (buildToken " &") = make BG
  ∧ lexed_token (buildToken " & ") = make BG
  ∧ lexed_token (buildToken "    &  ") = make BG
  ∧ lexed_token (buildToken "|") = make PIPE
  ∧ lexed_token (buildToken " | ") = make PIPE
  ∧ lexed_token (buildToken "") = make END.
Proof. repeat split. Qed.

Example test_BuildToken_line :
  tokens_of "test | test2 test3 > file &"
  = [makeIdent "test"; make PIPE; makeIdent "test2"; makeIdent "test3";
     make REDIR_OUT; makeIdent "file"; make BG].
Proof. reflexivity. Qed.

(** [TEST(Shell, BuildCommands)]; the vectors that end in an identifier are
    parsed with a read of the emptied vector. *)
Example test_BuildCommands_background (stale : Token) :
  buildCommands stale (λ _, false) (tokens_of "test hoi hai &")
  = Some (mkParse
            (Chain (mkCommand (Some "test") (Some [Some "test"; Some "hoi"; Some "hai"])
                      true false None None None))
            false).
Proof. reflexivity. Qed.

Example test_BuildCommands_pipe (stale : Token) :
  buildCommands stale (λ _, false) (tokens_of "test hoi hai | cat")
  = Some (mkParse
            (Chain (mkCommand (Some "test") (Some [Some "test"; Some "hoi"; Some "hai"])
                      false false None None
                      (Some (mkCommand (Some "cat") (Some [Some "cat"]) false false
                               None None None))))
            true).
Proof. unfold buildCommands. simpl. destruct (get_id stale); reflexivity. Qed.

Example test_BuildCommands_redirections (stale : Token) :
  buildCommands stale (λ _, false) (tokens_of "test hoi hai < dinges > file &")
  = Some (mkParse
            (Chain (mkCommand (Some "test") (Some [Some "test"; Some "hoi"; Some "hai"])
                      true false (Some "dinges") (Some "file") None))
            false).
Proof. reflexivity. Qed.

(** [TEST(Shell, FailingBuildCommands)] *)
Example test_FailingBuildCommands (stale : Token) (uninitialised : nat → bool) :
  Forall (λ line, ret <$> buildCommands stale uninitialised (tokens_of line)
                  = Some Nullptr)
    [""; "|"; "& test hoi | ja &"; "test hoi |"; "test hoi | ja >"].
Proof. repeat constructor. Qed.

(** [TEST(Shell, lastCommand)] *)
Example test_lastCommand :
  let sub := mkCommand (Some "cat") (Some [Some "cat"]) false false None None None in
  let single := mkCommand (Some "test") None true false None None None in
  lastCommand single = single
  ∧ lastCommand (mkCommand (Some "test") None false false None None (Some sub)) = sub.
Proof. split; reflexivity. Qed.

(** The third example scenario: [ls -1 | head -n 4 > out] in the shell
    process, and its drain process on an existing file. *)
Example scenario_write_to_file :
  ∃ c,
    buildCommands (make END) (λ _, false) (tokens_of "ls -1 | head -n 4 > out")
    = Some (mkParse (Chain c) false)
    ∧ executeCommand (λ _, true) (λ _, true) c
      = ([Pipe 0; Fork (StageChild STDIN_FILENO 0 "ls" ["ls"; "-1"]);
          Close (PipeWrite 0);
          Pipe 1; Fork (StageChild (PipeRead 0) 1 "head" ["head"; "-n"; "4"]);
          Close (PipeWrite 1);
          Fork (DrainChild (PipeRead 1) (lastCommand c));
          Waitpid],
         Returns tt)
    ∧ drain_open_flags (lastCommand c) = [O_WRONLY; O_CREAT; O_TRUNC].
Proof. eexists. repeat split. Qed.

(** * Further properties *)

(** ** The lexer: what it keeps of the line *)

Lemma buildToken_END_input (input : string) :
  get_id (lexed_token (buildToken input)) = END →
  lexed_input (buildToken input) = "".
Proof.
  induction input as [|c s IH]; [reflexivity|]. simpl.
  destruct (Ascii.eqb c " "); [exact IH|].
  destruct (Ascii.eqb c ">").
  { destruct (front s) as [next p]. destruct (Ascii.eqb next ">"); discriminate. }
  repeat (match goal with |- context [if ?b then _ else _] => destruct b end;
          try discriminate).
  destruct (find_first_of delimiters s); discriminate.
Qed.

Lemma tokenList_loop_rest (fuel : nat) :
  ∀ input acc flag r,
    tokenList_loop fuel (buildToken input) acc flag = Some r →
    rest_of_line r = "".
Proof.
  induction fuel as [|fuel IH]; intros input acc flag r H; [discriminate|].
  simpl in H. case_bool_decide as E.
  - injection H as <-. simpl. by apply buildToken_END_input.
  - by apply IH in H.
Qed.

(** [tokenList] empties the string it is given by reference: whatever the
    command line, nothing of it is left when the loop ends. *)
Theorem tokenList_consumes_line (commandLine : string) :
  ∃ r, tokenList commandLine = Some r ∧ rest_of_line r = "".
Proof.
  destruct (tokenList_total commandLine) as [r Hr]. exists r.
  split; [exact Hr|]. by apply tokenList_loop_rest in Hr.
Qed.

(** Every token of the vector is an operator without text or an identifier
    whose text is not empty and holds none of the characters space, [>],
    [<], [|], [&]; no token is [END]. *)
Theorem tokenList_token_shapes (commandLine : string) :
  ∃ r, tokenList commandLine = Some r
       ∧ Forall (λ t, lexer_token t = true) (token_list r).
Proof.
  destruct (tokenList_total commandLine) as [r Hr]. exists r.
  split; [exact Hr|]. pose proof (tokens_of_lexer_token commandLine) as H.
  unfold tokens_of in H. by rewrite Hr in H.
Qed.

Lemma not_delimiter_not_space (c : ascii) :
  string_mem c delimiters = false → Ascii.eqb c " " = false.
Proof. simpl. by destruct (Ascii.eqb c " "). Qed.

Lemma remove_spaces_word (s : string) :
  match find_first_of delimiters s with
  | Some found =>
      remove_spaces s = (substr0 s found ++ remove_spaces (erase0 s found))%string
  | None => remove_spaces s = s
  end.
Proof.
  induction s as [|c s IH]; [reflexivity|].
  cbn [find_first_of]. destruct (string_mem c delimiters) eqn:Hc; [reflexivity|].
  apply not_delimiter_not_space in Hc.
  destruct (find_first_of delimiters s) as [found|];
    cbn [remove_spaces substr0 erase0]; rewrite Hc, IH; reflexivity.
Qed.

(** One call of the lexer splits the line without its spaces into the
    literal form of the token and the rest without its spaces. *)
Lemma remove_spaces_buildToken (input : string) :
  remove_spaces input
  = (literal (lexed_token (buildToken input))
     ++ remove_spaces (lexed_input (buildToken input)))%string.
Proof.
  induction input as [|c s IH]; [reflexivity|].
  cbn [remove_spaces buildToken].
  destruct (Ascii.eqb c " ") eqn:E1; [exact IH|].
  destruct (Ascii.eqb_spec c ">") as [->|E2].
  { destruct s as [|d s]; [reflexivity|]. cbn [front].
    destruct (Ascii.eqb_spec d ">") as [->|E]; [reflexivity|].
    reflexivity. }
  destruct (Ascii.eqb_spec c "<") as [->|E3]; [reflexivity|].
  destruct (Ascii.eqb_spec c "|") as [->|E4]; [reflexivity|].
  destruct (Ascii.eqb_spec c "&") as [->|E5]; [reflexivity|].
  pose proof (remove_spaces_word s) as Hw.
  destruct (find_first_of delimiters s) as [found|];
    cbn [lexed_token lexed_input literal makeIdent token_id str];
    rewrite Hw, !string_app_cons, string_app_nil_l;
    cbn [remove_spaces]; rewrite ?string_app_nil_r; reflexivity.
Qed.

Lemma concat_literals_tokens_of (input : string) :
  concat_literals (tokens_of input) = remove_spaces input.
Proof.
  remember (String.length input) as n eqn:Hn. revert input Hn.
  induction n as [n IH] using lt_wf_ind. intros input ->.
  rewrite (remove_spaces_buildToken input).
  destruct (decide (get_id (lexed_token (buildToken input)) = END)) as [E|E].
  - rewrite tokens_of_END by exact E.
    rewrite (buildToken_END_input _ E). unfold literal.
    unfold get_id in E. by rewrite E.
  - rewrite tokens_of_step by exact E. cbn [concat_literals].
    f_equal. eapply IH; [|reflexivity]. by apply buildToken_not_END_shrinks.
Qed.

(** The lexer drops spaces and nothing else: the literal forms of the
    tokens, written one after the other, are the command line without its
    spaces. *)
Theorem tokenList_drops_only_spaces (commandLine : string) :
  ∃ r, tokenList commandLine = Some r
       ∧ concat_literals (token_list r) = remove_spaces commandLine.
Proof.
  destruct (tokenList_total commandLine) as [r Hr]. exists r.
  split; [exact Hr|]. pose proof (concat_literals_tokens_of commandLine) as H.
  unfold tokens_of in H. by rewrite Hr in H.
Qed.

(** What a call of the lexer leaves is the end of what it was given. *)
Lemma buildToken_input_suffix (input : string) :
  ∃ taken, input = (taken ++ lexed_input (buildToken input))%string.
Proof.
  induction input as [|c s [taken IH]]; [by exists ""|].
  assert (Hs : ∃ taken, String c s = (taken ++ s)%string) by (by exists (String c "")).
  assert (He : ∃ taken, String c s = (taken ++ "")%string).
  { exists (String c s). by rewrite string_app_nil_r. }
  cbn [buildToken]. destruct (Ascii.eqb c " ").
  { exists (String c taken). by rewrite string_app_cons, <- IH. }
  destruct (Ascii.eqb c ">").
  { destruct s as [|d s]; [exact He|]. cbn [front].
    destruct (Ascii.eqb d ">"); [|exact Hs].
    by exists (String c (String d "")). }
  repeat (match goal with |- context [if ?b then _ else _] => destruct b end;
          try exact Hs).
  destruct (find_first_of delimiters s) as [found|]; [|exact He].
  exists (String c (substr0 s found)). cbn [lexed_input].
  rewrite string_app_cons. f_equal. clear.
  revert found. induction s as [|d s IH]; intros [|found]; try reflexivity.
  cbn [substr0 erase0]. by rewrite string_app_cons, <- IH.
Qed.

Lemma string_app_assoc (a b c : string) :
  ((a ++ b) ++ c)%string = (a ++ (b ++ c))%string.
Proof.
  induction a as [|x a IH]; [reflexivity|]. by rewrite !string_app_cons, IH.
Qed.

Lemma tokenList_loop_past_end (fuel : nat) :
  ∀ input acc flag r,
    tokenList_loop fuel (buildToken input) acc flag = Some r →
    past_end r = true →
    flag = true ∨ ∃ before, input = (before ++ ">")%string.
Proof.
  induction fuel as [|fuel IH]; intros input acc flag r H Hr; [discriminate|].
  assert (Hcall : lexed_past_end (buildToken input) = true →
                  ∃ before, input = (before ++ ">")%string).
  { intros Hp. apply buildToken_past_end_iff in Hp as [n ->]. eauto. }
  simpl in H. case_bool_decide as E.
  - injection H as <-. simpl in Hr. apply orb_true_iff in Hr as [?|?]; auto.
  - destruct (IH _ _ _ _ H Hr) as [Hf|[before Hb]].
    + apply orb_true_iff in Hf as [?|?]; auto.
    + right. destruct (buildToken_input_suffix input) as [taken Ht].
      exists (taken ++ before)%string. rewrite string_app_assoc, <- Hb. exact Ht.
Qed.

(** The lexer reads past the end of its input only for a command line whose
    last character is [>]. *)
Theorem tokenList_past_end_only_after_redirect (commandLine : string) (r : Tokenized) :
  tokenList commandLine = Some r →
  past_end r = true →
  ∃ before, commandLine = (before ++ ">")%string.
Proof.
  intros H Hr. destruct (tokenList_loop_past_end _ _ _ _ _ H Hr) as [?|?];
    [discriminate|assumption].
Qed.

Lemma tokenList_past_end_only_after_redirect_witness :
  ∃ before, "ls >" = (before ++ ">")%string.
Proof.
  apply (tokenList_past_end_only_after_redirect "ls >"
           (mkTokenized [makeIdent "ls"; make REDIR_OUT] "" true));
    reflexivity.
Defined.

(** ** The parser: what it returns *)

Lemma collect_args_stale (stale stale' : Token) (tokens : list Token) :
  ∀ args oob,
    collect_args stale tokens (tokens_front stale tokens).1 args oob
    = collect_args stale' tokens (tokens_front stale' tokens).1 args oob.
Proof.
  induction tokens as [|t tokens IH]; intros args oob.
  - simpl. by destruct (get_id stale), (get_id stale').
  - cbn [tokens_front fst collect_args]. destruct (get_id t); try reflexivity.
    pose proof (IH (args ++ [get_str t])) as H.
    destruct tokens as [|u tokens]; [|exact (H _)].
    simpl in *. apply H.
Qed.

Lemma parse_stale (stale stale' : Token) (uninitialised : nat → bool) (fuel : nat) :
  (∀ depth tokens,
     buildCommands_fuel stale uninitialised fuel depth tokens
     = buildCommands_fuel stale' uninitialised fuel depth tokens)
  ∧ (∀ depth cmd cur tokens oob,
       parse_loop stale uninitialised fuel depth cmd cur tokens oob
       = parse_loop stale' uninitialised fuel depth cmd cur tokens oob).
Proof.
  induction fuel as [|fuel [IHc IHr]]; [split; reflexivity|].
  assert (Hnext : ∀ depth cmd tokens oob,
            next_round (parse_loop stale uninitialised fuel depth) cmd tokens oob
            = next_round (parse_loop stale' uninitialised fuel depth) cmd tokens oob).
  { intros depth cmd [|t tokens] oob; simpl; auto. }
  assert (Hredir : ∀ depth store cmd tokens oob,
            redirect_case (parse_loop stale uninitialised fuel depth) store cmd
              tokens oob
            = redirect_case (parse_loop stale' uninitialised fuel depth) store cmd
                tokens oob).
  { intros depth store cmd [|t tokens] oob; simpl; auto.
    destruct (get_id t); auto. destruct (get_str t); auto. }
  split.
  - intros depth tokens. rewrite !buildCommands_fuel_S.
    destruct tokens as [|t tokens]; auto. destruct (get_id t); auto.
  - intros depth cmd cur tokens oob. rewrite !parse_loop_S.
    destruct (get_id cur); auto.
    + pose proof (collect_args_stale stale stale' tokens) as Hc.
      destruct tokens as [|t tokens]; cbn [tokens_front fst] in *.
      * destruct (get_str cur); auto. rewrite Hc.
        destruct (collect_args _ _ _ _ _) as [[a t'] o]. auto.
      * destruct (get_str cur); auto. rewrite Hc.
        destruct (collect_args _ _ _ _ _) as [[a t'] o]. auto.
    + by rewrite IHc.
Qed.

(** The token that the read of the emptied vector yields has no influence:
    the chain, the rejection and the flag are the same for any two such
    tokens. *)
Theorem buildCommands_ignores_stale_token (stale stale' : Token)
    (uninitialised : nat → bool) (tokens : list Token) :
  buildCommands stale uninitialised tokens = buildCommands stale' uninitialised tokens.
Proof. apply parse_stale. Qed.

Lemma launchable_set_bg (v : bool) (cmd : Command) :
  launchable cmd → launchable (set_bg v cmd).
Proof. by destruct cmd. Qed.

Lemma launchable_set_append (v : bool) (cmd : Command) :
  launchable cmd → launchable (set_append v cmd).
Proof. by destruct cmd. Qed.

Lemma launchable_set_redir_in (v : option string) (cmd : Command) :
  launchable cmd → launchable (set_redir_in v cmd).
Proof. by destruct cmd. Qed.

Lemma launchable_set_redir_out (v : option string) (cmd : Command) :
  launchable cmd → launchable (set_redir_out v cmd).
Proof. by destruct cmd. Qed.

Lemma launchable_set_pipe_to (v : option Command) (cmd : Command) :
  launchable cmd → launchable (set_pipe_to v cmd).
Proof. by destruct cmd. Qed.

Lemma is_nil_app {A : Type} (l k : list A) : is_nil (l ++ k) = is_nil l && is_nil k.
Proof. by destruct l. Qed.

Section ParserResults.

Variable stale : Token.
Variable uninitialised : nat → bool.

Abbreviation calls := (buildCommands_fuel stale uninitialised).
Abbreviation rounds := (parse_loop stale uninitialised).

(** The identifier loop appends the texts of the tokens it takes, and it
    reads the emptied vector exactly when it leaves the vector empty. *)
Lemma collect_args_taken (tokens : list Token) :
  ∀ args oob args' tokens' oob',
    collect_args stale tokens (tokens_front stale tokens).1 args
      (oob || (tokens_front stale tokens).2)
    = (args', tokens', oob') →
    ∃ taken, tokens = taken ++ tokens'
             ∧ Forall (λ t, get_id t = IDENT) taken
             ∧ args' = args ++ map get_str taken
             ∧ oob' = oob || is_nil tokens'.
Proof.
  induction tokens as [|t tokens IH]; intros args oob args' tokens' oob' H.
  - exists []. simpl in H. rewrite app_nil_r.
    destruct (get_id stale); injection H as <- <- <-; auto.
  - cbn [tokens_front fst snd collect_args] in H. rewrite orb_false_r in H.
    destruct (get_id t) eqn:E.
    1: { destruct (tokens_front stale tokens) as [peek o] eqn:F.
         simpl in IH. destruct (IH _ _ _ _ _ H) as (taken & -> & Ht & -> & ->).
         exists (t :: taken). rewrite <- app_assoc. auto. }
    all: injection H as <- <- <-; exists []; rewrite app_nil_r, orb_false_r; auto.
Qed.

Lemma parse_launchable (fuel : nat) :
  (∀ depth tokens c oob,
     forallb parser_token tokens = true →
     calls fuel depth tokens = Some (mkParse (Chain c) oob) →
     Forall launchable (stages c))
  ∧ (∀ depth cmd cur tokens oob c oob',
       forallb parser_token (cur :: tokens) = true →
       get_id cur = IDENT ∨ launchable cmd →
       pipe_to cmd = None →
       rounds fuel depth cmd cur tokens oob = Some (mkParse (Chain c) oob') →
       Forall launchable (stages c)).
Proof.
  induction fuel as [|fuel [IHc IHr]]; [split; discriminate|].
  assert (Hnext : ∀ depth cmd tokens oob c oob',
            forallb parser_token tokens = true →
            launchable cmd → pipe_to cmd = None →
            next_round (rounds fuel depth) cmd tokens oob
            = Some (mkParse (Chain c) oob') →
            Forall launchable (stages c)).
  { intros depth cmd [|t tokens] oob c oob' Hp Hl Hpipe H; simpl in H; [|eauto].
    destruct (command cmd); [|discriminate]. injection H as <- _.
    destruct cmd; simpl in *; subst. by constructor. }
  assert (Hredir : ∀ depth store cmd tokens oob c oob',
            forallb parser_token tokens = true →
            (∀ v, launchable (store v cmd)) → (∀ v, pipe_to (store v cmd) = None) →
            redirect_case (rounds fuel depth) store cmd tokens oob
            = Some (mkParse (Chain c) oob') →
            Forall launchable (stages c)).
  { intros depth store cmd [|peek tokens] oob c oob' Hp Hl Hpipe H; simpl in H;
      [discriminate|].
    cbn [forallb] in Hp. apply andb_true_iff in Hp as [_ Hp].
    destruct (get_id peek); try discriminate.
    destruct (get_str peek); [|discriminate].
    by apply (Hnext _ _ _ _ _ _ Hp (Hl _) (Hpipe _) H). }
  split.
  - intros depth tokens c oob Hp H. rewrite buildCommands_fuel_S in H.
    destruct tokens as [|t tokens]; [discriminate|].
    destruct (get_id t) eqn:E; try discriminate.
    apply (IHr depth (new_Command (uninitialised depth)) _ _ _ _ _ Hp
             (or_introl E) eq_refl H).
  - intros depth cmd cur tokens oob c oob' Hp Hinv Hpipe H. rewrite parse_loop_S in H.
    pose proof Hp as Hp'. cbn [forallb] in Hp'.
    apply andb_true_iff in Hp' as [Hcur Htokens].
    destruct (get_id cur) eqn:E.
    + (* IDENT *)
      pose proof (collect_args_taken tokens [get_str cur] oob) as Hc.
      destruct (tokens_front stale tokens) as [peek o] eqn:F.
      destruct (parser_token_ident _ Hcur E) as [name Hname]. rewrite Hname in *.
      destruct (collect_args _ _ _ _ _) as [[args tokens'] oob''] eqn:C.
      destruct (Hc _ _ _ eq_refl) as (taken & -> & Htaken & -> & _).
      rewrite forallb_app in Htokens. apply andb_true_iff in Htokens as [Hpt Hp2].
      cbv zeta in H. refine (Hnext _ _ _ _ _ _ Hp2 _ _ H); [|by destruct cmd].
      exists name, (map (λ t, match str t with Some s => s | None => "" end) taken).
      destruct cmd; simpl. split; [reflexivity|]. do 3 f_equal.
      rewrite map_map. apply map_ext_in. intros t Ht.
      rewrite Forall_forall in Htaken. rewrite forallb_forall in Hpt.
      destruct (parser_token_ident t (Hpt t Ht)) as [s Hs];
        [apply Htaken; by apply list_elem_of_In|].
      unfold get_str in *. by rewrite Hs.
    + (* PIPE *)
      destruct Hinv as [?|Hl]; [congruence|].
      destruct (calls fuel (S depth) tokens) as [[[next| |] oobn]|] eqn:Ec;
        try discriminate.
      unfold pipe_case in H. simpl in H. injection H as <- _.
      pose proof (IHc _ _ _ _ Htokens Ec) as Hnextl.
      destruct cmd; simpl in *. constructor; assumption.
    + destruct Hinv as [?|Hl]; [congruence|].
      apply (Hredir _ _ _ _ _ _ _ Htokens) in H; [exact H| |];
        intros v; by destruct cmd.
    + destruct Hinv as [?|Hl]; [congruence|].
      apply (Hredir _ _ _ _ _ _ _ Htokens) in H; [exact H| |];
        intros v; by destruct cmd.
    + destruct Hinv as [?|Hl]; [congruence|].
      apply (Hredir _ _ _ _ _ _ _ Htokens) in H; [exact H| |];
        intros v; by destruct cmd.
    + destruct Hinv as [?|Hl]; [congruence|].
      apply (Hnext _ _ _ _ _ _ Htokens) in H; [exact H|by destruct cmd|by destruct cmd].
    + destruct cur as [id s]. unfold parser_token, get_id in *. simpl in *.
      subst id. discriminate.
Qed.

(** Every stage of a chain the parser returns has its program name and an
    argument vector that starts with that name and holds no null pointer,
    when the identifiers of the vector carry their text and no token is
    [END]. *)
Theorem buildCommands_stages_launchable (tokens : list Token) (c : Command)
    (oob : bool) :
  forallb parser_token tokens = true →
  buildCommands stale uninitialised tokens = Some (mkParse (Chain c) oob) →
  Forall launchable (stages c).
Proof. intros Hp H. exact (proj1 (parse_launchable _) _ _ _ _ Hp H). Qed.

Lemma parse_read_accepted (fuel : nat) :
  (∀ depth tokens r,
     calls fuel depth tokens = Some r → front_of_empty r = true → ret r ≠ Nullptr)
  ∧ (∀ depth cmd cur tokens r,
       rounds fuel depth cmd cur tokens false = Some r →
       front_of_empty r = true → ret r ≠ Nullptr).
Proof.
  induction fuel as [|fuel [IHc IHr]]; [split; discriminate|].
  assert (Hnext : ∀ depth cmd tokens r,
            next_round (rounds fuel depth) cmd tokens false = Some r →
            front_of_empty r = true → ret r ≠ Nullptr).
  { intros depth cmd [|t tokens] r H Hf; simpl in H; [|eauto].
    destruct (command cmd); injection H as <-; discriminate. }
  assert (Hredir : ∀ depth store cmd tokens r,
            redirect_case (rounds fuel depth) store cmd tokens false = Some r →
            front_of_empty r = true → ret r ≠ Nullptr).
  { intros depth store cmd [|peek tokens] r H Hf; simpl in H.
    { injection H as <-. discriminate. }
    destruct (get_id peek); try (injection H as <-; discriminate).
    destruct (get_str peek); [eauto|]. injection H as <-. discriminate. }
  split.
  - intros depth tokens r H Hf. rewrite buildCommands_fuel_S in H.
    destruct tokens as [|t tokens]; [injection H as <-; discriminate|].
    destruct (get_id t); try (injection H as <-; discriminate). eauto.
  - intros depth cmd cur tokens r H Hf. rewrite parse_loop_S in H.
    destruct (get_id cur); eauto.
    + pose proof (collect_args_taken tokens [get_str cur] false) as Hc.
      destruct (tokens_front stale tokens) as [peek o] eqn:F.
      destruct (get_str cur) as [name|]; [|injection H as <-; discriminate].
      destruct (collect_args _ _ _ _ _) as [[args tokens'] oob'] eqn:C.
      destruct (Hc _ _ _ eq_refl) as (taken & _ & _ & _ & ->).
      destruct tokens' as [|t tokens']; simpl in H.
      * destruct cmd; simpl in H. injection H as <-. discriminate.
      * eauto.
    + destruct (calls fuel (S depth) tokens) as [p|] eqn:Ec; [|discriminate].
      unfold pipe_case in H.
      destruct (ret p) eqn:Er; injection H as <-; try discriminate.
      simpl in Hf. apply (IHc _ _ _ Ec) in Hf. congruence.
    + injection H as <-. discriminate.
Qed.

(** A vector that is rejected is rejected without a read of the emptied
    vector: when the read happens, the parser does not return the null
    pointer. *)
Theorem buildCommands_read_only_when_accepted (tokens : list Token) (r : Parse) :
  buildCommands stale uninitialised tokens = Some r →
  front_of_empty r = true →
  ret r ≠ Nullptr.
Proof. apply parse_read_accepted. Qed.

End ParserResults.

Lemma buildCommands_stages_launchable_witness :
  Forall launchable
    (stages (mkCommand (Some "ls") (Some [Some "ls"; Some "-1"]) false false None None
               (Some (mkCommand (Some "head") (Some [Some "head"; Some "-n"; Some "4"])
                        false false None (Some "out") None)))).
Proof.
  apply (buildCommands_stages_launchable (make END) (λ _, false)
           (tokens_of "ls -1 | head -n 4 > out") _ false); reflexivity.
Defined.

Lemma buildCommands_read_only_when_accepted_witness :
  ret (mkParse (Chain (mkCommand (Some "echo") (Some [Some "echo"; Some "hi"])
                         false false None None None)) true)
  ≠ Nullptr.
Proof.
  apply (buildCommands_read_only_when_accepted (make END) (λ _, false)
           [makeIdent "echo"; makeIdent "hi"]); reflexivity.
Defined.

(** ** The parser on the grammar: the chain it builds *)

Lemma command_foldl_apply_redir (rs : list (Redir * string)) :
  ∀ cmd, command (foldl apply_redir cmd rs) = command cmd.
Proof.
  induction rs as [|[[] f] rs IH]; intros cmd; [reflexivity|..];
    cbn [foldl]; rewrite IH; by destruct cmd.
Qed.

Lemma args_foldl_apply_redir (rs : list (Redir * string)) :
  ∀ cmd, args (foldl apply_redir cmd rs) = args cmd.
Proof.
  induction rs as [|[[] f] rs IH]; intros cmd; [reflexivity|..];
    cbn [foldl]; rewrite IH; by destruct cmd.
Qed.

Lemma is_nil_redirs_tokens (rs : list (Redir * string)) :
  is_nil (redirs_tokens rs) = is_nil rs.
Proof. by destruct rs. Qed.

Lemma piped_reads_last (more : list Stage) (final : bool) :
  ∀ s,
    (is_nil (stage_redirs s) && is_nil (piped_tokens more final))
    || piped_reads more final
    = is_nil (stage_redirs (last_stage s more)) && negb final.
Proof.
  induction more as [|s' more IH]; intros s.
  - simpl. rewrite orb_false_r. by destruct final.
  - cbn [piped_reads last_stage]. rewrite <- IH.
    unfold piped_tokens at 1. cbn [flat_map app is_nil].
    by rewrite andb_false_r.
Qed.

Section ParserDenotes.

Variable stale : Token.
Variable uninitialised : nat → bool.

Abbreviation calls := (buildCommands_fuel stale uninitialised).
Abbreviation rounds := (parse_loop stale uninitialised).

Lemma collect_args_words_exact (ws : list string) (rest : list Token)
    (args : list (option string)) (oob : bool) :
  stops_words rest →
  collect_args stale (map makeIdent ws ++ rest)
    (tokens_front stale (map makeIdent ws ++ rest)).1 args
    (oob || (tokens_front stale (map makeIdent ws ++ rest)).2)
  = (args ++ map Some ws, rest, oob || is_nil rest).
Proof.
  intros Hrest.
  destruct (collect_args_words stale ws rest Hrest args
              (oob || (tokens_front stale (map makeIdent ws ++ rest)).2))
    as [oob' H].
  rewrite H. destruct (collect_args_taken stale _ _ _ _ _ _ H) as (_ & _ & _ & _ & ->).
  reflexivity.
Qed.

(** The rounds over redirections make the assignments of [apply_redir]. *)
Lemma rounds_redirs_exact (depth : nat) (rs : list (Redir * string))
    (rest : list Token) (oob : bool) :
  ∀ cmd fuel r,
    next_round (rounds fuel depth) (foldl apply_redir cmd rs) rest oob = Some r →
    next_round (rounds (fuel + length rs) depth) cmd (redirs_tokens rs ++ rest) oob
    = Some r.
Proof.
  induction rs as [|[op file] rs IH]; intros cmd fuel r H.
  - by rewrite Nat.add_0_r.
  - cbn [foldl] in H. apply IH in H.
    cbn [redirs_tokens flat_map fst snd app length]. rewrite Nat.add_succ_r.
    cbn [next_round]. rewrite parse_loop_S.
    destruct op; exact H.
Qed.

(** The rounds over one stage, from its program name on; what follows the
    words must not be an identifier. *)
Lemma rounds_stage_exact (depth : nat) (p : string) (ws : list string)
    (rs : list (Redir * string)) (rest : list Token) (cmd : Command) (oob : bool)
    (fuel : nat) (r : Parse) :
  stops_words (redirs_tokens rs ++ rest) →
  next_round (rounds fuel depth)
    (foldl apply_redir
       (set_args (Some (map Some (p :: ws))) (set_command (Some (c_str p)) cmd)) rs)
    rest (oob || is_nil (redirs_tokens rs ++ rest)) = Some r →
  rounds (S (fuel + length rs)) depth cmd (makeIdent p)
    (map makeIdent ws ++ redirs_tokens rs ++ rest) oob = Some r.
Proof.
  intros Hstop H. apply rounds_redirs_exact in H.
  rewrite parse_loop_S. cbn [makeIdent get_id get_str token_id str].
  pose proof (collect_args_words_exact ws (redirs_tokens rs ++ rest) [Some p] oob Hstop)
    as C.
  destruct (tokens_front stale (map makeIdent ws ++ redirs_tokens rs ++ rest))
    as [peek o].
  cbn [fst snd] in C. rewrite C. exact H.
Qed.

Lemma rounds_piped_exact (more : list Stage) (final : bool) :
  ∀ depth node oob, command node ≠ None →
    ∃ fuel,
      next_round (rounds fuel depth) node (piped_tokens more final) oob
      = Some (mkParse (Chain (piped_chain uninitialised (S depth) node more final))
                (oob || piped_reads more final)).
Proof.
  induction more as [|s more IH]; intros depth node oob Hname.
  - destruct final; cbn [piped_tokens flat_map app background_tokens piped_chain
      flag_background piped_reads]; rewrite orb_false_r.
    + exists 1. simpl. by destruct node as [[name|] ? ? ? ? ? ?].
    + exists 0. simpl. by destruct node as [[name|] ? ? ? ? ? ?].
  - destruct (IH (S depth) (stage_node (uninitialised (S depth)) s)
                (is_nil (redirs_tokens (stage_redirs s) ++ piped_tokens more final)))
      as [fuel H].
    { unfold stage_node. by rewrite command_foldl_apply_redir. }
    exists (S (S (S (fuel + length (stage_redirs s))))).
    unfold piped_tokens. cbn [flat_map]. rewrite <- !app_assoc.
    cbn [app next_round]. rewrite parse_loop_S. cbn [make get_id token_id].
    rewrite buildCommands_fuel_S.
    change (stage_tokens s)
      with (makeIdent (stage_program s)
            :: map makeIdent (stage_words s) ++ redirs_tokens (stage_redirs s)).
    cbn [app]. change (get_id (makeIdent (stage_program s))) with IDENT.
    cbv iota. rewrite <- app_assoc.
    pose proof (rounds_stage_exact (S depth) (stage_program s) (stage_words s)
                  (stage_redirs s) (piped_tokens more final)
                  (new_Command (uninitialised (S depth))) false fuel _
                  (stops_words_redirs _ _ (stops_words_piped more final)) H) as Hs.
    unfold piped_tokens at 1 in Hs. rewrite Hs.
    cbn [pipe_case ret front_of_empty piped_chain piped_reads].
    do 3 f_equal. rewrite is_nil_app, is_nil_redirs_tokens. reflexivity.
Qed.

Lemma line_reads (l : Line) :
  is_nil (redirs_tokens (stage_redirs (first_stage l))
          ++ background_tokens (first_background l)
          ++ piped_tokens (piped_stages l) (final_background l))
  || piped_reads (piped_stages l) (final_background l)
  = line_ends_in_word l.
Proof.
  destruct l as [s fb more final]. unfold line_ends_in_word.
  cbn [first_stage first_background piped_stages final_background].
  rewrite !is_nil_app, is_nil_redirs_tokens.
  destruct fb; cbn [background_tokens is_nil andb negb].
  - rewrite andb_false_r. cbn [orb]. destruct more as [|s' more].
    + cbn [is_nil negb piped_reads]. by rewrite andb_false_r.
    + cbn [is_nil negb last_stage piped_reads]. rewrite andb_true_r.
      apply piped_reads_last.
  - rewrite andb_true_r. apply piped_reads_last.
Qed.

Lemma parse_line (l : Line) :
  buildCommands stale uninitialised (line_tokens l)
  = Some (mkParse (Chain (line_chain uninitialised l)) (line_ends_in_word l)).
Proof.
  rewrite <- line_reads. destruct l as [s fb more final].
  cbn [first_stage first_background piped_stages final_background].
  set (rest := background_tokens fb ++ piped_tokens more final).
  set (flag := is_nil (redirs_tokens (stage_redirs s) ++ rest)).
  assert (∃ fuel,
            next_round (rounds fuel 0) (stage_node (uninitialised 0) s) rest flag
            = Some (mkParse (Chain (line_chain uninitialised (mkLine s fb more final)))
                      (flag || piped_reads more final))) as [fuel H].
  { assert (Hname : command (stage_node (uninitialised 0) s) ≠ None).
    { unfold stage_node. by rewrite command_foldl_apply_redir. }
    unfold line_chain. cbn [first_stage first_background piped_stages final_background].
    subst rest. destruct fb; cbn [background_tokens app flag_background].
    - destruct (rounds_piped_exact more final 0
                  (set_bg true (stage_node (uninitialised 0) s)) flag) as [fuel H].
      { by destruct (stage_node (uninitialised 0) s). }
      exists (S fuel). cbn [next_round]. rewrite parse_loop_S. exact H.
    - by apply rounds_piped_exact. }
  apply (buildCommands_of_fuel stale uninitialised
           (S (S (fuel + length (stage_redirs s))))).
  unfold line_tokens. cbn [first_stage first_background piped_stages final_background].
  change (stage_tokens s)
    with (makeIdent (stage_program s)
          :: map makeIdent (stage_words s) ++ redirs_tokens (stage_redirs s)).
  rewrite buildCommands_fuel_S.
  cbn [app]. change (get_id (makeIdent (stage_program s))) with IDENT.
  cbv iota. rewrite <- app_assoc. fold rest.
  apply (rounds_stage_exact 0 (stage_program s) (stage_words s) (stage_redirs s) rest
           (new_Command (uninitialised 0)) false).
  - apply stops_words_redirs. subst rest.
    apply stops_words_background, stops_words_piped.
  - exact H.
Qed.

(** On every line of the grammar the parser returns the chain the line
    denotes: each stage with its program, its words in their order, its
    redirections assigned from left to right, the background flag where
    the [&] stands; and it reads the emptied vector exactly when the line
    ends in a word of its last stage. *)
Theorem buildCommands_denotes (l : Line) :
  buildCommands stale uninitialised (line_tokens l)
  = Some (mkParse (Chain (line_chain uninitialised l)) (line_ends_in_word l)).
Proof. apply parse_line. Qed.

(** Once [>>] stands in a stage the [append] member is true, also when a
    later [>] names the file that is used: for [a >> f > g] the drain
    process appends to [g]. *)
Theorem buildCommands_append_is_sticky (l : Line) (before after : list (Redir * string))
    (file used : string) :
  stage_redirs (first_stage l)
  = before ++ [(RedirAppend, file)] ++ after ++ [(RedirOut, used)] →
  ∃ c oob,
    buildCommands stale uninitialised (line_tokens l) = Some (mkParse (Chain c) oob)
    ∧ append c = true ∧ redir_out c = Some (c_str used).
Proof.
  intros Hrs. rewrite parse_line. eexists _, _. split; [reflexivity|].
  assert (Hkeep : ∀ more final depth node,
            append (piped_chain uninitialised depth node more final) = append node
            ∧ redir_out (piped_chain uninitialised depth node more final)
              = redir_out node).
  { intros [|s more] [] depth node; by destruct node. }
  unfold line_chain. destruct (Hkeep (piped_stages l) (final_background l) 1
    (flag_background (first_background l)
       (stage_node (uninitialised 0) (first_stage l))))
    as [-> ->].
  assert (Hbg : ∀ b node, append (flag_background b node) = append node
                          ∧ redir_out (flag_background b node) = redir_out node).
  { intros [] node; by destruct node. }
  destruct (Hbg (first_background l) (stage_node (uninitialised 0) (first_stage l)))
    as [-> ->].
  unfold stage_node. rewrite Hrs. split.
  - rewrite foldl_app. cbn [foldl app].
    assert (Htrue : ∀ rs node,
              append node = true → append (foldl apply_redir node rs) = true).
    { clear. induction rs as [|[[] f] rs IH]; intros node H; [exact H|..];
        cbn [foldl]; apply IH; by destruct node. }
    apply Htrue. unfold apply_redir at 1. cbn [fst snd].
    generalize (foldl apply_redir
                  (mkCommand (Some (c_str (stage_program (first_stage l))))
                     (Some (map Some (stage_program (first_stage l)
                                      :: stage_words (first_stage l))))
                     false (uninitialised 0) None None None) before).
    by intros [].
  - rewrite (app_assoc before [(RedirAppend, file)] (after ++ [(RedirOut, used)])).
    rewrite app_assoc, foldl_app. cbn [foldl]. unfold apply_redir at 1.
    cbn [fst snd].
    generalize (foldl apply_redir
                  (mkCommand (Some (c_str (stage_program (first_stage l))))
                     (Some (map Some (stage_program (first_stage l)
                                      :: stage_words (first_stage l))))
                     false (uninitialised 0) None None None)
                  ((before ++ [(RedirAppend, file)]) ++ after)).
    by intros [].
Qed.

(** [>] never assigns [append]: for a stage without [>>] the member keeps
    the value that the constructor left unset in this node. *)
Theorem buildCommands_append_left_unset (l : Line) :
  Forall (λ r, r.1 ≠ RedirAppend) (stage_redirs (first_stage l)) →
  ∃ c oob,
    buildCommands stale uninitialised (line_tokens l) = Some (mkParse (Chain c) oob)
    ∧ append c = uninitialised 0.
Proof.
  intros Hrs. rewrite parse_line. eexists _, _. split; [reflexivity|].
  assert (Hkeep : ∀ more final depth node,
            append (piped_chain uninitialised depth node more final) = append node).
  { intros [|s more] [] depth node; by destruct node. }
  unfold line_chain. rewrite Hkeep.
  assert (Hbg : ∀ b node, append (flag_background b node) = append node).
  { intros [] node; by destruct node. }
  rewrite Hbg. unfold stage_node.
  assert (Hsame : ∀ rs node, Forall (λ r : Redir * string, r.1 ≠ RedirAppend) rs →
                    append (foldl apply_redir node rs) = append node).
  { clear. induction rs as [|[op f] rs IH]; intros node H; [reflexivity|].
    apply Forall_cons in H as [Hop H]. cbn [foldl]. rewrite (IH _ H).
    destruct op; by destruct node. }
  by rewrite Hsame.
Qed.

(** An identifier after the file of a redirection starts the command anew:
    it becomes the program name and, with the identifiers that follow it,
    the whole argument vector, while the redirections stay. *)
Theorem buildCommands_identifier_after_redirection (s : Stage) (w : string)
    (ws : list string) :
  stage_redirs s ≠ [] →
  buildCommands stale uninitialised (stage_tokens s ++ makeIdent w :: map makeIdent ws)
  = Some (mkParse
            (Chain (set_args (Some (map Some (w :: ws)))
                      (set_command (Some (c_str w)) (stage_node (uninitialised 0) s))))
            true).
Proof.
  intros Hrs. apply (buildCommands_of_fuel stale uninitialised
                       (S (S (1 + length (stage_redirs s))))).
  change (stage_tokens s)
    with (makeIdent (stage_program s)
          :: map makeIdent (stage_words s) ++ redirs_tokens (stage_redirs s)).
  rewrite buildCommands_fuel_S.
  cbn [app]. change (get_id (makeIdent (stage_program s))) with IDENT.
  cbv iota. rewrite <- app_assoc.
  apply (rounds_stage_exact 0 (stage_program s) (stage_words s) (stage_redirs s)
           (makeIdent w :: map makeIdent ws) (new_Command (uninitialised 0)) false).
  - destruct (stage_redirs s) as [|[[] f] rs]; [done|..]; simpl; discriminate.
  - rewrite is_nil_app, is_nil_redirs_tokens.
    destruct (stage_redirs s) as [|r rs] eqn:E; [done|]. rewrite <- E.
    cbn [is_nil andb orb next_round]. rewrite parse_loop_S.
    cbn [makeIdent get_id get_str token_id str].
    pose proof (collect_args_all_words stale ws [Some w] false) as C.
    destruct (tokens_front stale (map makeIdent ws)) as [peek o].
    cbn [fst snd orb] in C. rewrite andb_false_r. cbn [orb]. rewrite C.
    cbn [next_round].
    change (foldl apply_redir _ (stage_redirs s))
      with (stage_node (uninitialised 0) s).
    by destruct (stage_node (uninitialised 0) s).
Qed.

End ParserDenotes.

Lemma buildCommands_append_is_sticky_witness :
  ∃ c oob,
    buildCommands (make END) (λ _, false)
      [makeIdent "a"; make APPEND_OUT; makeIdent "f"; make REDIR_OUT; makeIdent "g"]
    = Some (mkParse (Chain c) oob)
    ∧ append c = true ∧ redir_out c = Some "g".
Proof.
  apply (buildCommands_append_is_sticky (make END) (λ _, false)
           (mkLine (mkStage "a" [] [(RedirAppend, "f"); (RedirOut, "g")]) false [] false)
           [] [] "f" "g").
  reflexivity.
Defined.

Lemma buildCommands_append_left_unset_witness :
  ∃ c oob,
    buildCommands (make END) (λ _, true)
      [makeIdent "a"; make REDIR_OUT; makeIdent "g"]
    = Some (mkParse (Chain c) oob)
    ∧ append c = true.
Proof.
  apply (buildCommands_append_left_unset (make END) (λ _, true)
           (mkLine (mkStage "a" [] [(RedirOut, "g")]) false [] false)).
  repeat constructor; discriminate.
Defined.

Lemma buildCommands_identifier_after_redirection_witness :
  buildCommands (make END) (λ _, false) (tokens_of "cat < in foo bar")
  = Some (mkParse
            (Chain (mkCommand (Some "foo") (Some [Some "foo"; Some "bar"]) false false
                      (Some "in") None None))
            true).
Proof.
  apply (buildCommands_identifier_after_redirection (make END) (λ _, false)
           (mkStage "cat" [] [(RedirIn, "in")]) "foo" ["bar"]).
  discriminate.
Defined.

(** ** The launcher and the driver: what the shell process does *)

Lemma mapM_id_Some {A : Type} (l : list A) :
  mapM (λ a : option A, a) (map Some l) = Some l.
Proof. induction l as [|x l IH]; [reflexivity|]. simpl. by rewrite IH. Qed.

Lemma omap_id_Some {A : Type} (l : list A) :
  omap (λ a : option A, a) (map Some l) = l.
Proof. induction l as [|x l IH]; [reflexivity|]. simpl. f_equal. exact IH. Qed.

(** For a launchable node the argument vector of [execvp] is the C strings
    of [args], and nothing is dereferenced that is null. *)
Lemma build_c_args_launchable (cmd : Command) :
  launchable cmd →
  build_c_args cmd = ([], Returns (stage_argv cmd))
  ∧ command cmd = Some (stage_name cmd).
Proof.
  intros (name & words & Hc & Ha).
  assert (Hargv : stage_argv cmd = c_str name :: map c_str words).
  { unfold stage_argv. by rewrite Ha, omap_id_Some. }
  rewrite Hargv. unfold build_c_args, stage_name.
  rewrite Hc, Ha. cbn [map tail deref]. split; [|reflexivity].
  simpl. rewrite mapM_id_Some. simpl.
  rewrite length_map, <- (length_map c_str words). by rewrite firstn_all.
Qed.

Section Launcher.

Variable pipe_ok : nat → bool.
Variable open_ok : string → bool.

Lemma executeCommand_fd_stage (n : nat) (cmd : Command) (input : Fd) :
  launchable cmd →
  executeCommand_fd pipe_ok n cmd input
  = if pipe_ok n
    then
      match pipe_to cmd with
      | None =>
          ([Pipe n; Fork (StageChild input n (stage_name cmd) (stage_argv cmd));
            Close (PipeWrite n)], Returns (PipeRead n))
      | Some next =>
          let (tr, e) := executeCommand_fd pipe_ok (S n) next (PipeRead n) in
          ([Pipe n; Fork (StageChild input n (stage_name cmd) (stage_argv cmd));
            Close (PipeWrite n)] ++ tr, e)
      end
    else ([Pipe n; Perror "pipe"], Exits EXIT_FAILURE).
Proof.
  intros Hl. destruct (build_c_args_launchable cmd Hl) as [Hargs Hname].
  rewrite executeCommand_fd_unfold, Hargs, Hname.
  destruct (pipe_ok n); [|reflexivity].
  destruct (pipe_to cmd) as [next|]; [|reflexivity].
  simpl. by destruct (executeCommand_fd pipe_ok (S n) next (PipeRead n)) as [tr []].
Qed.

Lemma launch_all (cmd : Command) :
  ∀ n input,
    Forall launchable (stages cmd) →
    (∀ k, k < chain_length cmd → pipe_ok (n + k) = true) →
    executeCommand_fd pipe_ok n cmd input
    = (launch_trace n input (stages cmd),
       Returns (PipeRead (n + chain_length cmd - 1))).
Proof.
  induction cmd as [cmd Hlast|cmd next Hnext IH] using Command_chain_ind;
    intros n input Hl Hok.
  - assert (Hs : stages cmd = [cmd]) by (destruct cmd; simpl in *; by subst).
    assert (Hlen : chain_length cmd = 1) by (destruct cmd; simpl in *; by subst).
    rewrite Hs in *. apply Forall_cons in Hl as [Hl _].
    pose proof (Hok 0 ltac:(lia)) as H0. rewrite Nat.add_0_r in H0.
    rewrite executeCommand_fd_stage by exact Hl.
    rewrite H0, Hlast, Hlen. replace (n + 1 - 1) with n by lia. reflexivity.
  - assert (Hs : stages cmd = cmd :: stages next)
      by (destruct cmd; simpl in *; by subst).
    assert (Hlen : chain_length cmd = S (chain_length next))
      by (destruct cmd; simpl in *; by subst).
    rewrite Hs in *. apply Forall_cons in Hl as [Hl Hls].
    rewrite executeCommand_fd_stage by exact Hl.
    pose proof (Hok 0 ltac:(lia)) as H0. rewrite Nat.add_0_r in H0.
    rewrite H0, Hnext, Hlen. rewrite (IH (S n) (PipeRead n) Hls).
    + replace (S n + chain_length next - 1) with (n + S (chain_length next) - 1)
        by lia.
      reflexivity.
    + intros k Hk. rewrite <- (Hok (S k)) by lia. f_equal. lia.
Qed.

(** When every [pipe()] succeeds the launcher makes one pipe and one child
    per stage, in the order of the chain; the first child reads the given
    descriptor, each later one the read end of the pipe before it; and the
    launcher returns the read end of the last pipe. *)
Theorem executeCommand_fd_launches (cmd : Command) (n : nat) (input : Fd) :
  Forall launchable (stages cmd) →
  (∀ k, k < chain_length cmd → pipe_ok (n + k) = true) →
  executeCommand_fd pipe_ok n cmd input
  = (launch_trace n input (stages cmd),
     Returns (PipeRead (n + chain_length cmd - 1))).
Proof. apply launch_all. Qed.

(** When a [pipe()] fails the launcher reports it and ends the shell process
    with [EXIT_FAILURE]: the stages before it have been forked, none after
    it is. *)
Theorem executeCommand_fd_pipe_failure (cmd : Command) :
  ∀ n input k,
    Forall launchable (stages cmd) →
    k < chain_length cmd →
    (∀ j, j < k → pipe_ok (n + j) = true) →
    pipe_ok (n + k) = false →
    executeCommand_fd pipe_ok n cmd input
    = (launch_trace n input (take k (stages cmd)) ++ [Pipe (n + k); Perror "pipe"],
       Exits EXIT_FAILURE).
Proof.
  induction cmd as [cmd Hlast|cmd next Hnext IH] using Command_chain_ind;
    intros n input k Hl Hk Hok Hfail.
  - assert (Hs : stages cmd = [cmd]) by (destruct cmd; simpl in *; by subst).
    assert (Hlen : chain_length cmd = 1) by (destruct cmd; simpl in *; by subst).
    rewrite Hs in *. apply Forall_cons in Hl as [Hl _].
    assert (k = 0) as -> by lia. rewrite Nat.add_0_r in Hfail.
    rewrite executeCommand_fd_stage, Hfail by exact Hl.
    by rewrite Nat.add_0_r.
  - assert (Hs : stages cmd = cmd :: stages next)
      by (destruct cmd; simpl in *; by subst).
    assert (Hlen : chain_length cmd = S (chain_length next))
      by (destruct cmd; simpl in *; by subst).
    rewrite Hs in *. apply Forall_cons in Hl as [Hl Hls].
    rewrite executeCommand_fd_stage by exact Hl.
    destruct k as [|k].
    + rewrite Nat.add_0_r in Hfail. rewrite Hfail. by rewrite Nat.add_0_r.
    + pose proof (Hok 0 ltac:(lia)) as H0. rewrite Nat.add_0_r in H0.
      rewrite H0, Hnext. rewrite (IH (S n) (PipeRead n) k Hls).
      * replace (S n + k) with (n + S k) by lia. reflexivity.
      * lia.
      * intros j Hj. rewrite <- (Hok (S j)) by lia. f_equal. lia.
      * rewrite <- Hfail. f_equal. lia.
Qed.

(** The whole driver when nothing fails: the input file is opened first if
    there is one, the stages are launched, the drain process is forked on
    the read end of the last pipe for the last stage, and the shell waits
    or not by the flag of the first stage. *)
Theorem executeCommand_runs (cmd : Command) :
  Forall launchable (stages cmd) →
  (∀ k, k < chain_length cmd → pipe_ok k = true) →
  (∀ path, redir_in cmd = Some path → open_ok path = true) →
  executeCommand pipe_ok open_ok cmd
  = (match redir_in cmd with
     | Some path => [Open path [O_RDONLY]]
     | None => []
     end
     ++ launch_trace 0
          (match redir_in cmd with
           | Some path => FileFd path
           | None => STDIN_FILENO
           end)
          (stages cmd)
     ++ [Fork (DrainChild (PipeRead (chain_length cmd - 1)) (lastCommand cmd));
         if bg cmd then Printf "No need to wait" else Waitpid],
     Returns tt).
Proof.
  intros Hl Hok Hopen. apply executeCommand_returns; [exact Hopen|].
  by apply (launch_all cmd 0).
Qed.

(** When the input file cannot be opened the driver reports it and returns:
    no pipe is made, no process is forked, nothing is waited for. *)
Lemma executeCommand_input_not_opened (cmd : Command) (path : string) :
  redir_in cmd = Some path →
  open_ok path = false →
  executeCommand pipe_ok open_ok cmd = ([Open path [O_RDONLY]; Perror "open"], Returns tt).
Proof. intros Hin Hopen. unfold executeCommand. by rewrite Hin, Hopen. Qed.

Lemma executeCommand_fd_closes (cmd : Command) :
  ∀ n input,
    Forall closes_only_write_ends (executeCommand_fd pipe_ok n cmd input).1.
Proof.
  induction cmd as [cmd Hlast|cmd next Hnext IH] using Command_chain_ind;
    intros n input; rewrite executeCommand_fd_unfold.
  all: apply bind_actions; [by repeat constructor|intros _].
  all: apply bind_actions; [destruct (pipe_ok n); by repeat constructor|intros _].
  all: apply bind_actions; [apply build_c_args_actions|intros c_args].
  all: apply bind_actions; [apply deref_actions|intros name].
  all: apply bind_actions; [by repeat constructor|intros _].
  all: apply bind_actions; [by repeat constructor|intros _].
  - rewrite Hlast. constructor.
  - rewrite Hnext. apply IH.
Qed.

(** The shell process closes the write ends of its pipes and nothing else:
    the read ends and the input file it opened stay open in it. *)
Theorem executeCommand_closes_only_write_ends (cmd : Command) :
  Forall closes_only_write_ends (executeCommand pipe_ok open_ok cmd).1.
Proof.
  unfold executeCommand. apply bind_actions.
  - destruct (redir_in cmd) as [path|].
    + apply bind_actions; [by repeat constructor|intros _].
      destruct (open_ok path).
      * apply bind_actions; [apply executeCommand_fd_closes|intros ?; constructor].
      * apply bind_actions; [by repeat constructor|intros ?; constructor].
    + apply bind_actions; [apply executeCommand_fd_closes|intros ?; constructor].
  - intros [output|]; [|constructor].
    apply bind_actions; [by repeat constructor|intros _].
    destruct (bg cmd); simpl; by repeat constructor.
Qed.

Lemma executeCommand_fd_no_crash (cmd : Command) :
  ∀ n input,
    Forall launchable (stages cmd) →
    (executeCommand_fd pipe_ok n cmd input).2 ≠ Crashes.
Proof.
  induction cmd as [cmd Hlast|cmd next Hnext IH] using Command_chain_ind;
    intros n input Hl.
  - assert (Hs : stages cmd = [cmd]) by (destruct cmd; simpl in *; by subst).
    rewrite Hs in *. apply Forall_cons in Hl as [Hl _].
    rewrite executeCommand_fd_stage, Hlast by exact Hl. by destruct (pipe_ok n).
  - assert (Hs : stages cmd = cmd :: stages next)
      by (destruct cmd; simpl in *; by subst).
    rewrite Hs in *. apply Forall_cons in Hl as [Hl Hls].
    rewrite executeCommand_fd_stage, Hnext by exact Hl.
    destruct (pipe_ok n); [|done]. specialize (IH (S n) (PipeRead n) Hls).
    by destruct (executeCommand_fd pipe_ok (S n) next (PipeRead n)).
Qed.

Lemma executeCommand_no_crash (cmd : Command) :
  Forall launchable (stages cmd) →
  (executeCommand pipe_ok open_ok cmd).2 ≠ Crashes.
Proof.
  intros Hl. unfold executeCommand.
  assert (H : ∀ input, ∃ tr e, executeCommand_fd pipe_ok 0 cmd input = (tr, e)
                               ∧ e ≠ Crashes).
  { intros input. pose proof (executeCommand_fd_no_crash cmd 0 input Hl).
    destruct (executeCommand_fd pipe_ok 0 cmd input) as [tr e]. eauto. }
  destruct (redir_in cmd) as [path|].
  - simpl. destruct (open_ok path); [|by destruct (bg cmd)].
    destruct (H (FileFd path)) as (tr & e & -> & He).
    destruct e; [|done..]. simpl. by destruct (bg cmd).
  - destruct (H STDIN_FILENO) as (tr & e & -> & He).
    destruct e; [|done..]. simpl. by destruct (bg cmd).
Qed.

End Launcher.

Lemma executeCommand_fd_launches_witness :
  executeCommand_fd (λ _, true) 0
    (mkCommand (Some "ls") (Some [Some "ls"; Some "-1"]) false false None None
       (Some (mkCommand (Some "head") (Some [Some "head"; Some "-n"; Some "4"])
                false false None (Some "out") None)))
    STDIN_FILENO
  = ([Pipe 0; Fork (StageChild STDIN_FILENO 0 "ls" ["ls"; "-1"]); Close (PipeWrite 0);
      Pipe 1; Fork (StageChild (PipeRead 0) 1 "head" ["head"; "-n"; "4"]);
      Close (PipeWrite 1)],
     Returns (PipeRead 1)).
Proof.
  apply (executeCommand_fd_launches (λ _, true)
           (mkCommand (Some "ls") (Some [Some "ls"; Some "-1"]) false false None None
              (Some (mkCommand (Some "head") (Some [Some "head"; Some "-n"; Some "4"])
                       false false None (Some "out") None)))
           0 STDIN_FILENO).
  - apply Forall_cons_2; [by exists "ls", ["-1"]|].
    apply Forall_cons_2; [by exists "head", ["-n"; "4"]|apply Forall_nil_2].
  - reflexivity.
Defined.

Lemma executeCommand_fd_pipe_failure_witness :
  executeCommand_fd (λ n, Nat.eqb n 0) 0
    (mkCommand (Some "ls") (Some [Some "ls"; Some "-1"]) false false None None
       (Some (mkCommand (Some "head") (Some [Some "head"; Some "-n"; Some "4"])
                false false None (Some "out") None)))
    STDIN_FILENO
  = ([Pipe 0; Fork (StageChild STDIN_FILENO 0 "ls" ["ls"; "-1"]); Close (PipeWrite 0);
      Pipe 1; Perror "pipe"],
     Exits EXIT_FAILURE).
Proof.
  apply (executeCommand_fd_pipe_failure (λ n, Nat.eqb n 0)
           (mkCommand (Some "ls") (Some [Some "ls"; Some "-1"]) false false None None
              (Some (mkCommand (Some "head") (Some [Some "head"; Some "-n"; Some "4"])
                       false false None (Some "out") None)))
           0 STDIN_FILENO 1).
  - apply Forall_cons_2; [by exists "ls", ["-1"]|].
    apply Forall_cons_2; [by exists "head", ["-n"; "4"]|apply Forall_nil_2].
  - simpl. lia.
  - intros j Hj. assert (j = 0) as -> by lia. reflexivity.
  - reflexivity.
Defined.

Lemma executeCommand_runs_witness :
  executeCommand (λ _, true) (λ _, true)
    (mkCommand (Some "cat") (Some [Some "cat"]) false false (Some "1") None
       (Some (mkCommand (Some "head") (Some [Some "head"; Some "-n"; Some "3"])
                false false None (Some "foobar") None)))
  = ([Open "1" [O_RDONLY];
      Pipe 0; Fork (StageChild (FileFd "1") 0 "cat" ["cat"]); Close (PipeWrite 0);
      Pipe 1; Fork (StageChild (PipeRead 0) 1 "head" ["head"; "-n"; "3"]);
      Close (PipeWrite 1);
      Fork (DrainChild (PipeRead 1)
              (mkCommand (Some "head") (Some [Some "head"; Some "-n"; Some "3"])
                 false false None (Some "foobar") None));
      Waitpid],
     Returns tt).
Proof.
  apply (executeCommand_runs (λ _, true) (λ _, true)
           (mkCommand (Some "cat") (Some [Some "cat"]) false false (Some "1") None
              (Some (mkCommand (Some "head") (Some [Some "head"; Some "-n"; Some "3"])
                       false false None (Some "foobar") None)))).
  - apply Forall_cons_2; [by exists "cat", []|].
    apply Forall_cons_2; [by exists "head", ["-n"; "3"]|apply Forall_nil_2].
  - reflexivity.
  - reflexivity.
Defined.

(** ** The drain process: what it writes *)

(** What an [open] that succeeds leaves: the descriptor is on the path, and
    no other file and nothing of the standard output has changed. *)
Lemma sys_open_frame (os os' : Os) (path : string) (flags : list OpenFlag)
    (mode : list ModeBit) (fd : OpenFile) :
  sys_open os path flags mode = Some (fd, os') →
  of_path fd = path
  ∧ (∀ other, other ≠ path → os_files os' !! other = os_files os !! other)
  ∧ os_stdout os' = os_stdout os
  ∧ os_privileged os' = os_privileged os
  ∧ os_umask os' = os_umask os
  ∧ os_unreachable os' = os_unreachable os.
Proof.
  unfold sys_open. intros E.
  destruct (os_unreachable os path); [discriminate|].
  destruct (os_files os !! path) as [f|].
  - destruct (os_privileged os || bool_decide (S_IWUSR ∈ file_mode f));
      [|discriminate].
    destruct (bool_decide (O_TRUNC ∈ flags)); injection E as <- <-;
      repeat split; try reflexivity.
    intros other Hne. by apply lookup_insert_ne.
  - destruct (bool_decide (O_CREAT ∈ flags)); [|discriminate].
    injection E as <- <-. repeat split; try reflexivity.
    intros other Hne. by apply lookup_insert_ne.
Qed.

(** With an output redirection the drain process touches the target only:
    every other file is as it was, and nothing goes to the standard output
    of the shell. *)
Theorem drain_touches_only_target (last_command : Command) (path : string)
    (incoming : list Byte.byte) (os : Os) :
  redir_out last_command = Some path →
  (∀ other, other ≠ path →
     os_files (drain last_command incoming os) !! other = os_files os !! other)
  ∧ os_stdout (drain last_command incoming os) = os_stdout os.
Proof.
  intros Hout. unfold drain. rewrite Hout.
  destruct (sys_open os path _ _) as [[fd os']|] eqn:E; [|by split].
  destruct (sys_open_frame _ _ _ _ _ _ E) as (Hfd & Hfiles & Hstdout & _).
  destruct (copy_to_file_frame incoming fd os') as [H1 H2].
  rewrite Hfd in H1. split; [|by rewrite H2].
  intros other Hne. by rewrite (H1 other Hne), (Hfiles other Hne).
Qed.

(** The drain process changes neither who the process is, nor its umask,
    nor which paths can be reached. *)
Lemma drain_access (last_command : Command) (incoming : list Byte.byte) (os : Os) :
  os_privileged (drain last_command incoming os) = os_privileged os
  ∧ os_umask (drain last_command incoming os) = os_umask os
  ∧ os_unreachable (drain last_command incoming os) = os_unreachable os.
Proof.
  unfold drain. destruct (redir_out last_command) as [path|]; [|by repeat split].
  destruct (sys_open os path _ _) as [[fd os']|] eqn:E; [|by repeat split].
  destruct (copy_to_file_access incoming fd os') as (-> & -> & ->).
  by destruct (sys_open_frame _ _ _ _ _ _ E) as (_ & _ & _ & ? & ? & ?).
Qed.

Lemma writable_after_drain (last_command : Command) (path : string)
    (incoming : list Byte.byte) (os : Os) :
  redir_out last_command = Some path →
  writable os path = true →
  writable (drain last_command incoming os) path = true
  ∧ file_mode (file_before (drain last_command incoming os) path)
    = file_mode (file_before os path).
Proof.
  intros Hout Hw. destruct (drain_to_file _ _ incoming _ Hout Hw) as (H & _ & _).
  destruct (drain_access last_command incoming os) as (Hp & _ & Hu).
  assert (file_mode (file_before (drain last_command incoming os) path)
          = file_mode (file_before os path)) as Hmode.
  { unfold file_before at 1. by rewrite H. }
  split; [|exact Hmode].
  unfold writable in *. by rewrite Hmode, Hp, Hu.
Qed.

(** Two pipelines that redirect to the same file, one after the other: when
    the second appends, the file holds what the first left followed by the
    output of the second; when the second truncates, only the output of the
    second.  So [echo hoi > f] and then [echo hai >> f] leave both lines. *)
Theorem drain_twice (first second : Command) (path : string)
    (out1 out2 : list Byte.byte) (os : Os) :
  redir_out first = Some path →
  redir_out second = Some path →
  writable os path = true →
  file_bytes <$> os_files (drain second out2 (drain first out1 os)) !! path
  = Some (if append second
          then (if append first then file_bytes (file_before os path) else [])
               ++ out1 ++ out2
          else out2).
Proof.
  intros H1 H2 Hw.
  destruct (drain_to_file _ _ out1 _ H1 Hw) as (Hf1 & _ & _).
  destruct (writable_after_drain _ _ out1 _ H1 Hw) as [Hw1 _].
  destruct (drain_to_file _ _ out2 _ H2 Hw1) as (Hf2 & _ & _).
  rewrite Hf2. simpl. unfold file_before at 1. rewrite Hf1. simpl.
  destruct (append second); [|reflexivity]. by rewrite <- app_assoc.
Qed.

(** Without an output redirection the drain process copies to the standard
    output and touches no file. *)
Lemma drain_to_stdout (last_command : Command) (incoming : list Byte.byte) (os : Os) :
  redir_out last_command = None →
  drain last_command incoming os = set_stdout (os_stdout os ++ incoming) os.
Proof. intros H. unfold drain. by rewrite H. Qed.

Lemma drain_touches_only_target_witness :
  (∀ other, other ≠ "foobar" →
     os_files
       (drain (mkCommand (Some "echo") (Some [Some "echo"; Some "hai"]) false false
                 None (Some "foobar") None)
          [Byte.x68; Byte.x61; Byte.x69]
          (mkOs {[ "notes" := mkFile [S_IRUSR; S_IWUSR] [Byte.x68; Byte.x6f; Byte.x69] ]}
             [] [] false [] (λ _, false)))
     !! other
     = os_files
         (mkOs {[ "notes" := mkFile [S_IRUSR; S_IWUSR] [Byte.x68; Byte.x6f; Byte.x69] ]}
            [] [] false [] (λ _, false))
       !! other)
  ∧ os_stdout
      (drain (mkCommand (Some "echo") (Some [Some "echo"; Some "hai"]) false false
                None (Some "foobar") None)
         [Byte.x68; Byte.x61; Byte.x69]
         (mkOs {[ "notes" := mkFile [S_IRUSR; S_IWUSR] [Byte.x68; Byte.x6f; Byte.x69] ]}
            [] [] false [] (λ _, false)))
    = os_stdout
        (mkOs {[ "notes" := mkFile [S_IRUSR; S_IWUSR] [Byte.x68; Byte.x6f; Byte.x69] ]}
           [] [] false [] (λ _, false)).
Proof.
  apply (drain_touches_only_target
           (mkCommand (Some "echo") (Some [Some "echo"; Some "hai"]) false false
              None (Some "foobar") None)
           "foobar" [Byte.x68; Byte.x61; Byte.x69]
           (mkOs {[ "notes" := mkFile [S_IRUSR; S_IWUSR] [Byte.x68; Byte.x6f; Byte.x69] ]}
              [] [] false [] (λ _, false))).
  reflexivity.
Defined.

Lemma drain_twice_witness :
  file_bytes
  <$> os_files
        (drain (mkCommand (Some "echo") (Some [Some "echo"; Some "hai"]) false true
                  None (Some "foobar") None)
           [Byte.x68; Byte.x61; Byte.x69]
           (drain (mkCommand (Some "echo") (Some [Some "echo"; Some "hoi"]) false false
                     None (Some "foobar") None)
              [Byte.x68; Byte.x6f; Byte.x69]
              (mkOs ∅ [] [] false [] (λ _, false))))
      !! "foobar"
  = Some [Byte.x68; Byte.x6f; Byte.x69; Byte.x68; Byte.x61; Byte.x69].
Proof.
  apply (drain_twice
           (mkCommand (Some "echo") (Some [Some "echo"; Some "hoi"]) false false
              None (Some "foobar") None)
           (mkCommand (Some "echo") (Some [Some "echo"; Some "hai"]) false true
              None (Some "foobar") None)
           "foobar" [Byte.x68; Byte.x6f; Byte.x69] [Byte.x68; Byte.x61; Byte.x69]
           (mkOs ∅ [] [] false [] (λ _, false)));
    reflexivity.
Defined.

(** ** The command loop *)

Lemma ends_with_gt_cons (c : ascii) (s : string) :
  s ≠ EmptyString → ends_with_gt (String c s) = ends_with_gt s.
Proof. destruct s; [contradiction|reflexivity]. Qed.

Lemma ends_with_gt_app (a b : string) :
  b ≠ EmptyString → ends_with_gt (a ++ b) = ends_with_gt b.
Proof.
  intros Hb. induction a as [|c a IH]; [reflexivity|].
  rewrite string_app_cons, ends_with_gt_cons; [exact IH|].
  destruct a; [exact Hb|discriminate].
Qed.

Lemma ends_with_gt_space (s : string) :
  ends_with_gt (String " " s) = ends_with_gt s.
Proof. by destruct s. Qed.

Lemma ends_with_gt_word (w : string) :
  delimiter_free w = true → ends_with_gt w = false.
Proof.
  induction w as [|c w IH]; [reflexivity|].
  cbn [delimiter_free]. intros [Hc Hw]%andb_true_iff. destruct w as [|d w].
  - apply negb_true_iff in Hc. simpl in Hc.
    repeat (apply orb_false_iff in Hc as [? Hc]). assumption.
  - rewrite ends_with_gt_cons by discriminate. auto.
Qed.

Lemma closes_literal (t : Token) :
  lexer_token t = true → closes t = true → ends_with_gt (literal t) = false.
Proof.
  destruct t as [[] [s|]]; unfold lexer_token, closes, literal; simpl;
    try discriminate; try reflexivity.
  destruct s; [discriminate|]. intros H _. by apply ends_with_gt_word.
Qed.

Lemma join_spaces_no_gt (ts : list Token) :
  Forall (λ t, lexer_token t = true) ts → tail_closed ts →
  ends_with_gt (join_spaces (map literal ts)) = false.
Proof.
  induction 1 as [|t ts Ht Hts IH]; intros Hc; [reflexivity|].
  destruct ts as [|u ts].
  - by apply closes_literal.
  - change (join_spaces (map literal (t :: u :: ts)))
      with (literal t ++ String " " (join_spaces (map literal (u :: ts))))%string.
    rewrite ends_with_gt_app by discriminate. rewrite ends_with_gt_space.
    apply IH. unfold tail_closed in *. by rewrite last_cons_cons in Hc.
Qed.

Lemma tail_closed_app (l k : list Token) :
  tail_closed l → tail_closed k → tail_closed (l ++ k).
Proof.
  unfold tail_closed. rewrite last_app. by destruct (last k).
Qed.

Lemma tail_closed_cons (t : Token) (k : list Token) :
  last k ≠ None → tail_closed k → tail_closed (t :: k).
Proof.
  unfold tail_closed. rewrite last_cons. by destruct (last k).
Qed.

Lemma tail_closed_words (ws : list string) : tail_closed (map makeIdent ws).
Proof.
  induction ws as [|w ws IH]; [exact I|].
  unfold tail_closed in *. cbn [map]. rewrite last_cons.
  by destruct (last (map makeIdent ws)).
Qed.

Lemma tail_closed_redirs (rs : list (Redir * string)) : tail_closed (redirs_tokens rs).
Proof.
  induction rs as [|r rs IH]; [exact I|].
  change (redirs_tokens (r :: rs))
    with ([redir_token r.1; makeIdent r.2] ++ redirs_tokens rs).
  by apply tail_closed_app.
Qed.

Lemma tail_closed_background (b : bool) : tail_closed (background_tokens b).
Proof. by destruct b. Qed.

Lemma stage_tokens_closed (s : Stage) :
  last (stage_tokens s) ≠ None ∧ tail_closed (stage_tokens s).
Proof.
  unfold stage_tokens. split.
  - rewrite last_cons. by destruct (last _).
  - change (tail_closed ([makeIdent (stage_program s)]
                         ++ (map makeIdent (stage_words s)
                             ++ redirs_tokens (stage_redirs s)))).
    apply tail_closed_app; [reflexivity|].
    apply tail_closed_app; [apply tail_closed_words|apply tail_closed_redirs].
Qed.

Lemma tail_closed_piped (more : list Stage) (final : bool) :
  tail_closed (piped_tokens more final).
Proof.
  unfold piped_tokens. apply tail_closed_app; [|apply tail_closed_background].
  induction more as [|s more IH]; [exact I|].
  cbn [flat_map]. apply tail_closed_app; [|exact IH].
  apply tail_closed_cons; apply stage_tokens_closed.
Qed.

Lemma line_tokens_closed (l : Line) : tail_closed (line_tokens l).
Proof.
  unfold line_tokens. apply tail_closed_app; [apply stage_tokens_closed|].
  apply tail_closed_app; [apply tail_closed_background|apply tail_closed_piped].
Qed.

Lemma lexical_line_Forall (l : Line) :
  lexical_line l = true → Forall (λ t, lexer_token t = true) (line_tokens l).
Proof.
  unfold lexical_line. rewrite forallb_forall, Forall_forall.
  intros H t Ht. apply H. by apply list_elem_of_In.
Qed.

(** The lexer reads a written-out line of the grammar back as the tokens of
    the line, without a read past its end. *)
Lemma tokens_of_line_text (l : Line) :
  lexical_line l = true → tokens_of (line_text l) = line_tokens l.
Proof. intros H. apply tokens_of_join. by apply lexical_line_Forall. Qed.

Lemma past_end_of_line_text (l : Line) :
  lexical_line l = true → past_end_of (line_text l) = false.
Proof.
  intros H. unfold past_end_of.
  destruct (tokenList (line_text l)) as [r|] eqn:E; [|reflexivity].
  destruct (past_end r) eqn:Hr; [|reflexivity].
  destruct (tokenList_loop_past_end _ _ _ _ _ E Hr) as [?|[before Hb]];
    [discriminate|].
  pose proof (join_spaces_no_gt _ (lexical_line_Forall l H) (line_tokens_closed l))
    as Hgt.
  fold (line_text l) in Hgt. rewrite Hb, ends_with_gt_app in Hgt by discriminate.
  discriminate.
Qed.

Lemma line_text_not_empty (l : Line) :
  lexical_line l = true → line_text l ≠ EmptyString.
Proof.
  intros H E. pose proof (tokens_of_line_text l H) as Ht. rewrite E in Ht.
  discriminate.
Qed.

Lemma pipe_to_foldl_apply_redir (rs : list (Redir * string)) :
  ∀ cmd, pipe_to (foldl apply_redir cmd rs) = pipe_to cmd.
Proof.
  induction rs as [|[[] f] rs IH]; intros cmd; [reflexivity|..];
    cbn [foldl]; rewrite IH; by destruct cmd.
Qed.

(** The first node of the chain of a line: its name and argument vector are
    those of the first stage, and it has a next stage exactly when the line
    has a pipe. *)
Lemma line_chain_first (uninitialised : nat → bool) (l : Line) :
  command (line_chain uninitialised l) = Some (c_str (stage_program (first_stage l)))
  ∧ args (line_chain uninitialised l)
    = Some (map Some (stage_program (first_stage l) :: stage_words (first_stage l)))
  ∧ (piped_stages l = [] → pipe_to (line_chain uninitialised l) = None)
  ∧ (piped_stages l ≠ [] → pipe_to (line_chain uninitialised l) ≠ None).
Proof.
  destruct l as [s fb more final]. unfold line_chain.
  cbn [first_stage first_background piped_stages final_background].
  pose proof (command_foldl_apply_redir (stage_redirs s)) as Hc.
  pose proof (args_foldl_apply_redir (stage_redirs s)) as Ha.
  pose proof (pipe_to_foldl_apply_redir (stage_redirs s)) as Hp.
  unfold stage_node.
  set (base := mkCommand _ _ _ _ _ _ _).
  specialize (Hc base). specialize (Ha base). specialize (Hp base).
  destruct (foldl apply_redir base (stage_redirs s)) as [c a b ap ri ro p].
  simpl in Hc, Ha, Hp. subst c a p.
  destruct more as [|s' more]; destruct fb, final; simpl; repeat split;
    intros; congruence.
Qed.

(** On the tokens of the lexer the parser goes through no null pointer. *)
Lemma parse_no_null_deref (stale : Token) (uninitialised : nat → bool) (fuel : nat) :
  (∀ depth tokens r,
     forallb parser_token tokens = true →
     buildCommands_fuel stale uninitialised fuel depth tokens = Some r →
     ret r ≠ NullDeref)
  ∧ (∀ depth cmd cur tokens oob r,
       forallb parser_token (cur :: tokens) = true →
       parse_loop stale uninitialised fuel depth cmd cur tokens oob = Some r →
       ret r ≠ NullDeref).
Proof.
  induction fuel as [|fuel [IHc IHr]]; [split; discriminate|].
  assert (Hnext : ∀ depth cmd tokens oob r,
            forallb parser_token tokens = true →
            next_round (parse_loop stale uninitialised fuel depth) cmd tokens oob
            = Some r →
            ret r ≠ NullDeref).
  { intros depth cmd [|t tokens] oob r Hp H; simpl in H; [|eauto].
    destruct (command cmd); injection H as <-; discriminate. }
  assert (Hredir : ∀ depth store cmd tokens oob r,
            forallb parser_token tokens = true →
            redirect_case (parse_loop stale uninitialised fuel depth) store cmd
              tokens oob
            = Some r →
            ret r ≠ NullDeref).
  { intros depth store cmd [|peek tokens] oob r Hp H; simpl in H.
    { injection H as <-. discriminate. }
    cbn [forallb] in Hp. apply andb_true_iff in Hp as [Hpeek Hp].
    destruct (get_id peek) eqn:E; try (injection H as <-; discriminate).
    destruct (parser_token_ident _ Hpeek E) as [file Hfile].
    rewrite Hfile in H. eauto. }
  split.
  - intros depth tokens r Hp H. rewrite buildCommands_fuel_S in H.
    destruct tokens as [|t tokens]; [injection H as <-; discriminate|].
    destruct (get_id t); try (injection H as <-; discriminate). eauto.
  - intros depth cmd cur tokens oob r Hp H. rewrite parse_loop_S in H.
    pose proof Hp as Hp'. cbn [forallb] in Hp'.
    apply andb_true_iff in Hp' as [Hcur Htokens].
    destruct (get_id cur) eqn:E; eauto.
    + pose proof (collect_args_taken stale tokens [get_str cur] oob) as Hc.
      destruct (tokens_front stale tokens) as [peek o] eqn:F.
      destruct (parser_token_ident _ Hcur E) as [name Hname].
      rewrite Hname in H, Hc.
      destruct (collect_args _ _ _ _ _) as [[args tokens'] oob'] eqn:C.
      destruct (Hc _ _ _ eq_refl) as (taken & -> & _ & _ & _).
      rewrite forallb_app in Htokens. apply andb_true_iff in Htokens as [_ Hp2].
      eauto.
    + destruct (buildCommands_fuel stale uninitialised fuel (S depth) tokens)
        as [p|] eqn:Ec; [|discriminate].
      unfold pipe_case in H. pose proof (IHc _ _ _ Htokens Ec) as Hn.
      destruct (ret p) eqn:Er; injection H as <-; try discriminate. congruence.
    + injection H as <-. discriminate.
Qed.

(** [exit], alone on its line or with anything after it. *)
Lemma executeBuiltin_exit (chdir_ok : string → bool) (cmd : Command) :
  pipe_to cmd = None → command cmd = Some "exit" →
  executeBuiltin chdir_ok cmd = ([], Exits 0).
Proof. intros Hp Hc. unfold executeBuiltin. by rewrite Hp, Hc. Qed.

Lemma executeBuiltin_cd (chdir_ok : string → bool) (cmd : Command)
    (first dir : string) :
  pipe_to cmd = None → command cmd = Some "cd" →
  args cmd = Some [Some first; Some dir] →
  executeBuiltin chdir_ok cmd
  = (Chdir (c_str dir)
     :: (if chdir_ok (c_str dir) then [] else [Sys (Perror "cd")]),
     Returns true).
Proof.
  intros Hp Hc Ha. unfold executeBuiltin. rewrite Hp, Hc, Ha. simpl.
  by destruct (chdir_ok (c_str dir)).
Qed.

Lemma executeBuiltin_pipeline (chdir_ok : string → bool) (cmd : Command) :
  pipe_to cmd ≠ None → executeBuiltin chdir_ok cmd = ([], Returns false).
Proof. intros Hp. unfold executeBuiltin. by destruct (pipe_to cmd). Qed.

Lemma executeBuiltin_other (chdir_ok : string → bool) (cmd : Command)
    (name first : string) (words : list string) :
  command cmd = Some name → args cmd = Some (map Some (first :: words)) →
  name ≠ "exit" → name ≠ "cd" ∨ length words ≠ 1 →
  executeBuiltin chdir_ok cmd = ([], Returns false).
Proof.
  intros Hc Ha Hexit Hcd. unfold executeBuiltin.
  destruct (pipe_to cmd); [reflexivity|]. rewrite Hc, Ha. simpl.
  rewrite bool_decide_eq_false_2 by exact Hexit.
  destruct words as [|dir [|? ?]]; simpl; try reflexivity.
  destruct Hcd as [Hcd|Hcd]; [|by simpl in Hcd].
  by rewrite bool_decide_eq_false_2 by exact Hcd.
Qed.

Lemma executeBuiltin_no_crash (chdir_ok : string → bool) (cmd : Command) :
  launchable cmd → (executeBuiltin chdir_ok cmd).2 ≠ Crashes.
Proof.
  intros (name & words & Hc & Ha). unfold executeBuiltin.
  destruct (pipe_to cmd); [discriminate|]. rewrite Hc, Ha. simpl.
  case_bool_decide; [discriminate|].
  destruct words as [|dir [|? ?]]; simpl; try discriminate.
  case_bool_decide; [|discriminate]. by destruct (chdir_ok (c_str dir)).
Qed.

Section ShellRound.

Variable stale : Token.
Variable uninitialised : nat → bool.
Variable pipe_ok : nat → bool.
Variable open_ok : string → bool.
Variable chdir_ok : string → bool.
Variable stdin_left : Command → list string → list string.

(** A round of the loop on a line that is not empty. *)
Lemma shell_body_unfold (showPrompt : bool) (line : string) (stdin : list string) :
  line ≠ EmptyString →
  let parse := parse_of stale uninitialised (tokens_of line) in
  let m : Run (list string) :=
    match ret parse with
    | NullDeref => run_crash
    | Nullptr => event (Cerr "Error in command syntax");; mret stdin
    | Chain command =>
        builtin ← executeBuiltin chdir_ok command;
        if builtin : bool then mret stdin
        else lift (executeCommand pipe_ok open_ok command);;
             mret (stdin_left command stdin)
    end in
  shell_body stale uninitialised pipe_ok open_ok chdir_ok stdin_left showPrompt
    (line :: stdin)
  = ((if showPrompt then [Prompt] else [])
     ++ (if past_end_of line then [PeekPastEnd] else [])
     ++ (if front_of_empty parse then [FrontOfEmpty] else [])
     ++ m.1, m.2).
Proof.
  intros Hline. cbv zeta. unfold shell_body, requestCommandLine.
  assert (E : (((if showPrompt then event Prompt else mret ())
                ≫= λ _ : (), mret (line, stdin)) : Run (string * list string))
              = (if showPrompt then [Prompt] else [], Returns (line, stdin))).
  { by destruct showPrompt. }
  rewrite E. cbn [mbind Run_bind fst snd].
  rewrite bool_decide_eq_false_2 by exact Hline.
  generalize (parse_of stale uninitialised (tokens_of line)). intros parse.
  destruct (ret parse) as [c| |].
  - set (m := executeBuiltin chdir_ok c ≫= _). clearbody m. destruct m as [tr e].
    by destruct showPrompt, (past_end_of line), (front_of_empty parse).
  - by destruct showPrompt, (past_end_of line), (front_of_empty parse).
  - by destruct showPrompt, (past_end_of line), (front_of_empty parse).
Qed.

(** A round of the loop on a line of the grammar: the heading, then the
    builtin or the executor on the chain of the line. *)
Lemma shell_body_line (showPrompt : bool) (l : Line) (stdin : list string) :
  lexical_line l = true →
  let m : Run (list string) :=
    builtin ← executeBuiltin chdir_ok (line_chain uninitialised l);
    if builtin : bool then mret stdin
    else lift (executeCommand pipe_ok open_ok (line_chain uninitialised l));;
         mret (stdin_left (line_chain uninitialised l) stdin) in
  shell_body stale uninitialised pipe_ok open_ok chdir_ok stdin_left showPrompt
    (line_text l :: stdin)
  = (heading showPrompt l ++ m.1, m.2).
Proof.
  intros H m.
  rewrite (shell_body_unfold _ _ _ (line_text_not_empty l H)).
  rewrite (tokens_of_line_text l H), (past_end_of_line_text l H).
  unfold parse_of. rewrite parse_line. cbn [ret front_of_empty app].
  fold m. unfold heading. by rewrite <- app_assoc.
Qed.

Lemma shell_body_exit (showPrompt : bool) (l : Line) (stdin : list string) :
  lexical_line l = true →
  piped_stages l = [] →
  c_str (stage_program (first_stage l)) = "exit" →
  shell_body stale uninitialised pipe_ok open_ok chdir_ok stdin_left showPrompt
    (line_text l :: stdin)
  = (heading showPrompt l, Exits 0).
Proof.
  intros Hl Hp Hn. rewrite (shell_body_line _ _ _ Hl).
  destruct (line_chain_first uninitialised l) as (Hc & _ & Hnone & _).
  rewrite executeBuiltin_exit; [|by apply Hnone|by rewrite Hc, Hn].
  simpl. by rewrite app_nil_r.
Qed.

(** On a line of the grammar without a pipe that is [cd] with exactly one
    word, the loop calls [chdir] on that word, reports a failure with
    [perror], launches nothing and goes on; redirections and [&] on the
    line have no effect.  The program name and the word count as the C
    strings they are passed as. *)
Theorem shell_cd (showPrompt : bool) (l : Line) (dir : string) (stdin : list string) :
  lexical_line l = true →
  piped_stages l = [] →
  c_str (stage_program (first_stage l)) = "cd" →
  stage_words (first_stage l) = [dir] →
  shell_body stale uninitialised pipe_ok open_ok chdir_ok stdin_left showPrompt
    (line_text l :: stdin)
  = (heading showPrompt l
     ++ Chdir (c_str dir)
        :: (if chdir_ok (c_str dir) then [] else [Sys (Perror "cd")]),
     Returns stdin).
Proof.
  intros Hl Hp Hn Hw. rewrite (shell_body_line _ _ _ Hl).
  destruct (line_chain_first uninitialised l) as (Hc & Ha & Hnone & _).
  rewrite (executeBuiltin_cd _ _ (stage_program (first_stage l)) dir);
    [|by apply Hnone|by rewrite Hc, Hn|by rewrite Ha, Hw].
  simpl. by rewrite app_nil_r.
Qed.

(** Every other line of the grammar goes to the executor as it is: a line
    with a pipe, also when its first program is [exit] or [cd], and a line
    whose program name, as the C string [strcmp] sees, is neither [exit]
    nor a [cd] with exactly one word. *)
Theorem shell_launches (showPrompt : bool) (l : Line) (stdin : list string) :
  lexical_line l = true →
  piped_stages l ≠ []
  ∨ (c_str (stage_program (first_stage l)) ≠ "exit"
     ∧ (c_str (stage_program (first_stage l)) ≠ "cd"
        ∨ length (stage_words (first_stage l)) ≠ 1)) →
  shell_body stale uninitialised pipe_ok open_ok chdir_ok stdin_left showPrompt
    (line_text l :: stdin)
  = (heading showPrompt l
     ++ map Sys (executeCommand pipe_ok open_ok (line_chain uninitialised l)).1,
     handing_back (stdin_left (line_chain uninitialised l) stdin)
       (executeCommand pipe_ok open_ok (line_chain uninitialised l)).2).
Proof.
  intros Hl Hcase. rewrite (shell_body_line _ _ _ Hl).
  destruct (line_chain_first uninitialised l) as (Hc & Ha & _ & Hsome).
  assert (Hb : executeBuiltin chdir_ok (line_chain uninitialised l)
               = ([], Returns false)).
  { destruct Hcase as [Hp|[Hexit Hcd]].
    - apply executeBuiltin_pipeline. by apply Hsome.
    - by apply (executeBuiltin_other _ _ _ _ _ Hc Ha). }
  rewrite Hb.
  destruct (executeCommand pipe_ok open_ok (line_chain uninitialised l)) as [tr [[]| |]];
    simpl; by rewrite ?app_nil_r.
Qed.

(** A line the parser rejects costs a message and nothing else: nothing is
    launched, the directory stays, the parser has not read the emptied
    vector, and the loop goes on with the rest of the standard input. *)
Theorem shell_syntax_error (showPrompt : bool) (line : string) (stdin : list string) :
  line ≠ EmptyString →
  ret (parse_of stale uninitialised (tokens_of line)) = Nullptr →
  shell_body stale uninitialised pipe_ok open_ok chdir_ok stdin_left showPrompt
    (line :: stdin)
  = ((if showPrompt then [Prompt] else [])
     ++ (if past_end_of line then [PeekPastEnd] else [])
     ++ [Cerr "Error in command syntax"],
     Returns stdin).
Proof.
  intros Hline Hret. rewrite (shell_body_unfold _ _ _ Hline). rewrite Hret.
  assert (Hf : front_of_empty (parse_of stale uninitialised (tokens_of line)) = false).
  { revert Hret. unfold parse_of.
    destruct (buildCommands stale uninitialised (tokens_of line)) as [r|] eqn:E;
      [|reflexivity].
    intros Hret. destruct (front_of_empty r) eqn:Hf; [|reflexivity].
    by destruct (proj1 (parse_read_accepted stale uninitialised _) _ _ _ E Hf). }
  rewrite Hf. reflexivity.
Qed.

Lemma shell_body_no_crash (showPrompt : bool) (stdin : list string) :
  (shell_body stale uninitialised pipe_ok open_ok chdir_ok stdin_left showPrompt
     stdin).2 ≠ Crashes.
Proof.
  destruct stdin as [|line stdin]; [by destruct showPrompt|].
  destruct (decide (line = EmptyString)) as [->|Hline]; [by destruct showPrompt|].
  rewrite (shell_body_unfold _ _ _ Hline). cbn [snd].
  pose proof (tokens_of_parser_token line) as Hp.
  unfold parse_of.
  destruct (buildCommands stale uninitialised (tokens_of line)) as [[r oob]|] eqn:E;
    [|discriminate].
  pose proof (proj1 (parse_no_null_deref stale uninitialised _) _ _ _ Hp E) as Hn.
  cbn [ret] in *. destruct r as [c| |]; [|discriminate|done].
  pose proof (proj1 (parse_launchable stale uninitialised _) _ _ _ _ Hp E) as Hl.
  assert (Hc : launchable c).
  { destruct c as [? ? ? ? ? ? [next|]]; simpl in Hl; by apply Forall_cons in Hl as [? _]. }
  pose proof (executeBuiltin_no_crash chdir_ok c Hc) as Hb.
  pose proof (executeCommand_no_crash pipe_ok open_ok c Hl) as He.
  destruct (executeBuiltin chdir_ok c) as [tr [[]| |]]; simpl; try done.
  destruct (executeCommand pipe_ok open_ok c) as [tr' [[]| |]]; simpl; done.
Qed.

(** A round of the interactive loop on an empty line, or at the end of the
    standard input. *)
Lemma shell_body_blank (stdin : list string) :
  Forall (λ line, line = EmptyString) stdin →
  ∃ stdin',
    shell_body stale uninitialised pipe_ok open_ok chdir_ok stdin_left true stdin
    = ([Prompt], Returns stdin')
    ∧ Forall (λ line, line = EmptyString) stdin'.
Proof. intros [|line stdin' -> H]; [by exists []|by exists stdin']. Qed.

End ShellRound.

(** On a line of the grammar without a pipe whose program is [exit], the
    loop ends the shell process with status 0, whatever words, redirections
    or [&] follow on the line; nothing is launched and the rest of the
    standard input is not read.  The program name counts as the C string
    [strcmp] sees. *)
Theorem shell_exit (stale : Token) (uninitialised : nat → nat → bool)
    (pipe_ok : nat → nat → bool) (open_ok chdir_ok : nat → string → bool)
    (stdin_left : nat → Command → list string → list string)
    (fuel : nat) (showPrompt : bool) (l : Line) (stdin : list string) :
  lexical_line l = true →
  piped_stages l = [] →
  c_str (stage_program (first_stage l)) = "exit" →
  shell stale uninitialised pipe_ok open_ok chdir_ok stdin_left (S fuel) showPrompt
    (line_text l :: stdin)
  = (heading showPrompt l, Some (Exits 0)).
Proof.
  intros Hl Hp Hn. cbn [shell]. by rewrite shell_body_exit.
Qed.

(** In the mode without a prompt, where the loop runs once and
    [displayPrompt] is not called, the shell process goes through no null
    pointer whatever stands on the standard input: not in the parser, not
    in the builtins, not in the executor. *)
Theorem shell_no_null_dereference (stale : Token) (uninitialised : nat → nat → bool)
    (pipe_ok : nat → nat → bool) (open_ok chdir_ok : nat → string → bool)
    (stdin_left : nat → Command → list string → list string)
    (fuel : nat) (stdin : list string) :
  (shell stale uninitialised pipe_ok open_ok chdir_ok stdin_left fuel false stdin).2
  ≠ Some Crashes.
Proof.
  destruct fuel as [|fuel]; [discriminate|]. cbn [shell].
  pose proof (shell_body_no_crash stale (uninitialised 0) (pipe_ok 0) (open_ok 0)
                (chdir_ok 0) (stdin_left 0) false stdin) as Hb.
  destruct (shell_body _ _ _ _ _ _ _ _) as [tr [stdin'| |]]; simpl in *; done.
Qed.

(** The interactive loop does not tell the end of the standard input from an
    empty line: once only empty lines are left it shows the prompt again and
    again and never returns. *)
Theorem shell_end_of_input (stale : Token) (uninitialised : nat → nat → bool)
    (pipe_ok : nat → nat → bool) (open_ok chdir_ok : nat → string → bool)
    (stdin_left : nat → Command → list string → list string)
    (fuel : nat) (stdin : list string) :
  Forall (λ line, line = EmptyString) stdin →
  shell stale uninitialised pipe_ok open_ok chdir_ok stdin_left fuel true stdin
  = (repeat Prompt fuel, None).
Proof.
  revert uninitialised pipe_ok open_ok chdir_ok stdin_left stdin.
  induction fuel as [|fuel IH];
    intros uninitialised pipe_ok open_ok chdir_ok stdin_left stdin H; [reflexivity|].
  cbn [shell repeat].
  destruct (shell_body_blank stale (uninitialised 0) (pipe_ok 0) (open_ok 0)
              (chdir_ok 0) (stdin_left 0) stdin H) as (stdin' & -> & H').
  by rewrite (IH _ _ _ _ _ stdin' H').
Qed.

Lemma shell_exit_witness :
  shell (make END) (λ _ _, false) (λ _ _, true) (λ _ _, true) (λ _ _, true)
    (λ _ _ rest, rest) 1 true ["exit 3 > x &"; "ls"]
  = ([Prompt], Some (Exits 0)).
Proof.
  apply (shell_exit (make END) (λ _ _, false) (λ _ _, true) (λ _ _, true)
           (λ _ _, true) (λ _ _ rest, rest) 0 true
           (mkLine (mkStage "exit" ["3"] [(RedirOut, "x")]) true [] false) ["ls"]);
    reflexivity.
Defined.

Lemma shell_cd_witness :
  shell_body (make END) (λ _, false) (λ _, true) (λ _, true) (λ _, false)
    (λ _ rest, rest) true ["cd /nowhere"; "ls"]
  = ([Prompt; FrontOfEmpty; Chdir "/nowhere"; Sys (Perror "cd")], Returns ["ls"]).
Proof.
  apply (shell_cd (make END) (λ _, false) (λ _, true) (λ _, true) (λ _, false)
           (λ _ rest, rest) true
           (mkLine (mkStage "cd" ["/nowhere"] []) false [] false) "/nowhere" ["ls"]);
    reflexivity.
Defined.

Lemma shell_launches_witness :
  shell_body (make END) (λ _, false) (λ _, true) (λ _, true) (λ _, true)
    (λ _ rest, rest) true ["cd"; "ls"]
  = ([Prompt; FrontOfEmpty;
      Sys (Pipe 0); Sys (Fork (StageChild STDIN_FILENO 0 "cd" ["cd"]));
      Sys (Close (PipeWrite 0));
      Sys (Fork (DrainChild (PipeRead 0)
                   (mkCommand (Some "cd") (Some [Some "cd"]) false false None None None)));
      Sys Waitpid],
     Returns ["ls"]).
Proof.
  apply (shell_launches (make END) (λ _, false) (λ _, true) (λ _, true) (λ _, true)
           (λ _ rest, rest) true
           (mkLine (mkStage "cd" [] []) false [] false) ["ls"]).
  - reflexivity.
  - right. split; [discriminate|]. right. simpl. lia.
Defined.

Lemma shell_syntax_error_witness :
  shell_body (make END) (λ _, false) (λ _, true) (λ _, true) (λ _, true)
    (λ _ rest, rest) true ["ls >"; "ls"]
  = ([Prompt; PeekPastEnd; Cerr "Error in command syntax"], Returns ["ls"]).
Proof.
  apply (shell_syntax_error (make END) (λ _, false) (λ _, true) (λ _, true)
           (λ _, true) (λ _ rest, rest) true "ls >" ["ls"]).
  - discriminate.
  - reflexivity.
Defined.

Lemma shell_end_of_input_witness :
  shell (make END) (λ _ _, false) (λ _ _, true) (λ _ _, true) (λ _ _, true)
    (λ _ _ rest, rest) 3 true [EmptyString]
  = ([Prompt; Prompt; Prompt], None).
Proof.
  apply (shell_end_of_input (make END) (λ _ _, false) (λ _ _, true) (λ _ _, true)
           (λ _ _, true) (λ _ _ rest, rest) 3 [EmptyString]).
  apply Forall_cons_2; [reflexivity|apply Forall_nil_2].
Defined.

(** A line whose first word has a NUL in it: [exit], a NUL, [x], and then
    [&].  [strcmp] sees [exit], and the shell process exits. *)
Example shell_exit_embedded_NUL :
  shell (make END) (λ _ _, false) (λ _ _, true) (λ _ _, true) (λ _ _, true)
    (λ _ _ rest, rest) 1 false [("exit" ++ String Ascii.zero "x &")%string; "ls"]
  = ([], Some (Exits 0)).
Proof. reflexivity. Qed.

(** ** The directory name of the prompt *)

Lemma is_prefix_app (p s : string) : is_prefix p (p ++ s) = true.
Proof.
  induction p as [|c p IH]; [reflexivity|].
  rewrite string_app_cons. cbn [is_prefix]. by rewrite Ascii.eqb_refl, IH.
Qed.

Lemma strstr_prefix (haystack needle : string) :
  is_prefix needle haystack = true → strstr haystack needle = Some 0.
Proof. intros H. destruct haystack; cbn [strstr]; by rewrite H. Qed.

(** [strstr] finds the first occurrence. *)
Lemma strstr_first (home rest : string) :
  ∀ pre,
    (∀ j, j < String.length pre →
          is_prefix home (erase0 (pre ++ home ++ rest) j) = false) →
    strstr (pre ++ home ++ rest) home = Some (String.length pre).
Proof.
  induction pre as [|c pre IH]; intros H.
  - rewrite string_app_nil_l. apply strstr_prefix, is_prefix_app.
  - rewrite string_app_cons. cbn [strstr].
    pose proof (H 0 ltac:(simpl; lia)) as H0.
    rewrite string_app_cons in H0. cbn [erase0] in H0. rewrite H0.
    rewrite IH; [reflexivity|].
    intros j Hj. specialize (H (S j) ltac:(simpl; lia)).
    by rewrite string_app_cons in H.
Qed.

Lemma substr0_app_plus (pre s : string) (k : nat) :
  substr0 (pre ++ s) (String.length pre + k) = (pre ++ substr0 s k)%string.
Proof.
  induction pre as [|c pre IH]; [reflexivity|].
  rewrite !string_app_cons. cbn [String.length Nat.add substr0]. by rewrite IH.
Qed.

Lemma erase0_app_plus (pre s : string) (k : nat) :
  erase0 (pre ++ s) (String.length pre + k) = erase0 s k.
Proof.
  induction pre as [|c pre IH]; [reflexivity|].
  rewrite string_app_cons. exact IH.
Qed.

Lemma substr0_app_le (a b : string) :
  ∀ n, n ≤ String.length a → substr0 (a ++ b) n = substr0 a n.
Proof.
  induction a as [|c a IH]; intros n Hn.
  - simpl in Hn. assert (n = 0) as -> by lia. by destruct b.
  - destruct n as [|n]; [reflexivity|]. rewrite string_app_cons. cbn [substr0].
    rewrite IH; [reflexivity|]. simpl in Hn. lia.
Qed.

Lemma substr0_length (s : string) :
  ∀ n, n ≤ String.length s → String.length (substr0 s n) = n.
Proof.
  induction s as [|c s IH]; intros n Hn.
  - simpl in Hn. by assert (n = 0) as -> by lia.
  - destruct n as [|n]; [reflexivity|]. simpl in *. rewrite IH; lia.
Qed.

Lemma length_string_app (a b : string) :
  String.length (a ++ b) = String.length a + String.length b.
Proof.
  induction a as [|c a IH]; [reflexivity|].
  rewrite string_app_cons. simpl. by rewrite IH.
Qed.

(** Where the value of [HOME] first occurs in the directory, [getDirName]
    hands back [~] followed by what comes after the occurrence: whatever
    stands before the occurrence is dropped, so a directory outside the home
    directory whose path contains the home path is shown as if it were
    inside.  The caller's buffer is changed: the last character of the
    occurrence is overwritten. *)
Theorem getDirName_first_occurrence (pre home rest : string) :
  home ≠ EmptyString →
  (∀ j, j < String.length pre →
        is_prefix home (erase0 (pre ++ home ++ rest) j) = false) →
  getDirName home (pre ++ home ++ rest)
  = Some (mkDirName (String "~" rest)
            (pre ++ substr0 home (String.length home - 1) ++ String "~" rest)).
Proof.
  intros Hhome Hfirst. unfold getDirName. rewrite (strstr_first _ _ _ Hfirst).
  assert (Hlen : String.length home = S (String.length home - 1)).
  { destruct home; [contradiction|simpl; lia]. }
  set (k := String.length home - 1) in *.
  replace (String.length pre + String.length home) with (S (String.length pre + k))
    by lia.
  rewrite substr0_app_plus, (substr0_app_le home rest k) by lia.
  replace (S (String.length pre + k)) with (String.length pre + String.length home)
    by lia.
  rewrite erase0_app_plus, erase0_app.
  f_equal. f_equal; [|by rewrite string_app_assoc].
  replace (String.length pre + k)
    with (String.length (pre ++ substr0 home k)%string).
  - apply erase0_app.
  - rewrite length_string_app, substr0_length; lia.
Qed.

Lemma getDirName_first_occurrence_witness :
  getDirName "/home/u" "/tmp/test/home/u"
  = Some (mkDirName "~" "/tmp/test/home/~").
Proof.
  apply (getDirName_first_occurrence "/tmp/test" "/home/u" EmptyString).
  - discriminate.
  - intros j Hj. do 9 (destruct j as [|j]; [reflexivity|]). simpl in Hj. lia.
Defined.

(** [displayPrompt] ends the shell process exactly when [getcwd] gives the
    directory and [HOME] is not set: [getDirName] then hands a null pointer
    to [strstr]. *)
Lemma displayPrompt_ending (cwd home : option string) (root : bool) :
  (displayPrompt cwd home root).2
  = match cwd, home with
    | Some _, None => Crashes
    | _, _ => Returns tt
    end.
Proof.
  destruct cwd as [dir|], home as [home|]; try reflexivity.
  unfold displayPrompt. cbn [run_deref mbind mret Run_bind Run_ret].
  by destruct (getDirName home dir).
Qed.

(** ** [arrlen] *)

(** [arrlen] counts the entries before the first null one, whatever follows
    it; on an array without a null entry the loop runs past the array. *)
Theorem arrlen_counts {A : Type} (entries : list A) (rest : list (option A)) :
  arrlen (map Some entries ++ None :: rest) = Some (length entries)
  ∧ arrlen (map Some entries) = None.
Proof.
  induction entries as [|x entries [IH1 IH2]]; [by split|].
  cbn [map app arrlen length]. by rewrite IH1, IH2.
Qed.

(** ** The last stage *)

(** [lastCommand] hands back the node at the end of the chain: the last of
    its stages, which has no next stage. *)
Theorem lastCommand_is_last_stage (c : Command) :
  last (stages c) = Some (lastCommand c) ∧ pipe_to (lastCommand c) = None.
Proof.
  induction c as [c Hlast|c next Hnext [IH1 IH2]] using Command_chain_ind.
  - destruct c as [? ? ? ? ? ? p]. simpl in *. subst p. by split.
  - destruct c as [? ? ? ? ? ? p]. simpl in Hnext. subst p.
    cbn [stages lastCommand pipe_to]. split; [|exact IH2].
    rewrite last_cons, IH1. reflexivity.
Qed.

Lemma pipe_to_flag_background (b : bool) (cmd : Command) :
  pipe_to (flag_background b cmd) = pipe_to cmd.
Proof. by destruct b, cmd. Qed.

Lemma pipe_to_stage_node (unset : bool) (s : Stage) :
  pipe_to (stage_node unset s) = None.
Proof. unfold stage_node. by rewrite pipe_to_foldl_apply_redir. Qed.

Lemma lastCommand_piped_chain (uninitialised : nat → bool) (more : list Stage)
    (final : bool) :
  ∀ depth node,
    pipe_to node = None →
    lastCommand (piped_chain uninitialised depth node more final)
    = flag_background final
        match more with
        | [] => node
        | s :: more' =>
            stage_node (uninitialised (depth + length more')) (last_stage s more')
        end.
Proof.
  induction more as [|s more IH]; intros depth node Hnode.
  - cbn [piped_chain].
    assert (H : pipe_to (flag_background final node) = None)
      by by rewrite pipe_to_flag_background.
    destruct (flag_background final node) as [? ? ? ? ? ? p]. simpl in H. by subst p.
  - cbn [piped_chain]. destruct node as [? ? ? ? ? ? p].
    cbn [set_pipe_to lastCommand pipe_to].
    rewrite (IH _ _ (pipe_to_stage_node (uninitialised depth) s)).
    destruct more as [|s' more'].
    + cbn [length last_stage]. by rewrite Nat.add_0_r.
    + cbn [length last_stage].
      by replace (S depth + length more') with (depth + S (length more')) by lia.
Qed.

(** For every line of the grammar, the node the drain process works from,
    [lastCommand] of the chain the parser returns, is the node of the last
    stage of the line: the file it writes and whether it appends are those
    of the last stage, with that node's own unset [append], and the output
    redirections of the stages before a pipe do not reach it. *)
Theorem lastCommand_of_line (stale : Token) (uninitialised : nat → bool) (l : Line) :
  ∃ c oob,
    buildCommands stale uninitialised (line_tokens l) = Some (mkParse (Chain c) oob)
    ∧ lastCommand c
      = flag_background (final_background l)
          match piped_stages l with
          | [] => flag_background (first_background l)
                    (stage_node (uninitialised 0) (first_stage l))
          | s :: more =>
              stage_node (uninitialised (length (piped_stages l))) (last_stage s more)
          end.
Proof.
  exists (line_chain uninitialised l), (line_ends_in_word l).
  split; [apply parse_line|].
  unfold line_chain. rewrite lastCommand_piped_chain.
  - by destruct (piped_stages l).
  - by rewrite pipe_to_flag_background, pipe_to_stage_node.
Qed.
